(** * aws_gui: multi-account instance aggregation and lab control

    A shallow embedding of [app.py] and the properties of its aggregation
    and control core.

    Conventions of the embedding.
    - A Python [str] is the [string] of the bytes of its UTF-8 encoding;
      two such strings compare, byte by byte, as Python compares the
      texts, code point by code point.  [strip] removes the white-space
      characters of [str.isspace], ASCII or not.  [lower] and [repr] are
      written out for ASCII text; on other text they are what the Unicode
      database of the interpreter makes them, a parameter of the model
      (the class [Unicode]).
    - Python [int] values are [Z]; list lengths enter through [Z.of_nat].
    - A Python [dict] is an association list in insertion order with
      pairwise distinct keys; the operations used by the program
      ([get], [setdefault], item assignment) are written out.
    - A dictionary member read with [.get] and no default is an
      [option]: missing and null both read as [None].  [State] and
      [Placement], which the code guards against an explicit null, and
      [Tags], which it does not, have the three cases of [member]:
      missing, null or present.
    - Exceptions are values of [exn]; code that can raise runs in the
      error monad [Exc], and code that also talks to the remote API in
      the trace monad [M], which records the worker pools created and the
      mutating calls issued. *)

From Stdlib Require Import List String Ascii ZArith Lia Bool Arith.
From Stdlib Require Import Permutation Sorted OrderedTypeEx DecimalString.
From Stdlib Require Import DecimalPos.
Import ListNotations.

Local Open Scope string_scope.
Local Open Scope list_scope.

(** ** Strings *)

(** What the Unicode database of the interpreter decides, and so what
    changes with its version: [str.lower] and [repr] on a text that is not
    all ASCII (which characters have a lowercase form, and which are
    printable). *)
Class Unicode : Type := mkUnicode {
  unicode_lower : string -> string;
  unicode_repr : string -> string
}.

Module Str.

Definition is_upper (c : ascii) : bool :=
  let n := nat_of_ascii c in (65 <=? n)%nat && (n <=? 90)%nat.

Definition lower_char (c : ascii) : ascii :=
  if is_upper c then ascii_of_nat (nat_of_ascii c + 32) else c.

(** All bytes are below 128: the text is ASCII. *)
Fixpoint is_ascii (s : string) : bool :=
  match s with
  | EmptyString => true
  | String c s' => (nat_of_ascii c <? 128)%nat && is_ascii s'
  end.

(** [str.lower] on ASCII text: the letters A to Z are replaced. *)
Fixpoint ascii_lower (s : string) : string :=
  match s with
  | EmptyString => EmptyString
  | String c s' => String (lower_char c) (ascii_lower s')
  end.

(** [str.lower] *)
Definition lower {U : Unicode} (s : string) : string :=
  if is_ascii s then ascii_lower s else unicode_lower s.

(** A [str] is given by the bytes of its UTF-8 encoding.  The white-space
    characters, those [str.isspace] accepts and [str.strip] removes, are
    the following 29, each by its bytes. *)

(** U+0009 to U+000D, U+001C to U+001F and the space U+0020. *)
Definition space1 (c : ascii) : bool :=
  let n := nat_of_ascii c in
  ((9 <=? n)%nat && (n <=? 13)%nat) || ((28 <=? n)%nat && (n <=? 32)%nat).

(** U+0085 and U+00A0: the bytes C2 85 and C2 A0. *)
Definition space2 (c1 c2 : ascii) : bool :=
  (nat_of_ascii c1 =? 194)%nat
  && ((nat_of_ascii c2 =? 133)%nat || (nat_of_ascii c2 =? 160)%nat).

(** U+1680: E1 9A 80.  U+2000 to U+200A, U+2028, U+2029 and U+202F:
    E2 80 80 to E2 80 8A, E2 80 A8, E2 80 A9 and E2 80 AF.  U+205F:
    E2 81 9F.  U+3000: E3 80 80. *)
Definition space3 (c1 c2 c3 : ascii) : bool :=
  let n1 := nat_of_ascii c1 in
  let n2 := nat_of_ascii c2 in
  let n3 := nat_of_ascii c3 in
  ((n1 =? 225)%nat && (n2 =? 154)%nat && (n3 =? 128)%nat)
  || ((n1 =? 226)%nat && (n2 =? 128)%nat
      && (((128 <=? n3)%nat && (n3 <=? 138)%nat)
          || (n3 =? 168)%nat || (n3 =? 169)%nat || (n3 =? 175)%nat))
  || ((n1 =? 226)%nat && (n2 =? 129)%nat && (n3 =? 159)%nat)
  || ((n1 =? 227)%nat && (n2 =? 128)%nat && (n3 =? 128)%nat).

(** Dropping the characters at the front of the bytes [l] that are
    recognized by [p1] (one byte), [p2] (two bytes) or [p3] (three
    bytes). *)
Fixpoint drop_spaces (p1 : ascii -> bool) (p2 : ascii -> ascii -> bool)
  (p3 : ascii -> ascii -> ascii -> bool) (l : list ascii) : list ascii :=
  match l with
  | [] => []
  | c1 :: l1 =>
      if p1 c1 then drop_spaces p1 p2 p3 l1
      else
        match l1 with
        | [] => l
        | c2 :: l2 =>
            if p2 c1 c2 then drop_spaces p1 p2 p3 l2
            else
              match l2 with
              | [] => l
              | c3 :: l3 =>
                  if p3 c1 c2 c3 then drop_spaces p1 p2 p3 l3 else l
              end
        end
  end.

(** The bytes are those of such characters only. *)
Fixpoint only_spaces (p1 : ascii -> bool) (p2 : ascii -> ascii -> bool)
  (p3 : ascii -> ascii -> ascii -> bool) (l : list ascii) : bool :=
  match l with
  | [] => true
  | c1 :: l1 =>
      if p1 c1 then only_spaces p1 p2 p3 l1
      else
        match l1 with
        | [] => false
        | c2 :: l2 =>
            if p2 c1 c2 then only_spaces p1 p2 p3 l2
            else
              match l2 with
              | [] => false
              | c3 :: l3 =>
                  if p3 c1 c2 c3 then only_spaces p1 p2 p3 l3 else false
              end
        end
  end.

(** The bytes begin with such a character. *)
Definition starts_space (p1 : ascii -> bool) (p2 : ascii -> ascii -> bool)
  (p3 : ascii -> ascii -> ascii -> bool) (l : list ascii) : bool :=
  match l with
  | [] => false
  | c1 :: l1 =>
      p1 c1
      || match l1 with
         | [] => false
         | c2 :: l2 =>
             p2 c1 c2
             || match l2 with
                | [] => false
                | c3 :: _ => p3 c1 c2 c3
                end
         end
  end.

(** [str.lstrip()] and [str.rstrip()] on the bytes; at the end of the text
    the bytes of a character are met last byte first. *)
Definition lstrip_bytes (l : list ascii) : list ascii :=
  drop_spaces space1 space2 space3 l.

Definition rstrip_bytes (l : list ascii) : list ascii :=
  List.rev
    (drop_spaces space1 (fun c2 c1 => space2 c1 c2)
       (fun c3 c2 c1 => space3 c1 c2 c3) (List.rev l)).

(** [str.strip()] with no argument. *)
Definition strip (s : string) : string :=
  string_of_list_ascii
    (rstrip_bytes (lstrip_bytes (list_ascii_of_string s))).

(** The text is empty or made of white space only. *)
Definition all_space (s : string) : bool :=
  only_spaces space1 space2 space3 (list_ascii_of_string s).

(** [str(n)] for a length. *)
Definition of_nat (n : nat) : string :=
  NilEmpty.string_of_uint (Nat.to_uint n).

(** [x or d] for an optional string: [None] and [""] are falsy. *)
Definition or_else (x : option string) (d : string) : string :=
  match x with
  | Some s => if (s =? "") then d else s
  | None => d
  end.

(** Truthiness of an optional string. *)
Definition truthy (x : option string) : bool :=
  match x with
  | Some s => negb (s =? "")
  | None => false
  end.

End Str.

(** ** Dictionaries in insertion order *)

Module Dict.

Definition t (V : Type) : Type := list (string * V).

Definition keys {V} (d : t V) : list string := map fst d.
Definition values {V} (d : t V) : list V := map snd d.

(** [d.get(k)] *)
Fixpoint get {V} (d : t V) (k : string) : option V :=
  match d with
  | [] => None
  | (k', v) :: d' => if (k' =? k) then Some v else get d' k
  end.

(** [d[k] = v]: an existing key keeps its position. *)
Fixpoint set {V} (d : t V) (k : string) (v : V) : t V :=
  match d with
  | [] => [(k, v)]
  | (k', v') :: d' =>
      if (k' =? k) then (k', v) :: d' else (k', v') :: set d' k v
  end.

(** [d.setdefault(k, []).extend(xs)]; with [xs = [x]] this is
    [d.setdefault(k, []).append(x)]. *)
Fixpoint setdefault_extend {A} (d : t (list A)) (k : string) (xs : list A)
  : t (list A) :=
  match d with
  | [] => [(k, xs)]
  | (k', v) :: d' =>
      if (k' =? k) then (k', v ++ xs) :: d'
      else (k', v) :: setdefault_extend d' k xs
  end.

(** The list stored under [k], empty when [k] is not a key. *)
Definition lookup {A} (d : t (list A)) (k : string) : list A :=
  match get d k with
  | Some v => v
  | None => []
  end.

(** Well-formedness of a dictionary: no key occurs twice. *)
Definition wf {V} (d : t V) : Prop := NoDup (keys d).

End Dict.

(** ** Data model *)

(** One element of an instance's [Tags] list. *)
Record Tag : Type := mkTag {
  tag_Key : option string;
  tag_Value : option string
}.

(** A dictionary member that the code guards with [or {}]: it may be
    missing, explicitly null, or present. *)
Inductive member (A : Type) : Type :=
| Missing
| Null
| Present (a : A).
Arguments Missing {A}.
Arguments Null {A}.
Arguments Present {A} a.

(** The raw instance dictionary of a [describe_instances] page, restricted
    to the members [transform_instance] reads.  [State] is the dictionary
    [{"Name": ...}] and [Placement] the dictionary
    [{"AvailabilityZone": ...}], each given by its one member read; the
    member "Name" of [State], which is read with a default, may itself be
    missing, null or present.  [Tags], which the code iterates over as it
    finds it, is missing, null or a list of tag dictionaries. *)
Record Ec2 : Type := mkEc2 {
  InstanceId : option string;
  Tags : member (list Tag);
  State : member (member string);
  InstanceType : option string;
  Placement : member (option string);
  PublicIpAddress : option string;
  PrivateIpAddress : option string
}.

(** The Instance Record built by [transform_instance]. *)
Record Instance : Type := mkInstance {
  account : string;
  instance_id : option string;
  name : option string;
  state : option string;
  type : option string;
  az : option string;
  public_ip : option string;
  private_ip : option string;
  lab : option string
}.

(** An account descriptor.  The code reads [name] with
    [.get('name', 'unknown')] on its error paths, so the name is optional;
    the credentials and the region are what [load_accounts_config]
    guarantees. *)
Record Account : Type := mkAccount {
  acct_name : option string;
  ak : string;
  sk : string;
  region : string
}.

(** ** Exceptions and the two monads *)

(** The exceptions the program can meet.  [BotoError] stands for botocore's
    [ClientError] and [BotoCoreError], the two classes the adapters catch;
    [TypeError] is the one raised by [<] between [None] and a string, and
    [NoneNotIterable] the [TypeError] raised by iterating over [None]. *)
Inductive exn : Type :=
| BotoError (msg : string)
| RuntimeError (msg : string)
| KeyError (key : string)
| TypeError
| NoneNotIterable
| OtherError (msg : string).

(** [str(exc)], as interpolated by the f-strings. *)
Definition str_exn (e : exn) : string :=
  match e with
  | BotoError msg | RuntimeError msg | OtherError msg => msg
  | KeyError key => "'" ++ key ++ "'"
  | TypeError => "'<' not supported between instances of 'NoneType' and 'str'"
  | NoneNotIterable => "'NoneType' object is not iterable"
  end.

(** Computations that return or raise. *)
Definition Exc (A : Type) : Type := (exn + A)%type.

Module ExcM.
Definition ret {A} (a : A) : Exc A := inr a.
Definition raise {A} (e : exn) : Exc A := inl e.
Definition bind {A B} (m : Exc A) (f : A -> Exc B) : Exc B :=
  match m with
  | inl e => inl e
  | inr a => f a
  end.
Fixpoint mapM {A B} (f : A -> Exc B) (l : list A) : Exc (list B) :=
  match l with
  | [] => inr []
  | x :: l' =>
      bind (f x) (fun y => bind (mapM f l') (fun ys => inr (y :: ys)))
  end.
Definition is_ok {A} (m : Exc A) : bool :=
  match m with inr _ => true | inl _ => false end.
End ExcM.

Declare Scope exc_scope.
Delimit Scope exc_scope with exc.
Notation "x <- m ;; k" := (ExcM.bind m (fun x => k))
  (at level 61, m at next level, right associativity) : exc_scope.

(** What a request does to the outside: the worker pools it creates and the
    mutating calls it sends. *)
Inductive Op : Type := Stop | Start.

Inductive event : Type :=
| PoolCreated (max_workers : Z)
| Mutate (op : Op) (acct : Account) (InstanceIds : list (option string)).

(** Computations that also leave a trace of events; an exception keeps the
    trace produced before it was raised. *)
Definition M (A : Type) : Type := (list event * Exc A)%type.

Module TraceM.
Definition ret {A} (a : A) : M A := ([], inr a).
Definition raise {A} (e : exn) : M A := ([], inl e).
Definition emit (ev : event) : M unit := ([ev], inr tt).
Definition lift {A} (m : Exc A) : M A := ([], m).
Definition bind {A B} (m : M A) (f : A -> M B) : M B :=
  match snd m with
  | inl e => (fst m, inl e)
  | inr a => (fst m ++ fst (f a), snd (f a))
  end.
(** [try: m except Exception as exc: h(exc)] *)
Definition try_except {A} (m : M A) (h : exn -> M A) : M A :=
  match snd m with
  | inl e => (fst m ++ fst (h e), snd (h e))
  | inr a => m
  end.
Definition trace {A} (m : M A) : list event := fst m.
Definition result {A} (m : M A) : Exc A := snd m.
End TraceM.

Declare Scope trace_scope.
Delimit Scope trace_scope with M.
Notation "x <- m ;; k" := (TraceM.bind m (fun x => k))
  (at level 61, m at next level, right associativity) : trace_scope.
Notation "m ;;; k" := (TraceM.bind m (fun _ => k))
  (at level 61, right associativity) : trace_scope.

(** ** transform_instance *)

(** [{tag.get("Key"): tag.get("Value") for tag in tags if tag.get("Key")}] *)
Definition tags_dict (tags : list Tag) : Dict.t (option string) :=
  fold_left
    (fun d tag =>
       match tag_Key tag with
       | Some k => if Str.truthy (Some k) then Dict.set d k (tag_Value tag)
                   else d
       | None => d
       end)
    tags [].

(** [(m or {}).get(key, default)] for a guarded sub-dictionary [m] given by
    its one member. *)
Definition member_get (m : member (option string)) : option string :=
  match m with
  | Present v => v
  | Missing | Null => None
  end.

(** [(ec2.get("State", {}) or {}).get("Name", "unknown")]: the default
    stands in for a missing member only, a null "Name" is returned as it
    is. *)
Definition state_name (m : member (member string)) : option string :=
  match m with
  | Present (Present n) => Some n
  | Present Null => None
  | Present Missing | Missing | Null => Some "unknown"
  end.

(** [ec2.get("Tags", [])], which the comprehension then iterates over:
    iterating over [None] raises. *)
Definition iter_tags (m : member (list Tag)) : Exc (list Tag) :=
  match m with
  | Present l => inr l
  | Missing => inr []
  | Null => inl NoneNotIterable
  end.

Definition transform_instance (account_name : string) (ec2 : Ec2)
  : Exc Instance :=
  (listed <- iter_tags (Tags ec2) ;;
   let tags := tags_dict listed in
   let instance_state := state_name (State ec2) in
   inr {| account := account_name;
          instance_id := InstanceId ec2;
          name := match Dict.get tags "Name" with
                  | Some v => v
                  | None => Some ""
                  end;
          state := instance_state;
          type := InstanceType ec2;
          az := member_get (Placement ec2);
          public_ip := PublicIpAddress ec2;
          private_ip := PrivateIpAddress ec2;
          lab := match Dict.get tags "lab" with
                 | Some v => v
                 | None => None
                 end |})%exc.

(** ** Summarizer *)

(** The Grouped View. *)
Definition View : Type := Dict.t (list Instance).

Record GroupSummary : Type := mkGroupSummary {
  total : Z;
  powered_up : Z;
  accounts : list string
}.

Record Overall : Type := mkOverall {
  o_total : Z;
  o_powered_up : Z;
  o_off : Z
}.

(** [sum(1 for i in instances if p(i))] *)
Definition count_if {A} (p : A -> bool) (l : list A) : Z :=
  fold_left (fun acc i => if p i then (acc + 1)%Z else acc) l 0%Z.

(** [sum(f(v) for v in l)] *)
Definition sum_of {A} (f : A -> Z) (l : list A) : Z :=
  fold_left (fun acc v => (acc + f v)%Z) l 0%Z.

(** Insertion of a string into a sorted list without repetition. *)
Fixpoint set_insert (s : string) (l : list string) : list string :=
  match l with
  | [] => [s]
  | x :: l' =>
      match String.compare s x with
      | Lt => s :: x :: l'
      | Eq => x :: l'
      | Gt => x :: set_insert s l'
      end
  end.

(** [sorted({...})]: the distinct elements in ascending order. *)
Definition sorted_set (l : list string) : list string :=
  fold_right set_insert [] l.

(** [i.get("state") == s] *)
Definition state_is (i : Instance) (s : string) : bool :=
  match state i with
  | Some s' => (s' =? s)
  | None => false
  end.

Definition is_running (i : Instance) : bool := state_is i "running".

Definition summarize_group (instances : list Instance) : GroupSummary :=
  {| total := Z.of_nat (List.length instances);
     powered_up := count_if is_running instances;
     accounts :=
       sorted_set
         (map account (filter (fun i => negb (account i =? "")) instances)) |}.

Definition summarize_labs (labs_to_instances : View) : Dict.t GroupSummary :=
  fold_left
    (fun summary item =>
       Dict.set summary (fst item) (summarize_group (snd item)))
    labs_to_instances [].

Definition compute_overall_counts (summary : Dict.t GroupSummary) : Overall :=
  let total := sum_of total (Dict.values summary) in
  let powered_up := sum_of powered_up (Dict.values summary) in
  {| o_total := total;
     o_powered_up := powered_up;
     o_off := (total - powered_up)%Z |}.

(** ** Sorting *)

(** [list.sort(key=...)] and [sorted(..., key=...)] are stable: elements
    with equal keys keep their order.  The result of a stable sort is
    determined by the keys' order, so insertion sort stands for it. *)
Section StableSort.
Context {A K : Type}.
Variable key : A -> K.
Variable ltb : K -> K -> bool.

Fixpoint insert (x : A) (s : list A) : list A :=
  match s with
  | [] => [x]
  | y :: s' => if ltb (key y) (key x) then y :: insert x s' else x :: s
  end.

Definition stable_sort (l : list A) : list A := fold_right insert [] l.

(** [x] may stand before [y]: Python's [not (key(y) < key(x))]. *)
Definition key_le (x y : A) : Prop := ltb (key y) (key x) = false.

(** The elements whose key is [c]. *)
Definition has_sort_key (c : K) (x : A) : bool :=
  negb (ltb c (key x)) && negb (ltb (key x) c).
End StableSort.

(** The sort key [(x.get("account"), x.get("instance_id"))]. *)
Definition SortKey : Type := (string * option string)%type.

Definition instance_key (x : Instance) : SortKey := (account x, instance_id x).

(** Python's [<] on two such tuples: the first components decide when they
    differ; otherwise the second components do, and comparing [None] with a
    string raises. *)
Definition key_lt (k1 k2 : SortKey) : Exc bool :=
  if (fst k1 =? fst k2) then
    match snd k1, snd k2 with
    | Some a, Some b => inr (String.ltb a b)
    | None, None => inr false
    | _, _ => inl TypeError
    end
  else inr (String.ltb (fst k1) (fst k2)).

(** The same order made total by placing [None] first; it agrees with
    [key_lt] wherever that returns. *)
Definition id_ltb (a b : option string) : bool :=
  match a, b with
  | Some a, Some b => String.ltb a b
  | None, Some _ => true
  | _, None => false
  end.

Definition key_ltb (k1 k2 : SortKey) : bool :=
  if (fst k1 =? fst k2) then id_ltb (snd k1) (snd k2)
  else String.ltb (fst k1) (fst k2).

(** No comparison between two keys of the list raises. *)
Definition comparable (ks : list SortKey) : bool :=
  forallb (fun k1 => forallb (fun k2 => ExcM.is_ok (key_lt k1 k2)) ks) ks.

(** [instances.sort(key=lambda x: (x.get("account"), x.get("instance_id")))].
    Two keys that cannot be compared have the same account, and the keys of
    one account form one block of the sorted list; no comparison sort can
    order a block that holds an absent and a present identifier without
    comparing two such keys, and no other comparison raises.  So the sort
    raises exactly when the list holds two keys that cannot be compared,
    and returns the stably sorted list otherwise. *)
Definition sort_instances (instances : list Instance) : Exc (list Instance) :=
  if comparable (map instance_key instances)
  then inr (stable_sort instance_key key_ltb instances)
  else inl TypeError.

(** [dict(sorted(labs.items(), key=lambda item: item[0].lower()))] *)
Definition sort_labs {U : Unicode} (labs : View) : View :=
  stable_sort (fun item : string * list Instance => Str.lower (fst item))
    String.ltb labs.

(** ** The read pipeline *)

(** A reservation and a page as botocore parses them: the list of a
    member is there, or the member is omitted and read with its default,
    the empty list. *)
Record Reservation : Type := mkReservation {
  Instances : option (list Ec2)
}.

Record Page : Type := mkPage {
  Reservations : option (list Reservation)
}.

(** What the paginator of one account delivers: the pages it yields and, if
    it then raises instead of finishing, the exception. *)
Record Paginated : Type := mkPaginated {
  pages : list Page;
  failure : option exn
}.

(** The remote API as seen by one fan-out round.  Creating the session and
    the client sends nothing; an exception raised there propagates as it
    is, like a [failure] other than [BotoError] with no page seen. *)
Definition Remote : Type := Account -> Paginated.

Definition page_instances (page : Page) : list Ec2 :=
  flat_map
    (fun reservation =>
       match Instances reservation with Some l => l | None => [] end)
    (match Reservations page with Some l => l | None => [] end).

(** [account["name"]] *)
Definition get_name (account : Account) : Exc string :=
  match acct_name account with
  | Some n => inr n
  | None => inl (KeyError "name")
  end.

(** [account.get('name', 'unknown')] *)
Definition name_or_unknown (account : Account) : string :=
  match acct_name account with
  | Some n => n
  | None => "unknown"
  end.

Definition fetch_instances_for_account (remote : Remote) (account : Account)
  : Exc (list Instance) :=
  (instances <-
     ExcM.mapM
       (fun ec2 => n <- get_name account ;; transform_instance n ec2)
       (flat_map page_instances (pages (remote account))) ;;
   match failure (remote account) with
   | None => inr instances
   | Some (BotoError msg) =>
       n <- get_name account ;;
       inl (RuntimeError
              ("Error fetching EC2 instances in " ++ n ++ " ("
               ++ region account ++ "): " ++ msg))
   | Some e => inl e
   end)%exc.

(** [instance.get("lab") or "(no lab tag)"] *)
Definition lab_name (instance : Instance) : string :=
  Str.or_else (lab instance) "(no lab tag)".

(** The loop of [task] that groups one account's listing. *)
Definition group_by_lab (instances : list Instance) : View :=
  fold_left
    (fun grouped instance =>
       Dict.setdefault_extend grouped (lab_name instance) [instance])
    instances [].

(** The per-account [task] of [fetch_all_accounts_grouped_by_lab]. *)
Definition task (remote : Remote) (account : Account)
  : string * View * list string :=
  match
    (instances <- fetch_instances_for_account remote account ;;
     n <- get_name account ;;
     inr (n, group_by_lab instances, []))%exc
  with
  | inr r => r
  | inl exc =>
      (name_or_unknown account, [],
       [(name_or_unknown account ++ ": " ++ str_exn exc)%string])
  end.

(** [min(8, max(1, len(accounts)))] *)
Definition max_workers (accounts : list Account) : Z :=
  Z.min 8 (Z.max 1 (Z.of_nat (List.length accounts))).

(** Merging one account's grouped result on the main thread. *)
Definition merge_grouped (labs_to_instances grouped_result : View) : View :=
  fold_left
    (fun labs item => Dict.setdefault_extend labs (fst item) (snd item))
    grouped_result labs_to_instances.

(** The [as_completed] loop: [completed] lists the accounts in the order
    their futures complete. *)
Definition merge_completed (remote : Remote) (completed : list Account)
  : View * list string :=
  fold_left
    (fun acc account =>
       let '(_, grouped_result, acct_errors) := task remote account in
       (merge_grouped (fst acc) grouped_result, snd acc ++ acct_errors))
    completed ([], []).

(** The loop sorting every group in place. *)
Definition sort_groups (labs : View) : Exc View :=
  ExcM.mapM
    (fun item : string * list Instance =>
       (sorted <- sort_instances (snd item) ;; inr (fst item, sorted))%exc)
    labs.

(** [completed] is the order in which the futures of [accounts] complete,
    a permutation of [accounts]. *)
Definition fetch_all_accounts_grouped_by_lab {U : Unicode}
  (remote : Remote) (accounts completed : list Account)
  : M (View * list string) :=
  (TraceM.emit (PoolCreated (max_workers accounts)) ;;;
   let '(labs_to_instances, errors) := merge_completed remote completed in
   sorted <- TraceM.lift (sort_groups labs_to_instances) ;;
   TraceM.ret (sort_labs sorted, errors))%M.

(** ** The mutating step *)

(** [range(0, stop, step)] *)
Definition range_step (stop step : nat) : list nat :=
  map (fun k => k * step) (seq 0 ((stop + step - 1) / step)).

(** [l[i:j]] for [0 <= i <= j] *)
Definition slice {A} (l : list A) (i j : nat) : list A :=
  firstn (j - i) (skipn i l).

Definition chunk_size : nat := 50.
Arguments chunk_size : simpl never.

(** The successive values of [chunk] in the loop over
    [range(0, len(instance_ids), chunk_size)]. *)
Definition chunks (instance_ids : list (option string))
  : list (list (option string)) :=
  map (fun i => slice instance_ids i (i + chunk_size))
      (range_step (List.length instance_ids) chunk_size).

(** The EC2 client of one account for one mutating operation, once
    created: given the calls it has already answered, the outcome of the
    next call, [None] for success and [Some exc] when the call raises
    [exc]. *)
Definition Client : Type :=
  list (list (option string)) -> list (option string) -> option exn.

Definition op_api (op : Op) : string :=
  match op with Stop => "stop_instances" | Start => "start_instances" end.

(** The body of the loop over the chunks; [sent] are the chunks already
    sent. *)
Fixpoint send_chunks (op : Op) (client : Client) (account : Account)
  (sent todo : list (list (option string))) : M unit :=
  match todo with
  | [] => TraceM.ret tt
  | chunk :: rest =>
      (TraceM.emit (Mutate op account chunk) ;;;
       match client sent chunk with
       | None => send_chunks op client account (sent ++ [chunk]) rest
       | Some (BotoError msg) =>
           n <- TraceM.lift (get_name account) ;;
           TraceM.raise
             (RuntimeError
                (op_api op ++ " failed in " ++ n ++ " (" ++ region account
                 ++ "): " ++ msg))
       | Some e => TraceM.raise e
       end)%M
  end.

(** [stop_instances_for_account] and [start_instances_for_account] differ
    in the remote call and in the text of the error only. *)
Definition mutate_instances_for_account (op : Op) (client : Client)
  (account : Account) (instance_ids : list (option string)) : M unit :=
  match instance_ids with
  | [] => TraceM.ret tt
  | _ => send_chunks op client account [] (chunks instance_ids)
  end.

Definition stop_instances_for_account := mutate_instances_for_account Stop.
Definition start_instances_for_account := mutate_instances_for_account Start.

(** ** The request handlers *)

Record Response : Type := mkResponse {
  r_labs_to_instances : View;
  r_summary : Dict.t GroupSummary;
  r_overall : Overall;
  r_errors : list string;
  r_messages : list string
}.

(** The state an instance must be in to be selected. *)
Definition precondition (op : Op) : string :=
  match op with Stop => "running" | Start => "stopped" end.

Definition op_verb (op : Op) : string :=
  match op with Stop => "stop" | Start => "start" end.

Definition op_progress (op : Op) : string :=
  match op with Stop => "stopping" | Start => "starting" end.

(** The filter of [collect_task]. *)
Definition selected (op : Op) (target_lab : string) (i : Instance) : bool :=
  (lab_name i =? target_lab) && state_is i (precondition op).

(** [collect_task] of [stop_lab] ([op = Stop]) and [start_lab]
    ([op = Start]). *)
Definition collect_task (op : Op) (remote : Remote) (target_lab : string)
  (acct : Account) : string * list (option string) * list string :=
  match
    (instances <- fetch_instances_for_account remote acct ;;
     n <- get_name acct ;;
     inr (n, map instance_id (filter (selected op target_lab) instances),
          []))%exc
  with
  | inr r => r
  | inl exc =>
      (name_or_unknown acct, [],
       [(name_or_unknown acct ++ ": " ++ str_exn exc)%string])
  end.

(** The state of the selection loop: [per_account_ids], [errors] and
    [messages]. *)
Record Selection : Type := mkSelection {
  per_account_ids : list (Account * list (option string));
  sel_errors : list string;
  sel_messages : list string
}.

Definition progress_message (op : Op) (acct_name : string) (n : nat)
  (target_lab : string) : string :=
  acct_name ++ ": " ++ op_progress op ++ " " ++ Str.of_nat n
  ++ " instance(s) in lab '" ++ target_lab ++ "'".

(** The [as_completed] loop of the selection round. *)
Definition collect_completed (op : Op) (remote : Remote) (target_lab : string)
  (completed : list Account) : Selection :=
  fold_left
    (fun sel acct =>
       let '(acct_name, ids, acct_errs) :=
         collect_task op remote target_lab acct in
       match ids with
       | [] =>
           {| per_account_ids := per_account_ids sel;
              sel_errors := sel_errors sel ++ acct_errs;
              sel_messages := sel_messages sel |}
       | _ =>
           {| per_account_ids := per_account_ids sel ++ [(acct, ids)];
              sel_errors := sel_errors sel ++ acct_errs;
              sel_messages :=
                sel_messages sel
                ++ [progress_message op acct_name (List.length ids)
                      target_lab] |}
       end)
    completed
    {| per_account_ids := []; sel_errors := []; sel_messages := [] |}.

(** The loop performing the operation per account; it returns [errors]. *)
Fixpoint mutate_selected (op : Op) (clients : Account -> Client)
  (selection : list (Account * list (option string))) (errors : list string)
  : M (list string) :=
  match selection with
  | [] => TraceM.ret errors
  | (acct, instance_ids) :: rest =>
      (errors' <-
         TraceM.try_except
           (mutate_instances_for_account op (clients acct) acct instance_ids ;;;
            TraceM.ret errors)
           (fun exc =>
              TraceM.ret
                (errors
                 ++ [(name_or_unknown acct ++ ": " ++ op_verb op
                      ++ " failed: " ++ str_exn exc)%string])) ;;
       mutate_selected op clients rest errors')%M
  end.

(** The inputs of a control request: the submitted form field, what
    [load_accounts_config] returned, the remote API and the completion
    order of the selection round, the clients of the mutating step, and
    the remote API and the completion order of the recompute round. *)
Record ControlEnv : Type := mkControlEnv {
  form_lab_name : option string;
  cfg_accounts : list Account;
  config_errors : list string;
  sel_remote : Remote;
  sel_completed : list Account;
  clients : Account -> Client;
  rec_remote : Remote;
  rec_completed : list Account
}.

(** [(request.form.get("lab_name") or "").strip()] *)
Definition target_lab_of (form_value : option string) : string :=
  Str.strip (Str.or_else form_value "").

Definition control_lab {U : Unicode} (op : Op) (env : ControlEnv)
  : M Response :=
  let target_lab := target_lab_of (form_lab_name env) in
  (outcome <-
     (if (target_lab =? "")
      then TraceM.ret (["Lab name is required."], [])
      else
        TraceM.emit (PoolCreated (max_workers (cfg_accounts env))) ;;;
        let sel :=
          collect_completed op (sel_remote env) target_lab
            (sel_completed env) in
        errors <-
          mutate_selected op (clients env) (per_account_ids sel)
            (sel_errors sel) ;;
        TraceM.ret (errors, sel_messages sel)) ;;
   view <-
     fetch_all_accounts_grouped_by_lab (rec_remote env) (cfg_accounts env)
       (rec_completed env) ;;
   let summary := summarize_labs (fst view) in
   let overall := compute_overall_counts summary in
   TraceM.ret
     {| r_labs_to_instances := fst view;
        r_summary := summary;
        r_overall := overall;
        r_errors := fst outcome ++ (config_errors env ++ snd view);
        r_messages := snd outcome |})%M.

Definition stop_lab {U : Unicode} : ControlEnv -> M Response :=
  control_lab Stop.
Definition start_lab {U : Unicode} : ControlEnv -> M Response :=
  control_lab Start.

Definition index {U : Unicode} (accounts : list Account)
  (config_errors : list string)
  (remote : Remote) (completed : list Account) : M Response :=
  (view <- fetch_all_accounts_grouped_by_lab remote accounts completed ;;
   let summary := summarize_labs (fst view) in
   let overall := compute_overall_counts summary in
   TraceM.ret
     {| r_labs_to_instances := fst view;
        r_summary := summary;
        r_overall := overall;
        r_errors := config_errors ++ snd view;
        r_messages := [] |})%M.

(** ** The account configuration *)

(** A value parsed by [json.load].  An integer literal is an [int]; a
    number with a fraction or an exponent is a [float], given here by the
    text [str] prints for it, first character and rest; an object is a
    dictionary. *)
#[local] Unset Elimination Schemes.
Inductive json : Type :=
| JNull
| JBool (b : bool)
| JInt (z : Z)
| JFloat (first : ascii) (rest : string)
| JStr (s : string)
| JArr (items : list json)
| JObj (members : Dict.t json).
#[local] Set Elimination Schemes.

(** Truthiness of a parsed value: [None], [False], zero, the empty string,
    the empty list and the empty dictionary are falsy. *)
Definition json_truthy (v : json) : bool :=
  match v with
  | JNull => false
  | JBool b => b
  | JInt z => negb (z =? 0)%Z
  | JFloat first rest =>
      negb ((String first rest =? "0.0") || (String first rest =? "-0.0"))
  | JStr s => negb (s =? "")
  | JArr items => match items with [] => false | _ => true end
  | JObj members => match members with [] => false | _ => true end
  end.

Module Repr.

Definition backslash : ascii := ascii_of_nat 92.
Definition single_quote : ascii := ascii_of_nat 39.
Definition double_quote : ascii := ascii_of_nat 34.

Fixpoint contains (c : ascii) (s : string) : bool :=
  match s with
  | EmptyString => false
  | String c' s' => (c' =? c)%char || contains c s'
  end.

Definition hex_digit (n : nat) : ascii :=
  if (n <? 10)%nat then ascii_of_nat (48 + n) else ascii_of_nat (87 + n).

(** One character inside a string literal delimited by [quote]. *)
Definition escape (quote c : ascii) : string :=
  let n := nat_of_ascii c in
  if (c =? backslash)%char then String backslash (String backslash "")
  else if (c =? quote)%char then String backslash (String quote "")
  else if (n =? 9)%nat then String backslash "t"
  else if (n =? 10)%nat then String backslash "n"
  else if (n =? 13)%nat then String backslash "r"
  else if (n <? 32)%nat || (n =? 127)%nat
       then String backslash
              (String "x"%char
                 (String (hex_digit (n / 16)) (String (hex_digit (n mod 16)) "")))
  else String c "".

Fixpoint escape_all (quote : ascii) (s : string) : string :=
  match s with
  | EmptyString => EmptyString
  | String c s' => (escape quote c ++ escape_all quote s')%string
  end.

(** [repr(s)] on ASCII text: double quotes are chosen when the text holds a
    single quote and no double quote. *)
Definition of_ascii (s : string) : string :=
  let quote :=
    if contains single_quote s && negb (contains double_quote s)
    then double_quote else single_quote in
  String quote (escape_all quote s ++ String quote "")%string.

(** [repr(s)] *)
Definition of_string {U : Unicode} (s : string) : string :=
  if Str.is_ascii s then of_ascii s else unicode_repr s.

(** [str(z)] for an [int]. *)
Definition of_int (z : Z) : string := NilEmpty.string_of_int (Z.to_int z).

End Repr.

(** [repr(v)] for a parsed value. *)
Fixpoint py_repr {U : Unicode} (v : json) : string :=
  match v with
  | JNull => "None"
  | JBool true => "True"
  | JBool false => "False"
  | JInt z => Repr.of_int z
  | JFloat first rest => String first rest
  | JStr s => Repr.of_string s
  | JArr items => "[" ++ String.concat ", " (map py_repr items) ++ "]"
  | JObj members =>
      "{"
      ++ String.concat ", "
           (map (fun '(k, v) => Repr.of_string k ++ ": " ++ py_repr v)
              members)
      ++ "}"
  end%string.

(** [str(v)], which is also how an f-string prints [v]. *)
Definition py_str {U : Unicode} (v : json) : string :=
  match v with
  | JStr s => s
  | _ => py_repr v
  end.

(** [acct.get(key)]: [None] when the key is missing. *)
Definition json_get (members : Dict.t json) (key : string) : json :=
  match Dict.get members key with
  | Some v => v
  | None => JNull
  end.

(** What reading the configuration file comes to: the path does not exist,
    opening or reading raises, [json.load] raises [JSONDecodeError] with the
    given text, or a value is parsed. *)
Inductive ConfigFile : Type :=
| NoSuchFile
| Unreadable (exc : exn)
| InvalidJson (msg : string)
| Loaded (data : json).

(** [enumerate(data)] *)
Definition enumerate {A} (l : list A) : list (nat * A) :=
  combine (seq 0 (List.length l)) l.

(** The names of the fields whose value is falsy, in the order the code
    tests them. *)
Definition missing_fields (name access_key_id secret_access_key region_name
                           : json) : list string :=
  map fst
    (filter (fun field => negb (json_truthy (snd field)))
       [("name", name); ("ak", access_key_id); ("sk", secret_access_key);
        ("region", region_name)]).

(** One turn of the loop over the entries: the state is
    [(normalized_accounts, errors)]. *)
Definition load_entry {U : Unicode} (state : list Account * list string)
  (entry : nat * json) : list Account * list string :=
  let '(idx, acct) := entry in
  match acct with
  | JObj members =>
      let name := json_get members "name" in
      let access_key_id := json_get members "ak" in
      let secret_access_key := json_get members "sk" in
      let region_name := json_get members "region" in
      match missing_fields name access_key_id secret_access_key region_name
      with
      | [] =>
          (fst state
           ++ [{| acct_name := Some (py_str name);
                  ak := py_str access_key_id;
                  sk := py_str secret_access_key;
                  region := py_str region_name |}],
           snd state)
      | missing =>
          (fst state,
           snd state
           ++ [("Account '"
                ++ (if json_truthy name then py_str name
                    else "#" ++ Str.of_nat (idx + 1))
                ++ "' missing fields: " ++ String.concat ", " missing)%string])
      end
  | _ =>
      (fst state,
       snd state
       ++ [("Account entry #" ++ Str.of_nat (idx + 1)
            ++ " must be an object.")%string])
  end.

Definition load_accounts_config {U : Unicode} (config_path : string)
  (file : ConfigFile)
  : Exc (list Account * list string) :=
  match file with
  | NoSuchFile =>
      inr ([],
           [("Config file not found at " ++ config_path
             ++ ". Provide a JSON file with a list of accounts.")%string])
  | Unreadable exc => inl exc
  | InvalidJson msg =>
      inr ([], [("Invalid JSON in " ++ config_path ++ ": " ++ msg)%string])
  | Loaded (JArr data) => inr (fold_left load_entry (enumerate data) ([], []))
  | Loaded _ => inr ([], ["Config must be a JSON array of accounts objects."])
  end.

(** ** The routes with their configuration *)

(** The index route: the configuration is loaded, then the read pipeline
    runs over the accounts it returned; [schedule] gives the order in which
    their futures complete. *)
Definition index_route {U : Unicode} (config_path : string)
  (file : ConfigFile)
  (remote : Remote) (schedule : list Account -> list Account) : M Response :=
  (loaded <- TraceM.lift (load_accounts_config config_path file) ;;
   index (fst loaded) (snd loaded) remote (schedule (fst loaded)))%M.

(** The stop and start routes: the label is read from the form, the
    configuration is loaded, then the request is served. *)
Definition control_route {U : Unicode} (op : Op)
  (form_value : option string)
  (config_path : string) (file : ConfigFile)
  (remote1 : Remote) (schedule1 : list Account -> list Account)
  (cls : Account -> Client)
  (remote2 : Remote) (schedule2 : list Account -> list Account)
  : M Response :=
  (loaded <- TraceM.lift (load_accounts_config config_path file) ;;
   control_lab op
     {| form_lab_name := form_value;
        cfg_accounts := fst loaded;
        config_errors := snd loaded;
        sel_remote := remote1;
        sel_completed := schedule1 (fst loaded);
        clients := cls;
        rec_remote := remote2;
        rec_completed := schedule2 (fst loaded) |})%M.

(** ** Notions used by the properties *)




(** The records of a view, group after group. *)
Definition all_instances (view : View) : list Instance := flat_map snd view.

(** The sizes of the worker pools created along a trace. *)
Definition pool_sizes (t : list event) : list Z :=
  flat_map (fun ev => match ev with PoolCreated n => [n] | _ => [] end) t.

(** The mutating calls issued along a trace. *)
Definition mutating_calls (t : list event)
  : list (Op * Account * list (option string)) :=
  flat_map
    (fun ev => match ev with Mutate op a ids => [(op, a, ids)] | _ => [] end)
    t.

(** The argument lists of the calls of a trace. *)
Definition call_args (t : list event) : list (list (option string)) :=
  map snd (mutating_calls t).

(** What the read pipeline returns, apart from the pool it creates. *)
Definition aggregate {U : Unicode} (remote : Remote)
  (completed : list Account)
  : Exc (View * list string) :=
  match sort_groups (fst (merge_completed remote completed)) with
  | inr sorted => inr (sort_labs sorted, snd (merge_completed remote completed))
  | inl exc => inl exc
  end.

(** The response built from what the read pipeline returned. *)
Definition respond (errors messages : list string)
  (view : View * list string) : Response :=
  {| r_labs_to_instances := fst view;
     r_summary := summarize_labs (fst view);
     r_overall := compute_overall_counts (summarize_labs (fst view));
     r_errors := errors ++ snd view;
     r_messages := messages |}.

(** The instances one account contributes to a round: its listing, or
    nothing when the listing call raises. *)
Definition listing (remote : Remote) (account : Account) : list Instance :=
  match fetch_instances_for_account remote account with
  | inr instances => instances
  | inl _ => []
  end.

(** All instances contributed to a round, in completion order. *)
Definition contributions (remote : Remote) (completed : list Account)
  : list Instance :=
  flat_map (listing remote) completed.

(** The state of the [as_completed] loop after the accounts [completed],
    started from [acc]. *)
Definition merge_from (remote : Remote) (acc : View * list string)
  (completed : list Account) : View * list string :=
  fold_left
    (fun acc account =>
       let '(_, grouped_result, acct_errors) := task remote account in
       (merge_grouped (fst acc) grouped_result, snd acc ++ acct_errors))
    completed acc.

(** One group with its records sorted. *)
Definition sort_group (item : string * list Instance)
  : string * list Instance :=
  (fst item, stable_sort instance_key key_ltb (snd item)).

(** Sorting the group does not raise. *)
Definition group_comparable (item : string * list Instance) : bool :=
  comparable (map instance_key (snd item)).

(** A strict total order given by its boolean "less than". *)
Record StrictTotal {K : Type} (ltb : K -> K -> bool) : Prop := {
  st_irrefl : forall a, ltb a a = false;
  st_trans : forall a b c, ltb a b = true -> ltb b c = true -> ltb a c = true;
  st_total : forall a b, ltb a b = false -> ltb b a = false -> a = b
}.

(** Ascending order of the pair (account name, instance identifier), as
    Python compares the tuples: the account names decide when they differ;
    for equal names the identifiers do, and two absent identifiers are
    equal. *)
Definition instance_le (x y : Instance) : Prop :=
  String.ltb (account x) (account y) = true
  \/ (account x = account y
      /\ match instance_id x, instance_id y with
         | Some a, Some b => String.leb a b = true
         | None, None => True
         | _, _ => False
         end).

(** Ascending order of the lowercased labels. *)
Definition label_le {U : Unicode} (x y : string * list Instance) : Prop :=
  String.leb (Str.lower (fst x)) (Str.lower (fst y)) = true.

(** No two instances of one group have keys whose comparison raises. *)
Definition no_raising_pair (l : list Instance) : Prop :=
  forall i j,
    In i l -> In j l -> lab_name i = lab_name j ->
    ExcM.is_ok (key_lt (instance_key i) (instance_key j)) = true.

(** Labels that differ differ in more than letter case. *)
Definition case_distinct {U : Unicode} (l : list Instance) : Prop :=
  forall i j,
    In i l -> In j l ->
    Str.lower (lab_name i) = Str.lower (lab_name j) ->
    lab_name i = lab_name j.

(** The view part of what the pipeline returns or raises. *)
Definition view_of (r : Exc (View * list string)) : Exc View :=
  match r with
  | inr p => inr (fst p)
  | inl exc => inl exc
  end.

(** The account an entry of the configuration is normalized to, when the
    entry is an object whose four fields are truthy. *)
Definition entry_account {U : Unicode} (entry : json) : option Account :=
  match entry with
  | JObj members =>
      if json_truthy (json_get members "name")
         && json_truthy (json_get members "ak")
         && json_truthy (json_get members "sk")
         && json_truthy (json_get members "region")
      then Some {| acct_name := Some (py_str (json_get members "name"));
                   ak := py_str (json_get members "ak");
                   sk := py_str (json_get members "sk");
                   region := py_str (json_get members "region") |}
      else None
  | _ => None
  end.

(** The accounts of the valid entries, in the order of the entries. *)
Definition valid_accounts {U : Unicode} (data : list json)
  : list Account :=
  flat_map
    (fun entry =>
       match entry_account entry with Some a => [a] | None => [] end)
    data.

Definition entry_valid {U : Unicode} (entry : json) : bool :=
  match entry_account entry with Some _ => true | None => false end.

(** An account descriptor written as an entry of the configuration. *)
Definition account_json (a : Account) : json :=
  JObj [("name", match acct_name a with Some n => JStr n | None => JNull end);
        ("ak", JStr (ak a)); ("sk", JStr (sk a)); ("region", JStr (region a))].

(** A descriptor with its four fields present and not empty. *)
Definition account_complete (a : Account) : Prop :=
  (exists n, acct_name a = Some n /\ n <> "")
  /\ ak a <> "" /\ sk a <> "" /\ region a <> "".

(** ** Sample inputs *)

(** A Unicode database for the samples: that of Latin-1 text (U+0000 to
    U+00FF), on which the versions of the database agree; other text is
    left as it is.  Besides A to Z, the letters U+00C0 to U+00DE except
    U+00D7, which are the bytes C3 80 to C3 9E except C3 97, have a
    lowercase form, 32 further.  The characters U+0080 to U+00A0 and
    U+00AD, the bytes C2 80 to C2 A0 and C2 AD, are not printable, and
    [repr] writes them as a backslash, [x] and two hexadecimal digits. *)
Module Latin1.

Fixpoint lower (s : string) : string :=
  match s with
  | EmptyString => EmptyString
  | String c1 t =>
      match t with
      | String c2 s' =>
          let n2 := nat_of_ascii c2 in
          if (nat_of_ascii c1 =? 195)%nat && (128 <=? n2)%nat
             && (n2 <=? 158)%nat && negb (n2 =? 151)%nat
          then String c1 (String (ascii_of_nat (n2 + 32)) (lower s'))
          else String (Str.lower_char c1) (lower t)
      | EmptyString => String (Str.lower_char c1) EmptyString
      end
  end.

Fixpoint escape_all (quote : ascii) (s : string) : string :=
  match s with
  | EmptyString => EmptyString
  | String c1 t =>
      match t with
      | String c2 s' =>
          let n2 := nat_of_ascii c2 in
          if (nat_of_ascii c1 =? 194)%nat
             && (((128 <=? n2)%nat && (n2 <=? 160)%nat) || (n2 =? 173)%nat)
          then (String Repr.backslash
                  (String "x"%char
                     (String (Repr.hex_digit (n2 / 16))
                        (String (Repr.hex_digit (n2 mod 16)) "")))
                ++ escape_all quote s')%string
          else (Repr.escape quote c1 ++ escape_all quote t)%string
      | EmptyString => Repr.escape quote c1
      end
  end.

Definition repr (s : string) : string :=
  let quote :=
    if Repr.contains Repr.single_quote s
       && negb (Repr.contains Repr.double_quote s)
    then Repr.double_quote else Repr.single_quote in
  String quote (escape_all quote s ++ String quote "")%string.

End Latin1.

#[export] Instance sample_unicode : Unicode :=
  {| unicode_lower := Latin1.lower; unicode_repr := Latin1.repr |}.

(** A record of account [acct] with the given identifier, label and
    state. *)
Definition sample_instance (acct id lab_tag st : string) : Instance :=
  {| account := acct; instance_id := Some id; name := Some "";
     state := Some st; type := None; az := None; public_ip := None;
     private_ip := None; lab := Some lab_tag |}.

(** A view with two groups. *)
Definition sample_view : View :=
  [("blue", [sample_instance "A" "i-1" "blue" "running";
             sample_instance "B" "i-7" "blue" "pending"]);
   ("red", [sample_instance "A" "i-2" "red" "stopped"])].



(** The descriptor of the account named [n]. *)
Definition sample_account (n : string) : Account :=
  {| acct_name := Some n; ak := ("AKIA" ++ n)%string; sk := "secret";
     region := "eu-west-1" |}.

(** 120 distinct identifiers. *)
Definition ids_120 : list (option string) :=
  map (fun k => Some ("i-" ++ Str.of_nat k)%string) (seq 0 120).

(** A client whose calls all succeed. *)
Definition ok_client : Client := fun _ _ => None.

(** A client whose calls all raise. *)
Definition failing_client : Client :=
  fun _ _ => Some (BotoError "RequestLimitExceeded").

(** A raw instance with its identifier, "Name" and "lab" tags and state. *)
Definition raw_instance (id lab_tag st : string) : Ec2 :=
  {| InstanceId := Some id;
     Tags := Present [mkTag (Some "Name") (Some ("host-" ++ id)%string);
                      mkTag (Some "lab") (Some lab_tag)];
     State := Present (Present st);
     InstanceType := Some "t3.micro";
     Placement := Present (Some "eu-west-1a");
     PublicIpAddress := None;
     PrivateIpAddress := Some "10.0.0.1" |}.

(** A paginator that yields one page with one reservation and ends. *)
Definition one_page (l : list Ec2) : Paginated :=
  {| pages := [mkPage (Some [mkReservation (Some l)])]; failure := None |}.

(** Account "A" lists two instances of lab "x"; every other account lists
    one instance of lab "y". *)
Definition sample_remote : Remote :=
  fun a =>
    if (name_or_unknown a =? "A")
    then one_page [raw_instance "i-2" "x" "running";
                   raw_instance "i-1" "x" "stopped"]
    else one_page [raw_instance "i-9" "y" "running"].

(** A control request whose label is made of white space: a space, a
    no-break space (U+00A0) and an ideographic space (U+3000). *)
Definition blank_request : ControlEnv :=
  {| form_lab_name := Some "  　";
     cfg_accounts := [sample_account "A"; sample_account "B"];
     config_errors := [];
     sel_remote := sample_remote;
     sel_completed := [sample_account "B"; sample_account "A"];
     clients := fun _ => ok_client;
     rec_remote := sample_remote;
     rec_completed := [sample_account "B"; sample_account "A"] |}.

(** The view of [sample_remote], whatever the completion order. *)
Definition sample_remote_view : View :=
  Eval vm_compute in
    match aggregate sample_remote [sample_account "B"; sample_account "A"] with
    | inr view => fst view
    | inl _ => []
    end.

(** A stop request for lab "x", submitted after a no-break space (U+00A0)
    and before a space. *)
Definition stop_x_request : ControlEnv :=
  {| form_lab_name := Some " x ";
     cfg_accounts := [sample_account "A"; sample_account "B"];
     config_errors := [];
     sel_remote := sample_remote;
     sel_completed := [sample_account "B"; sample_account "A"];
     clients := fun _ => ok_client;
     rec_remote := sample_remote;
     rec_completed := [sample_account "A"; sample_account "B"] |}.

(** Account "B" cannot be listed; every other account lists two instances
    of lab "x". *)
Definition partly_failing_remote : Remote :=
  fun a =>
    if (name_or_unknown a =? "B")
    then {| pages := []; failure := Some (BotoError "AuthFailure") |}
    else one_page [raw_instance "i-2" "x" "running";
                   raw_instance "i-1" "x" "stopped"].

(** A raw instance without tags. *)
Definition untagged_raw (id st : string) : Ec2 :=
  {| InstanceId := Some id; Tags := Missing; State := Present (Present st);
     InstanceType := None; Placement := Null; PublicIpAddress := None;
     PrivateIpAddress := None |}.

(** The record of an untagged raw instance of account [acct]. *)
Definition untagged_instance (acct id st : string) : Instance :=
  {| account := acct; instance_id := Some id; name := Some "";
     state := Some st; type := None; az := None; public_ip := None;
     private_ip := None; lab := None |}.

(** Every account lists an untagged running instance, an untagged stopped
    one, and a running instance of lab "x". *)
Definition untagged_remote : Remote :=
  fun _ =>
    one_page [untagged_raw "i-7" "running"; untagged_raw "i-8" "stopped";
              raw_instance "i-9" "x" "running"].

(** The view of [untagged_remote] for account "A". *)
Definition untagged_view : View :=
  Eval vm_compute in
    match aggregate untagged_remote [sample_account "A"] with
    | inr view => fst view
    | inl _ => []
    end.

(** Account "A" lists an instance of lab "B"; every other account lists an
    instance of lab "a". *)
Definition mixed_case_remote : Remote :=
  fun a =>
    if (name_or_unknown a =? "A")
    then one_page [raw_instance "i-1" "B" "running"]
    else one_page [raw_instance "i-2" "a" "running"].

(** The view of [mixed_case_remote] for accounts "A" and "C". *)
Definition mixed_case_view : View :=
  Eval vm_compute in
    match
      aggregate mixed_case_remote [sample_account "A"; sample_account "C"]
    with
    | inr view => fst view
    | inl _ => []
    end.

(** Account "A" lists an instance of lab "Lab"; every other account lists
    an instance of lab "lab". *)
Definition case_clash_remote : Remote :=
  fun a =>
    if (name_or_unknown a =? "A")
    then one_page [raw_instance "i-1" "Lab" "running"]
    else one_page [raw_instance "i-2" "lab" "running"].

(** Account "A" lists an instance of lab "é"; every other account lists
    an instance of lab "É". *)
Definition accent_clash_remote : Remote :=
  fun a =>
    if (name_or_unknown a =? "A")
    then one_page [raw_instance "i-1" "é" "running"]
    else one_page [raw_instance "i-2" "É" "running"].

(** Whether an entry is an object. *)
Definition is_object (v : json) : bool :=
  match v with JObj _ => true | _ => false end.

(** A configuration with a valid entry, a number, an entry without keys,
    and the valid entry again. *)
Definition sample_config : list json :=
  [account_json (sample_account "A"); JInt 3; JObj [];
   account_json (sample_account "A")].

(** The raw instances the paginator of an account delivers, page after
    page. *)
Definition raw_instances (remote : Remote) (acct : Account) : list Ec2 :=
  flat_map page_instances (pages (remote acct)).

(** The error an account adds to a round when its listing call raises. *)
Definition listing_error (remote : Remote) (acct : Account) : list string :=
  match fetch_instances_for_account remote acct with
  | inl exc => [(name_or_unknown acct ++ ": " ++ str_exn exc)%string]
  | inr _ => []
  end.

(** The listing call of the account raises. *)
Definition listing_fails (remote : Remote) (acct : Account) : bool :=
  negb (ExcM.is_ok (fetch_instances_for_account remote acct)).

(** A configuration file with the accounts "A" and "B" and an entry that is
    not an object. *)
Definition sample_file : ConfigFile :=
  Loaded (JArr [account_json (sample_account "A"); JBool true;
                account_json (sample_account "B")]).

(** Strictly ascending order of strings. *)
Definition string_lt (a b : string) : Prop := String.ltb a b = true.

(** An instance of account "A" whose "lab" tag is "x" after a no-break
    space (U+00A0). *)
Definition padded_instance : Instance :=
  sample_instance "A" "i-5" " x" "running".

(** The run of the mutating step for one entry of the selection, taken
    alone. *)
Definition mutate_one (op : Op) (cls : Account -> Client)
  (item : Account * list (option string)) : M unit :=
  mutate_instances_for_account op (cls (fst item)) (fst item) (snd item).

(** The error the mutating loop records for one entry of the selection. *)
Definition mutate_error (op : Op) (cls : Account -> Client)
  (item : Account * list (option string)) : list string :=
  match TraceM.result (mutate_one op cls item) with
  | inl exc =>
      [(name_or_unknown (fst item) ++ ": " ++ op_verb op ++ " failed: "
        ++ str_exn exc)%string]
  | inr _ => []
  end.

(** The mutating step of the entry raises. *)
Definition mutate_fails (op : Op) (cls : Account -> Client)
  (item : Account * list (option string)) : bool :=
  negb (ExcM.is_ok (TraceM.result (mutate_one op cls item))).

(** The identifiers a request selects in the listing of an account. *)
Definition selected_ids (op : Op) (remote : Remote) (target : string)
  (acct : Account) : list (option string) :=
  map instance_id (filter (selected op target) (listing remote acct)).

(** What an account adds to the selection: itself with its identifiers,
    when there are any. *)
Definition selection_entry (op : Op) (remote : Remote) (target : string)
  (acct : Account) : list (Account * list (option string)) :=
  let ids := selected_ids op remote target acct in
  match ids with
  | [] => []
  | _ :: _ => [(acct, ids)]
  end.

(** The message shown for an account, when it has identifiers selected. *)
Definition selection_message (op : Op) (remote : Remote) (target : string)
  (acct : Account) : list string :=
  let ids := selected_ids op remote target acct in
  match ids with
  | [] => []
  | _ :: _ =>
      [progress_message op (name_or_unknown acct) (List.length ids) target]
  end.

(** The page shown when there is nothing to show but errors. *)
Definition empty_response (errors : list string) : Response :=
  {| r_labs_to_instances := [];
     r_summary := [];
     r_overall := {| o_total := 0; o_powered_up := 0; o_off := 0 |};
     r_errors := errors;
     r_messages := [] |}.

(** The error of a control request whose label is blank. *)
Definition label_error (form_value : option string) : list string :=
  if (target_lab_of form_value =? "") then ["Lab name is required."] else [].

(** A client that raises on every call of account "A" and answers the
    others. *)
Definition a_failing_clients : Account -> Client :=
  fun a => if (name_or_unknown a =? "A") then failing_client else ok_client.

(** A stop request for lab "y" on listings where no instance of lab "y"
    is running. *)
Definition stop_y_request : ControlEnv :=
  {| form_lab_name := Some "y";
     cfg_accounts := [sample_account "A"; sample_account "B"];
     config_errors := [];
     sel_remote := partly_failing_remote;
     sel_completed := [sample_account "B"; sample_account "A"];
     clients := fun _ => ok_client;
     rec_remote := sample_remote;
     rec_completed := [sample_account "A"; sample_account "B"] |}.

(** What the mutating step raises when a remote call raises [exc]: the two
    botocore classes are wrapped with the operation, the account and the
    region, which needs the account's name; anything else propagates. *)
Definition mutate_raises (op : Op) (acct : Account) (exc : exn) : exn :=
  match exc with
  | BotoError msg =>
      match acct_name acct with
      | Some n =>
          RuntimeError
            (op_api op ++ " failed in " ++ n ++ " (" ++ region acct ++ "): "
             ++ msg)
      | None => KeyError "name"
      end
  | e => e
  end.

(** A client that answers the first two calls and raises on the third. *)
Definition third_call_fails : Client :=
  fun sent _ =>
    if (List.length sent =? 2)%nat then Some (BotoError "Throttled")
    else None.

(** * Properties *)

(** ** Dictionaries *)

Module DictFacts.
Import Dict.


Lemma set_fresh {V} (d : t V) k v :
  ~ In k (keys d) -> set d k v = d ++ [(k, v)].
Proof.
  induction d as [|[k0 v0] d IH]; simpl; intros Hk.
  - reflexivity.
  - destruct (String.eqb_spec k0 k) as [->|Hne].
    + exfalso. apply Hk. now left.
    + rewrite IH; [reflexivity|]. intros Hin. apply Hk. now right.
Qed.

Lemma get_setdefault_extend {A} (d : t (list A)) k xs k' :
  get (setdefault_extend d k xs) k'
  = if (k =? k') then Some (lookup d k ++ xs) else get d k'.
Proof.
  unfold lookup.
  induction d as [|[k0 v0] d IH]; simpl.
  - reflexivity.
  - destruct (String.eqb_spec k0 k) as [->|Hne]; simpl.
    + destruct (k =? k'); reflexivity.
    + rewrite IH.
      destruct (String.eqb_spec k0 k') as [->|Hne']; [|reflexivity].
      destruct (String.eqb_spec k k'); congruence.
Qed.

Lemma lookup_setdefault_extend {A} (d : t (list A)) k xs k' :
  lookup (setdefault_extend d k xs) k'
  = if (k =? k') then lookup d k' ++ xs else lookup d k'.
Proof.
  unfold lookup at 1. rewrite get_setdefault_extend.
  destruct (String.eqb_spec k k') as [->|]; reflexivity.
Qed.

Lemma keys_setdefault_extend {A} (d : t (list A)) k xs :
  keys (setdefault_extend d k xs)
  = if existsb (String.eqb k) (keys d) then keys d else keys d ++ [k].
Proof.
  unfold keys.
  induction d as [|[k0 v0] d IH]; simpl.
  - reflexivity.
  - rewrite (String.eqb_sym k k0).
    destruct (k0 =? k); simpl; [reflexivity|].
    rewrite IH.
    destruct (existsb (String.eqb k) (map fst d)); reflexivity.
Qed.

Lemma existsb_eqb_In k (l : list string) :
  existsb (String.eqb k) l = true <-> In k l.
Proof.
  rewrite existsb_exists. split.
  - intros (x & Hin & Heq). apply String.eqb_eq in Heq. now subst.
  - intros Hin. exists k. split; [assumption|apply String.eqb_refl].
Qed.

Lemma wf_setdefault_extend {A} (d : t (list A)) k xs :
  wf d -> wf (setdefault_extend d k xs).
Proof.
  unfold wf. intros Hd. rewrite keys_setdefault_extend.
  destruct (existsb (String.eqb k) (keys d)) eqn:E; [assumption|].
  apply NoDup_app; [assumption|repeat constructor; simpl; tauto|].
  intros x Hx [<-|[]].
  apply existsb_eqb_In in Hx. congruence.
Qed.

Lemma In_keys_setdefault_extend {A} (d : t (list A)) k xs k' :
  In k' (keys (setdefault_extend d k xs)) <-> k' = k \/ In k' (keys d).
Proof.
  rewrite keys_setdefault_extend.
  destruct (existsb (String.eqb k) (keys d)) eqn:E.
  - apply existsb_eqb_In in E. split; [tauto|]. intros [->|H]; assumption.
  - rewrite in_app_iff. simpl. split; intros H; intuition congruence.
Qed.

Lemma get_None_iff {V} (d : t V) k : get d k = None <-> ~ In k (keys d).
Proof.
  induction d as [|[k0 v0] d IH]; simpl.
  - tauto.
  - destruct (String.eqb_spec k0 k) as [->|Hne].
    + split; [discriminate|]. intros H. exfalso. apply H. now left.
    + rewrite IH. split; intros H; [intros [?|?]; [congruence|tauto]|tauto].
Qed.

Lemma get_In {V} (d : t V) k v : get d k = Some v -> In (k, v) d.
Proof.
  induction d as [|[k0 v0] d IH]; simpl; [discriminate|].
  destruct (String.eqb_spec k0 k) as [->|Hne].
  - intros [= ->]. now left.
  - intros H. right. auto.
Qed.

Lemma In_get {V} (d : t V) k v : wf d -> In (k, v) d -> get d k = Some v.
Proof.
  unfold wf. induction d as [|[k0 v0] d IH]; simpl; [tauto|].
  intros Hnd [Heq|Hin].
  - injection Heq as -> ->. now rewrite String.eqb_refl.
  - inversion Hnd as [|? ? Hn Hnd']; subst.
    destruct (String.eqb_spec k0 k) as [->|Hne]; [|auto].
    exfalso. apply Hn. change k with (fst (k, v)). now apply in_map.
Qed.

Lemma flat_values_setdefault_extend {A} (d : t (list A)) k xs :
  Permutation (flat_map snd (setdefault_extend d k xs))
              (flat_map snd d ++ xs).
Proof.
  induction d as [|[k0 v0] d IH]; simpl.
  - now rewrite app_nil_r.
  - destruct (k0 =? k); simpl.
    + rewrite <- !app_assoc. apply Permutation_app_head.
      apply Permutation_app_comm.
    + rewrite <- app_assoc. now apply Permutation_app_head.
Qed.

End DictFacts.

(** ** transform_instance and the Summarizer *)

Section TransformInstanceAndTheSummarizer.
Context {U : Unicode}.


Lemma count_if_filter {A} (p : A -> bool) (l : list A) :
  count_if p l = Z.of_nat (List.length (filter p l)).
Proof.
  unfold count_if.
  assert (H : forall acc,
             fold_left (fun acc i => if p i then (acc + 1)%Z else acc) l acc
             = (acc + Z.of_nat (List.length (filter p l)))%Z).
  { induction l as [|x l IH]; intros acc; simpl.
    - lia.
    - rewrite IH. destruct (p x); simpl List.length; lia. }
  now rewrite H.
Qed.

Lemma count_if_cons {A} (p : A -> bool) (x : A) (l : list A) :
  count_if p (x :: l) = ((if p x then 1 else 0) + count_if p l)%Z.
Proof.
  rewrite !count_if_filter. simpl.
  destruct (p x); simpl List.length; lia.
Qed.

Lemma count_if_app {A} (p : A -> bool) (l1 l2 : list A) :
  count_if p (l1 ++ l2) = (count_if p l1 + count_if p l2)%Z.
Proof.
  rewrite !count_if_filter, filter_app, length_app. lia.
Qed.

Lemma sum_of_cons {A} (f : A -> Z) (x : A) (l : list A) :
  sum_of f (x :: l) = (f x + sum_of f l)%Z.
Proof.
  unfold sum_of. simpl.
  assert (H : forall acc,
             fold_left (fun acc v => (acc + f v)%Z) l acc
             = (acc + fold_left (fun acc v => (acc + f v)%Z) l 0)%Z).
  { induction l as [|y l IH]; intros acc; simpl.
    - lia.
    - rewrite IH, (IH (f y)). lia. }
  now rewrite H.
Qed.

(** On a dictionary, [summarize_labs] summarizes every group at its own
    position. *)
Lemma summarize_labs_map (view : View) :
  Dict.wf view ->
  summarize_labs view
  = map (fun item => (fst item, summarize_group (snd item))) view.
Proof.
  unfold summarize_labs, Dict.wf.
  set (g := fun item : string * list Instance =>
              (fst item, summarize_group (snd item))).
  assert (H : forall l acc,
             NoDup (Dict.keys acc ++ Dict.keys l) ->
             fold_left
               (fun summary item =>
                  Dict.set summary (fst item) (summarize_group (snd item)))
               l acc
             = acc ++ map g l).
  { induction l as [|[k v] l IH]; intros acc Hnd; simpl.
    - now rewrite app_nil_r.
    - simpl in Hnd.
      rewrite DictFacts.set_fresh.
      + rewrite IH.
        * now rewrite <- app_assoc.
        * unfold Dict.keys in *. rewrite map_app, <- app_assoc. exact Hnd.
      + apply NoDup_remove_2 in Hnd. intros Hin. apply Hnd.
        apply in_or_app. now left. }
  intros Hnd. now rewrite H.
Qed.

Lemma overall_of_map (view : View) :
  let summary := map (fun item : string * list Instance =>
                        (fst item, summarize_group (snd item))) view in
  sum_of total (Dict.values summary)
  = Z.of_nat (List.length (all_instances view))
  /\ sum_of powered_up (Dict.values summary)
     = count_if is_running (all_instances view).
Proof.
  unfold all_instances.
  induction view as [|[k v] view [IH1 IH2]]; simpl.
  - split; reflexivity.
  - rewrite !sum_of_cons. simpl in IH1, IH2. rewrite IH1, IH2. simpl.
    rewrite length_app, count_if_app. split; lia.
Qed.

(** C2. For every Grouped View, the Overall Summary computed from its Group
    Summaries has [total] equal to the sum of the group totals,
    [powered_up] equal to the sum of the group [powered_up] counts, and
    [powered_up + off = total].  The view being a dictionary, every group is
    summarized once, under its own label: so [total] is the number of
    instances of the view, [powered_up] the number of those whose state is
    "running", and [off] the number of all the others, whatever their
    state. *)
Theorem summary_consistency (view : View) :
  let summary := summarize_labs view in
  let overall := compute_overall_counts summary in
  o_total overall = sum_of total (Dict.values summary)
  /\ o_powered_up overall = sum_of powered_up (Dict.values summary)
  /\ (o_powered_up overall + o_off overall = o_total overall)%Z
  /\ (Dict.wf view ->
      Dict.keys summary = Dict.keys view
      /\ (forall k, Dict.get summary k
                    = option_map summarize_group (Dict.get view k))
      /\ o_total overall = Z.of_nat (List.length (all_instances view))
      /\ o_powered_up overall = count_if is_running (all_instances view)
      /\ o_off overall
         = count_if (fun i => negb (is_running i)) (all_instances view)
      /\ (0 <= o_off overall)%Z).
Proof.
  intros summary overall. subst overall. unfold compute_overall_counts.
  cbn [o_total o_powered_up o_off].
  split; [reflexivity|]. split; [reflexivity|]. split; [lia|].
  intros Hwf. subst summary. rewrite (summarize_labs_map view Hwf).
  destruct (overall_of_map view) as [Ht Hp]. cbv zeta in Ht, Hp.
  rewrite Ht, Hp.
  assert (Hoff : (Z.of_nat (List.length (all_instances view))
                  - count_if is_running (all_instances view))%Z
                 = count_if (fun i => negb (is_running i))
                     (all_instances view)).
  { rewrite !count_if_filter.
    pose proof (filter_length is_running (all_instances view)) as H.
    lia. }
  repeat split; try reflexivity.
  - unfold Dict.keys. rewrite map_map. reflexivity.
  - intros k. clear. induction view as [|[k0 v0] view IH]; simpl.
    + reflexivity.
    + destruct (k0 =? k); [reflexivity|exact IH].
  - exact Hoff.
  - rewrite Hoff, count_if_filter. lia.
Qed.

End TransformInstanceAndTheSummarizer.

Lemma summary_consistency_witness :
  Dict.wf sample_view
  /\ compute_overall_counts (summarize_labs sample_view)
     = {| o_total := 3; o_powered_up := 1; o_off := 2 |}
  /\ o_off (compute_overall_counts (summarize_labs sample_view))
     = count_if (fun i => negb (is_running i)) (all_instances sample_view).
Proof.
  assert (Hwf : Dict.wf sample_view).
  { unfold Dict.wf, sample_view. simpl.
    repeat constructor; simpl; intuition discriminate. }
  split; [exact Hwf|]. split; [reflexivity|].
  destruct (summary_consistency sample_view) as (_ & _ & _ & H).
  apply (H Hwf).
Defined.

Section TransformInstanceAndTheSummarizer2.
Context {U : Unicode}.



End TransformInstanceAndTheSummarizer2.



(** ** Batch chunking *)

Section BatchChunking.
Context {U : Unicode}.

Lemma range_step_unfold (n s : nat) :
  0 < s -> 0 < n ->
  range_step n s = 0 :: map (fun i => i + s) (range_step (n - s) s).
Proof.
  intros Hs Hn. unfold range_step.
  assert (E : (n + s - 1) / s = S ((n - s + s - 1) / s)).
  { destruct (Nat.le_gt_cases n s) as [Hle|Hgt].
    - replace (n - s) with 0 by lia. simpl (0 + s - 1).
      rewrite (Nat.div_small (s - 1) s) by lia.
      replace (n + s - 1) with ((n - 1) + 1 * s) by lia.
      rewrite Nat.div_add by lia.
      rewrite (Nat.div_small (n - 1) s) by lia. reflexivity.
    - replace (n + s - 1) with ((n - s + s - 1) + 1 * s) by lia.
      rewrite Nat.div_add by lia. lia. }
  rewrite E. simpl seq. simpl map.
  rewrite <- seq_shift, !map_map. f_equal.
  apply map_ext. intros k. simpl. lia.
Qed.

Lemma slice_shift {A} (l : list A) (i s : nat) :
  slice l (i + s) (i + s + s) = slice (skipn s l) i (i + s).
Proof.
  unfold slice. rewrite skipn_skipn. f_equal; lia.
Qed.

(** The loop cuts off the first [chunk_size] identifiers and goes on with
    the rest. *)
Lemma chunks_unfold (ids : list (option string)) :
  ids <> [] ->
  chunks ids = firstn chunk_size ids :: chunks (skipn chunk_size ids).
Proof.
  intros Hne. unfold chunks.
  rewrite range_step_unfold.
  - cbn [map]. f_equal.
    rewrite map_map, length_skipn.
    apply map_ext. intros i. apply slice_shift.
  - unfold chunk_size. lia.
  - destruct ids; [congruence|simpl; lia].
Qed.

Lemma chunks_nil : chunks [] = [].
Proof. reflexivity. Qed.

(** Induction along the chunks. *)
Lemma chunks_ind (P : list (option string) -> Prop) :
  P [] ->
  (forall ids, ids <> [] -> P (skipn chunk_size ids) -> P ids) ->
  forall ids, P ids.
Proof.
  intros H0 Hstep ids.
  remember (List.length ids) as n eqn:En.
  revert ids En. induction n as [n IH] using lt_wf_ind. intros ids En.
  destruct ids as [|x ids']; [exact H0|].
  apply Hstep; [discriminate|].
  apply (IH (List.length (skipn chunk_size (x :: ids')))); [|reflexivity].
  rewrite length_skipn. subst n. unfold chunk_size. simpl. lia.
Qed.

Lemma concat_chunks (ids : list (option string)) :
  List.concat (chunks ids) = ids.
Proof.
  induction ids as [|ids Hne IH] using chunks_ind.
  - reflexivity.
  - rewrite chunks_unfold by assumption. cbn [List.concat]. rewrite IH.
    apply firstn_skipn.
Qed.

Lemma chunks_bounds (ids : list (option string)) :
  Forall (fun chunk => 1 <= List.length chunk <= chunk_size) (chunks ids).
Proof.
  induction ids as [|ids Hne IH] using chunks_ind.
  - constructor.
  - rewrite chunks_unfold by assumption. constructor; [|exact IH].
    rewrite length_firstn. destruct ids; [congruence|].
    unfold chunk_size. cbn [List.length]. lia.
Qed.

Lemma length_chunks (ids : list (option string)) :
  List.length (chunks ids) = (List.length ids + (chunk_size - 1)) / chunk_size.
Proof.
  unfold chunks, range_step. rewrite !length_map, length_seq.
  f_equal. unfold chunk_size. lia.
Qed.

(** Every chunk but the last is full. *)
Lemma chunks_full (ids : list (option string)) :
  forall front last,
    chunks ids = front ++ [last] ->
    Forall (fun chunk => List.length chunk = chunk_size) front.
Proof.
  induction ids as [|ids Hne IH] using chunks_ind; intros front last E.
  - destruct front; discriminate.
  - rewrite chunks_unfold in E by assumption.
    destruct front as [|c front]; [constructor|].
    rewrite <- app_comm_cons in E.
    pose proof (f_equal (@hd _ []) E) as Ec.
    pose proof (f_equal (@tl _) E) as Erest.
    cbn [hd tl] in Ec, Erest. clear E. subst c.
    constructor; [|exact (IH _ _ Erest)].
    rewrite length_firstn.
    assert (Hlen : List.length (skipn chunk_size ids) <> 0).
    { intros H0. apply length_zero_iff_nil in H0.
      rewrite H0 in Erest. destruct front; discriminate. }
    rewrite length_skipn in Hlen. lia.
Qed.

End BatchChunking.

(** ** Calls issued by the mutating step *)

Section CallsIssuedByTheMutatingStep.
Context {U : Unicode}.

Lemma pool_sizes_app (t1 t2 : list event) :
  pool_sizes (t1 ++ t2) = pool_sizes t1 ++ pool_sizes t2.
Proof. apply flat_map_app. Qed.

(** The chunks a client is sent are the first chunks of the list, at least
    one of them when there is one; all of them are sent, and the call
    returns, when the client answers every call. *)
Lemma send_chunks_trace (op : Op) (client : Client) (account : Account) :
  forall todo sent,
    exists k,
      TraceM.trace (send_chunks op client account sent todo)
      = map (Mutate op account) (firstn k todo)
      /\ (todo <> [] -> 1 <= k).
Proof.
  induction todo as [|chunk rest IH]; intros sent.
  - exists 0. split; [reflexivity|congruence].
  - simpl. destruct (client sent chunk) as [e|] eqn:E.
    + exists 1. split; [|lia].
      destruct e; simpl; try reflexivity.
      unfold TraceM.bind, TraceM.trace. simpl.
      destruct (get_name account); reflexivity.
    + destruct (IH (sent ++ [chunk])) as (k & Hk & _).
      exists (S k). split; [|lia].
      unfold TraceM.trace, TraceM.bind in *. simpl. now rewrite Hk.
Qed.

Lemma send_chunks_ok (op : Op) (client : Client) (account : Account) :
  (forall sent chunk, client sent chunk = None) ->
  forall todo sent,
    send_chunks op client account sent todo
    = (map (Mutate op account) todo, inr tt).
Proof.
  intros Hok. induction todo as [|chunk rest IH]; intros sent.
  - reflexivity.
  - simpl. rewrite Hok, IH. reflexivity.
Qed.

(** The loop stops at the first call that raises. *)
Lemma send_chunks_stop (op : Op) (client : Client) (account : Account)
  (chunk : list (option string)) (rest : list (list (option string)))
  (exc : exn) :
  forall done sent,
    (forall i, i < List.length done ->
               client (sent ++ firstn i done) (nth i done []) = None) ->
    client (sent ++ done) chunk = Some exc ->
    TraceM.trace (send_chunks op client account sent (done ++ chunk :: rest))
    = map (Mutate op account) (done ++ [chunk])
    /\ ExcM.is_ok
         (TraceM.result
            (send_chunks op client account sent (done ++ chunk :: rest)))
       = false.
Proof.
  induction done as [|d done IH]; intros sent Hdone Hfail.
  - rewrite app_nil_r in Hfail. cbn [app send_chunks]. rewrite Hfail.
    unfold TraceM.trace, TraceM.result, TraceM.bind.
    destruct exc; cbn; try (split; reflexivity).
    destruct (get_name account); split; reflexivity.
  - pose proof (Hdone 0 (Nat.lt_0_succ _)) as H0.
    cbn [firstn nth] in H0. rewrite app_nil_r in H0.
    cbn [app send_chunks]. rewrite H0.
    destruct (IH (sent ++ [d])) as [Ht Hr].
    + intros i Hi. rewrite <- app_assoc. cbn [app].
      apply (Hdone (S i)). cbn [List.length]. lia.
    + rewrite <- app_assoc. exact Hfail.
    + unfold TraceM.trace, TraceM.result, TraceM.bind in *. cbn [fst snd].
      cbn [TraceM.emit fst snd app map]. rewrite Ht. split; [reflexivity|].
      exact Hr.
Qed.

Lemma mutating_calls_map (op : Op) (account : Account)
  (l : list (list (option string))) :
  mutating_calls (map (Mutate op account) l)
  = map (fun chunk => (op, account, chunk)) l.
Proof.
  unfold mutating_calls. induction l as [|c l IH]; simpl; congruence.
Qed.

Lemma call_args_map (op : Op) (account : Account)
  (l : list (list (option string))) :
  call_args (map (Mutate op account) l) = l.
Proof.
  unfold call_args. rewrite mutating_calls_map, map_map. simpl.
  apply map_id.
Qed.

Lemma chunks_120 (ids : list (option string)) :
  List.length ids = 120 ->
  map (@List.length (option string)) (chunks ids) = [50; 50; 20].
Proof.
  intros Hlen.
  assert (Hskip : forall l : list (option string),
             List.length l <> 0 -> l <> []).
  { intros l H ->. now apply H. }
  rewrite chunks_unfold by (apply Hskip; lia).
  set (r1 := skipn chunk_size ids).
  assert (H1 : List.length r1 = 70).
  { subst r1. rewrite length_skipn. unfold chunk_size. lia. }
  rewrite (chunks_unfold r1) by (apply Hskip; lia).
  set (r2 := skipn chunk_size r1).
  assert (H2 : List.length r2 = 20).
  { subst r2. rewrite length_skipn. unfold chunk_size. lia. }
  rewrite (chunks_unfold r2) by (apply Hskip; lia).
  assert (H3 : skipn chunk_size r2 = []).
  { apply length_zero_iff_nil. rewrite length_skipn. unfold chunk_size. lia. }
  rewrite H3, chunks_nil. cbn [map].
  rewrite !length_firstn, Hlen, H1, H2. reflexivity.
Qed.

(** C4.  For a non-empty list of identifiers, the remote calls issued for
    one account are the first [k >= 1] of the consecutive chunks of at most
    50 identifiers: the loop stops at the first call that raises, and then
    raises itself.  When every call succeeds, all [ceil(n/50)] chunks are sent, in
    the original order: their concatenation is the input list, all but the
    last hold exactly 50 identifiers, and for 120 identifiers the calls have
    sizes 50, 50, 20. *)
Theorem batch_chunking (op : Op) (client : Client) (account : Account)
  (instance_ids : list (option string)) :
  instance_ids <> [] ->
  let run := mutate_instances_for_account op client account instance_ids in
  let calls := call_args (TraceM.trace run) in
  (exists k, 1 <= k /\ calls = firstn k (chunks instance_ids))
  /\ (forall done chunk rest exc,
         chunks instance_ids = done ++ chunk :: rest ->
         (forall i, i < List.length done ->
                    client (firstn i done) (nth i done []) = None) ->
         client done chunk = Some exc ->
         calls = done ++ [chunk]
         /\ ExcM.is_ok (TraceM.result run) = false)
  /\ ((forall sent chunk, client sent chunk = None) ->
      TraceM.result run = inr tt
      /\ mutating_calls (TraceM.trace run)
         = map (fun chunk => (op, account, chunk)) (chunks instance_ids)
      /\ List.concat calls = instance_ids
      /\ Forall (fun chunk => 1 <= List.length chunk <= 50) calls
      /\ List.length calls = (List.length instance_ids + 49) / 50
      /\ (forall front last,
             calls = front ++ [last] ->
             Forall (fun chunk => List.length chunk = 50) front)
      /\ (List.length instance_ids = 120 ->
          map (@List.length (option string)) calls = [50; 50; 20])).
Proof.
  intros Hne run calls.
  assert (Erun : run = send_chunks op client account [] (chunks instance_ids)).
  { subst run. unfold mutate_instances_for_account.
    destruct instance_ids; [congruence|reflexivity]. }
  split.
  - destruct (send_chunks_trace op client account (chunks instance_ids) [])
      as (k & Hk & Hpos).
    exists k. split.
    + apply Hpos. rewrite chunks_unfold by assumption. discriminate.
    + subst calls. rewrite Erun, Hk. apply call_args_map.
  - split.
    { intros done chunk rest exc Hsplit Hdone Hfail.
      destruct (send_chunks_stop op client account chunk rest exc done []
                  Hdone Hfail) as [Ht Hr].
      subst calls. rewrite Erun, Hsplit, Ht. split; [|exact Hr].
      apply call_args_map. }
    intros Hok.
    assert (Ecalls : calls = chunks instance_ids).
    { subst calls. rewrite Erun, (send_chunks_ok op client account Hok).
      apply call_args_map. }
    rewrite Ecalls.
    split; [now rewrite Erun, (send_chunks_ok op client account Hok)|].
    split.
    { rewrite Erun, (send_chunks_ok op client account Hok).
      apply mutating_calls_map. }
    split; [apply concat_chunks|].
    split; [apply chunks_bounds|].
    split; [apply length_chunks|].
    split; [apply chunks_full|].
    apply chunks_120.
Qed.

End CallsIssuedByTheMutatingStep.

Lemma batch_chunking_witness :
  map (@List.length (option string))
    (call_args
       (TraceM.trace
          (stop_instances_for_account ok_client (sample_account "A")
             ids_120)))
  = [50; 50; 20].
Proof.
  assert (Hne : ids_120 <> []) by discriminate.
  destruct (batch_chunking Stop ok_client (sample_account "A") ids_120 Hne)
    as (_ & _ & H).
  apply H; reflexivity.
Defined.

(** Without the proviso that the calls succeed, the count fails: when the
    first call raises, one call is issued for 120 identifiers, not three,
    and the identifiers of the other chunks are never sent. *)
Lemma batch_chunking_counterexample :
  ids_120 <> []
  /\ List.length ids_120 = 120
  /\ call_args
       (TraceM.trace
          (stop_instances_for_account failing_client (sample_account "A")
             ids_120))
     = [firstn 50 ids_120]
  /\ TraceM.result
       (stop_instances_for_account failing_client (sample_account "A")
          ids_120)
     = inl (RuntimeError
              "stop_instances failed in A (eu-west-1): RequestLimitExceeded").
Proof.
  split; [discriminate|]. split; [reflexivity|]. split; reflexivity.
Qed.

(** ** Shape of the fan-out rounds *)

Section ShapeOfTheFanOutRounds.
Context {U : Unicode}.

Lemma fetch_all_eq (remote : Remote) (accounts completed : list Account) :
  fetch_all_accounts_grouped_by_lab remote accounts completed
  = ([PoolCreated (max_workers accounts)], aggregate remote completed).
Proof.
  unfold fetch_all_accounts_grouped_by_lab, aggregate.
  destruct (merge_completed remote completed) as [labs errors]. simpl.
  unfold TraceM.bind. simpl.
  destruct (sort_groups labs); reflexivity.
Qed.

Lemma index_eq (accounts : list Account) (cfg_errors : list string)
  (remote : Remote) (completed : list Account) :
  index accounts cfg_errors remote completed
  = ([PoolCreated (max_workers accounts)],
     match aggregate remote completed with
     | inr view => inr (respond cfg_errors [] view)
     | inl exc => inl exc
     end).
Proof.
  unfold index. rewrite fetch_all_eq. unfold TraceM.bind. simpl.
  destruct (aggregate remote completed); reflexivity.
Qed.

Lemma In_firstn_In {A} (k : nat) (l : list A) (x : A) :
  In x (firstn k l) -> In x l.
Proof.
  intros H. rewrite <- (firstn_skipn k l). apply in_or_app. now left.
Qed.

(** The chunks sent for one account hold identifiers of its selection. *)
Lemma mutate_instances_events (op : Op) (client : Client) (account : Account)
  (instance_ids : list (option string)) (ev : event) :
  In ev (TraceM.trace (mutate_instances_for_account op client account
                         instance_ids)) ->
  exists chunk,
    ev = Mutate op account chunk /\ incl chunk instance_ids.
Proof.
  unfold mutate_instances_for_account.
  destruct instance_ids as [|x ids] eqn:E; [intros []|]. rewrite <- E.
  destruct (send_chunks_trace op client account (chunks instance_ids) [])
    as (k & Hk & _).
  rewrite Hk. intros Hin. apply in_map_iff in Hin.
  destruct Hin as (chunk & <- & Hchunk).
  exists chunk. split; [reflexivity|].
  intros y Hy. rewrite <- (concat_chunks instance_ids).
  apply in_concat. exists chunk. split; [|assumption].
  eapply In_firstn_In; eassumption.
Qed.

(** The mutating loop always returns: a failure of one account becomes an
    error string.  It creates no pool, and what it sends to an account are
    identifiers selected for that account. *)
Lemma mutate_selected_spec (op : Op) (cls : Account -> Client) :
  forall selection errors,
    exists more,
      TraceM.result (mutate_selected op cls selection errors)
      = inr (errors ++ more)
      /\ pool_sizes (TraceM.trace (mutate_selected op cls selection errors))
         = []
      /\ (forall ev,
             In ev (TraceM.trace (mutate_selected op cls selection errors)) ->
             exists acct ids chunk,
               ev = Mutate op acct chunk
               /\ In (acct, ids) selection /\ incl chunk ids)
      /\ (selection = [] ->
          more = []
          /\ TraceM.trace (mutate_selected op cls selection errors) = []).
Proof.
  induction selection as [|[acct ids] rest IH]; intros errors.
  - exists []. simpl. rewrite app_nil_r. repeat split; tauto.
  - set (one := mutate_instances_for_account op (cls acct) acct ids).
    assert (Hev : forall ev, In ev (fst one) ->
                    exists chunk, ev = Mutate op acct chunk /\ incl chunk ids).
    { intros ev. apply mutate_instances_events. }
    assert (Hpool : pool_sizes (fst one) = []).
    { clear -Hev. induction (fst one) as [|ev t IHt]; [reflexivity|].
      destruct (Hev ev (or_introl eq_refl)) as (chunk & -> & _).
      simpl. apply IHt. intros ev' Hin. apply Hev. now right. }
    assert (Hstep :
              exists first,
                TraceM.try_except
                  (TraceM.bind one (fun _ => TraceM.ret errors))
                  (fun exc =>
                     TraceM.ret
                       (errors
                        ++ [(name_or_unknown acct ++ ": " ++ op_verb op
                             ++ " failed: " ++ str_exn exc)%string]))
                = (fst one, inr (errors ++ first))).
    { unfold TraceM.try_except, TraceM.bind, TraceM.ret.
      destruct one as [t [exc|[]]]; simpl.
      - eexists. rewrite app_nil_r. reflexivity.
      - exists []. now rewrite !app_nil_r. }
    destruct Hstep as (first & Hstep).
    destruct (IH (errors ++ first)) as (more & Hres & Hp & Hevs & _).
    exists (first ++ more).
    assert (Hwhole :
              mutate_selected op cls ((acct, ids) :: rest) errors
              = (fst one ++ fst (mutate_selected op cls rest (errors ++ first)),
                 snd (mutate_selected op cls rest (errors ++ first)))).
    { cbn [mutate_selected]. fold one. rewrite Hstep.
      unfold TraceM.bind. reflexivity. }
    rewrite Hwhole. unfold TraceM.result, TraceM.trace in *.
    cbn [fst snd]. rewrite Hres, app_assoc.
    split; [reflexivity|]. split; [|split].
    + now rewrite pool_sizes_app, Hpool, Hp.
    + intros ev Hin. apply in_app_or in Hin. destruct Hin as [Hin|Hin].
      * destruct (Hev ev Hin) as (chunk & -> & Hincl).
        exists acct, ids, chunk. repeat split; [now left|assumption].
      * destruct (Hevs ev Hin) as (a & i & c & -> & Hsel & Hincl).
        exists a, i, c. repeat split; [now right|assumption].
    + discriminate.
Qed.

(** The two branches of a control request. *)
Lemma control_lab_empty (op : Op) (env : ControlEnv) :
  target_lab_of (form_lab_name env) = "" ->
  control_lab op env
  = ([PoolCreated (max_workers (cfg_accounts env))],
     match aggregate (rec_remote env) (rec_completed env) with
     | inr view =>
         inr (respond (["Lab name is required."] ++ config_errors env) []
                view)
     | inl exc => inl exc
     end).
Proof.
  intros Ht. unfold control_lab. rewrite Ht. simpl.
  rewrite fetch_all_eq. unfold TraceM.bind. simpl.
  destruct (aggregate (rec_remote env) (rec_completed env)) as [exc|view];
    [reflexivity|].
  unfold respond. simpl. reflexivity.
Qed.

Lemma control_lab_nonempty (op : Op) (env : ControlEnv) :
  target_lab_of (form_lab_name env) <> "" ->
  let sel := collect_completed op (sel_remote env)
               (target_lab_of (form_lab_name env)) (sel_completed env) in
  let mut := mutate_selected op (clients env) (per_account_ids sel)
               (sel_errors sel) in
  exists more,
    TraceM.result mut = inr (sel_errors sel ++ more)
    /\ control_lab op env
       = (PoolCreated (max_workers (cfg_accounts env))
          :: TraceM.trace mut
          ++ [PoolCreated (max_workers (cfg_accounts env))],
          match aggregate (rec_remote env) (rec_completed env) with
          | inr view =>
              inr (respond ((sel_errors sel ++ more) ++ config_errors env)
                     (sel_messages sel) view)
          | inl exc => inl exc
          end).
Proof.
  intros Ht sel mut.
  destruct (mutate_selected_spec op (clients env) (per_account_ids sel)
              (sel_errors sel)) as (more & Hres & _).
  exists more. split; [exact Hres|].
  unfold control_lab.
  destruct (String.eqb_spec (target_lab_of (form_lab_name env)) "")
    as [E|_]; [contradiction|].
  fold sel. fold mut. rewrite fetch_all_eq.
  unfold TraceM.result, TraceM.trace in *.
  fold mut in Hres. clearbody mut.
  destruct mut as [t r]. simpl in Hres. subst r.
  unfold TraceM.bind, TraceM.emit, TraceM.ret. simpl.
  rewrite !app_nil_r.
  destruct (aggregate (rec_remote env) (rec_completed env)) as [exc|view];
    simpl.
  - reflexivity.
  - unfold respond. now rewrite <- !app_assoc.
Qed.

(** C9. For a configured account list of length [N], every fan-out round
    creates its pool with [max_workers = min(8, max(1, N))], a value
    between 1 and 8: the one round of the read pipeline and of the index
    request, and the rounds of a control request, which are the recompute
    round alone when the label is empty and the selection round followed by
    the recompute round otherwise. *)
Theorem pool_size (accounts : list Account) :
  let N := Z.of_nat (List.length accounts) in
  let w := Z.min 8 (Z.max 1 N) in
  (1 <= w <= 8)%Z
  /\ w = (if (N =? 0)%Z then 1 else if (N <=? 8)%Z then N else 8)%Z
  /\ (forall remote completed,
         pool_sizes
           (TraceM.trace
              (fetch_all_accounts_grouped_by_lab remote accounts completed))
         = [w])
  /\ (forall cfg_errors remote completed,
         pool_sizes
           (TraceM.trace (index accounts cfg_errors remote completed))
         = [w])
  /\ (forall op form cfg_errors remote1 completed1 cls remote2 completed2,
         pool_sizes
           (TraceM.trace
              (control_lab op
                 (mkControlEnv form accounts cfg_errors remote1 completed1
                    cls remote2 completed2)))
         = if (target_lab_of form =? "") then [w] else [w; w]).
Proof.
  intros N w.
  assert (Hw : max_workers accounts = w) by reflexivity.
  split; [lia|]. split.
  { destruct (Z.eqb_spec N 0) as [E|E]; [lia|].
    destruct (Z.leb_spec N 8); lia. }
  split; [|split].
  - intros remote completed. rewrite fetch_all_eq. simpl. now rewrite Hw.
  - intros cfg_errors remote completed. rewrite index_eq. simpl.
    now rewrite Hw.
  - intros op form cfg_errors remote1 completed1 cls remote2 completed2.
    set (env := mkControlEnv form accounts cfg_errors remote1 completed1
                  cls remote2 completed2).
    change form with (form_lab_name env).
    destruct (String.eqb_spec (target_lab_of (form_lab_name env)) "")
      as [E|E].
    + rewrite (control_lab_empty op env E). simpl. now rewrite Hw.
    + destruct (control_lab_nonempty op env E) as (more & _ & ->).
      destruct (mutate_selected_spec op (clients env)
                  (per_account_ids
                     (collect_completed op (sel_remote env)
                        (target_lab_of (form_lab_name env))
                        (sel_completed env)))
                  (sel_errors
                     (collect_completed op (sel_remote env)
                        (target_lab_of (form_lab_name env))
                        (sel_completed env))))
        as (more' & _ & Hp & _).
      unfold TraceM.trace in *. cbn [fst].
      change (PoolCreated ?n :: ?t ++ ?u) with ([PoolCreated n] ++ t ++ u).
      rewrite !pool_sizes_app, Hp. simpl. now rewrite Hw.
Qed.

End ShapeOfTheFanOutRounds.

(** ** The empty-label short circuit *)

Section TheEmptyLabelShortCircuit.
Context {U : Unicode}.

Section DropSpaces.
Variable p1 : ascii -> bool.
Variable p2 : ascii -> ascii -> bool.
Variable p3 : ascii -> ascii -> ascii -> bool.

Local Abbreviation drop := (Str.drop_spaces p1 p2 p3).
Local Abbreviation starts := (Str.starts_space p1 p2 p3).

(** Bytes made of white space only are dropped altogether. *)
Lemma drop_only_spaces (n : nat) :
  forall l, List.length l <= n ->
            Str.only_spaces p1 p2 p3 l = true -> drop l = [].
Proof.
  induction n as [|n IH]; intros l Hlen.
  - destruct l; [reflexivity|simpl in Hlen; lia].
  - destruct l as [|c1 l1]; [reflexivity|].
    cbn [List.length] in Hlen. cbn [Str.only_spaces Str.drop_spaces].
    destruct (p1 c1); [apply IH; lia|].
    destruct l1 as [|c2 l2]; [discriminate|]. cbn [List.length] in Hlen.
    destruct (p2 c1 c2); [apply IH; lia|].
    destruct l2 as [|c3 l3]; [discriminate|]. cbn [List.length] in Hlen.
    destruct (p3 c1 c2 c3); [apply IH; lia|discriminate].
Qed.

(** Nothing is dropped from bytes that do not begin with white space. *)
Lemma drop_fixed (l : list ascii) : starts l = false -> drop l = l.
Proof.
  destruct l as [|c1 [|c2 [|c3 l3]]];
    cbn [Str.starts_space Str.drop_spaces]; try reflexivity.
  - destruct (p1 c1); [discriminate|reflexivity].
  - destruct (p1 c1); [discriminate|].
    destruct (p2 c1 c2); [discriminate|reflexivity].
  - destruct (p1 c1); [discriminate|].
    destruct (p2 c1 c2); [discriminate|].
    destruct (p3 c1 c2 c3); [discriminate|reflexivity].
Qed.

(** What is left does not begin with white space, and is the end of the
    bytes. *)
Lemma drop_spec (n : nat) :
  forall l, List.length l <= n ->
            starts (drop l) = false /\ exists w, l = w ++ drop l.
Proof.
  induction n as [|n IH]; intros l Hlen.
  - destruct l; [|simpl in Hlen; lia]. split; [reflexivity|now exists []].
  - assert (Hrec : forall front rest,
               l = front ++ rest -> front <> [] ->
               starts (drop rest) = false
               /\ exists w, l = w ++ drop rest).
    { intros front rest -> Hne.
      destruct (IH rest) as [Hs (w & Hw)].
      - rewrite length_app in Hlen. destruct front; [congruence|].
        cbn [List.length] in Hlen. lia.
      - split; [exact Hs|]. exists (front ++ w).
        now rewrite <- app_assoc, <- Hw. }
    destruct l as [|c1 l1]; [split; [reflexivity|now exists []]|].
    cbn [Str.drop_spaces].
    destruct (p1 c1) eqn:E1;
      [apply (Hrec [c1] l1); [reflexivity|discriminate]|].
    destruct l1 as [|c2 l2];
      [split; [cbn; now rewrite E1|now exists []]|].
    destruct (p2 c1 c2) eqn:E2;
      [apply (Hrec [c1; c2] l2); [reflexivity|discriminate]|].
    destruct l2 as [|c3 l3];
      [split; [cbn; now rewrite E1, E2|now exists []]|].
    destruct (p3 c1 c2 c3) eqn:E3;
      [apply (Hrec [c1; c2; c3] l3); [reflexivity|discriminate]|].
    split; [cbn; now rewrite E1, E2, E3|now exists []].
Qed.

Lemma drop_idem (l : list ascii) : drop (drop l) = drop l.
Proof.
  apply drop_fixed. now destruct (drop_spec (List.length l) l (le_n _)).
Qed.

(** A beginning of bytes that do not begin with white space does not
    either. *)
Lemma starts_space_prefix (u w : list ascii) :
  starts (u ++ w) = false -> starts u = false.
Proof.
  destruct u as [|c1 [|c2 [|c3 u]]]; cbn [Str.starts_space app].
  - reflexivity.
  - intros H. apply orb_false_elim in H. destruct H as [-> _]. reflexivity.
  - intros H. apply orb_false_elim in H. destruct H as [-> H].
    apply orb_false_elim in H. destruct H as [-> _]. reflexivity.
  - tauto.
Qed.

End DropSpaces.

Lemma strip_all_space (s : string) :
  Str.all_space s = true -> Str.strip s = "".
Proof.
  unfold Str.all_space, Str.strip, Str.lstrip_bytes. intros H.
  now rewrite (drop_only_spaces _ _ _ _ _ (le_n _) H).
Qed.

(** C5. A control request whose submitted label is missing, empty or made
    of white space only, ASCII or not, issues no mutating call, and its response carries
    the view, group summary and overall summary recomputed by the read
    pipeline; its errors are "Lab name is required." followed by the
    configuration errors and the errors of the recompute round, so exactly
    that one string when those two lists are empty. *)
Theorem empty_label_short_circuit (op : Op) (env : ControlEnv)
  (view : View) (fetch_errors : list string) :
  Str.all_space (Str.or_else (form_lab_name env) "") = true ->
  TraceM.result
    (fetch_all_accounts_grouped_by_lab (rec_remote env) (cfg_accounts env)
       (rec_completed env))
  = inr (view, fetch_errors) ->
  TraceM.result (control_lab op env)
  = inr {| r_labs_to_instances := view;
           r_summary := summarize_labs view;
           r_overall := compute_overall_counts (summarize_labs view);
           r_errors :=
             "Lab name is required." :: config_errors env ++ fetch_errors;
           r_messages := [] |}
  /\ mutating_calls (TraceM.trace (control_lab op env)) = []
  /\ (config_errors env = [] -> fetch_errors = [] ->
      exists response,
        TraceM.result (control_lab op env) = inr response
        /\ r_errors response = ["Lab name is required."]
        /\ r_labs_to_instances response = view
        /\ r_summary response = summarize_labs view
        /\ r_overall response
           = compute_overall_counts (summarize_labs view)).
Proof.
  intros Hspace Hfetch.
  assert (Ht : target_lab_of (form_lab_name env) = "").
  { unfold target_lab_of. now apply strip_all_space. }
  rewrite fetch_all_eq in Hfetch. unfold TraceM.result in *. simpl in Hfetch.
  rewrite (control_lab_empty op env Ht). cbn [fst snd]. rewrite Hfetch.
  unfold respond. simpl.
  split; [reflexivity|]. split; [reflexivity|].
  intros Hc Hf. eexists. split; [reflexivity|]. simpl.
  rewrite Hc, Hf. repeat split.
Qed.

End TheEmptyLabelShortCircuit.

Lemma empty_label_short_circuit_witness :
  TraceM.result (stop_lab blank_request)
  = inr {| r_labs_to_instances := sample_remote_view;
           r_summary := summarize_labs sample_remote_view;
           r_overall :=
             compute_overall_counts (summarize_labs sample_remote_view);
           r_errors := ["Lab name is required."];
           r_messages := [] |}
  /\ Dict.keys sample_remote_view = ["x"; "y"]
  /\ mutating_calls (TraceM.trace (stop_lab blank_request)) = [].
Proof.
  destruct (empty_label_short_circuit Stop blank_request sample_remote_view
              [] eq_refl eq_refl) as (Hres & Hcalls & _).
  split; [exact Hres|]. split; [reflexivity|exact Hcalls].
Defined.

(** ** Listings, grouping and selection *)

Section ListingsGroupingAndSelection.
Context {U : Unicode}.

Lemma mapM_pure {A B} (f : A -> Exc B) (g : A -> B) (l : list A) :
  (forall x, f x = inr (g x)) -> ExcM.mapM f l = inr (map g l).
Proof.
  intros Hf. induction l as [|x l IH]; simpl; [reflexivity|].
  now rewrite Hf, IH.
Qed.

Lemma mapM_ext {A B} (f g : A -> Exc B) (l : list A) :
  (forall x, f x = g x) -> ExcM.mapM f l = ExcM.mapM g l.
Proof.
  intros Hf. induction l as [|x l IH]; simpl; [reflexivity|].
  now rewrite Hf, IH.
Qed.

(** What [mapM] returns holds the results, element for element. *)
Lemma mapM_Forall2 {A B} (f : A -> Exc B) (l : list A) :
  forall l', ExcM.mapM f l = inr l' -> Forall2 (fun x y => f x = inr y) l l'.
Proof.
  induction l as [|x l IH]; simpl; intros l'.
  - intros [= <-]. constructor.
  - destruct (f x) as [e|y] eqn:Hx; simpl; [discriminate|].
    destruct (ExcM.mapM f l) as [e|ys]; simpl; [discriminate|].
    intros [= <-]. constructor; [exact Hx|now apply IH].
Qed.

Lemma mapM_In {A B} (f : A -> Exc B) (l : list A) (l' : list B) (y : B) :
  ExcM.mapM f l = inr l' -> In y l' -> exists x, In x l /\ f x = inr y.
Proof.
  intros H. apply mapM_Forall2 in H.
  induction H as [|x y' l l' Hxy _ IH]; intros Hin; [destruct Hin|].
  destruct Hin as [<-|Hin].
  - exists x. split; [now left|exact Hxy].
  - destruct (IH Hin) as (x' & Hx' & Hf). exists x'. split; [now right|exact Hf].
Qed.

Lemma mapM_all_ok {A B} (f : A -> Exc B) (l : list A) :
  Forall (fun x => ExcM.is_ok (f x) = true) l ->
  exists l', ExcM.mapM f l = inr l'.
Proof.
  induction 1 as [|x l Hx _ (l' & IH)]; simpl; [now exists []|].
  destruct (f x) as [e|y]; [discriminate|]. simpl. rewrite IH. simpl. eauto.
Qed.

(** The record of a raw instance carries the account name it was given and
    the identifier of the raw instance. *)
Lemma transform_instance_ok (n : string) (ec2 : Ec2) (i : Instance) :
  transform_instance n ec2 = inr i ->
  account i = n /\ instance_id i = InstanceId ec2 /\ Tags ec2 <> Null.
Proof.
  unfold transform_instance. destruct (Tags ec2); simpl; try discriminate;
    intros [= <-]; repeat split; discriminate.
Qed.

Lemma transform_instance_returns (n : string) (ec2 : Ec2) :
  Tags ec2 <> Null -> ExcM.is_ok (transform_instance n ec2) = true.
Proof.
  unfold transform_instance. destruct (Tags ec2); simpl; congruence.
Qed.

Lemma fetch_named (remote : Remote) (account : Account) (n : string) :
  acct_name account = Some n ->
  fetch_instances_for_account remote account
  = (instances <-
       ExcM.mapM (transform_instance n)
         (flat_map page_instances (pages (remote account))) ;;
     match failure (remote account) with
     | None => inr instances
     | Some (BotoError msg) =>
         inl (RuntimeError
                ("Error fetching EC2 instances in " ++ n ++ " ("
                 ++ region account ++ "): " ++ msg))
     | Some e => inl e
     end)%exc.
Proof.
  intros Hn. unfold fetch_instances_for_account, get_name. rewrite Hn.
  rewrite (mapM_ext _ (transform_instance n)) by reflexivity.
  destruct (ExcM.mapM (transform_instance n)
              (flat_map page_instances (pages (remote account))));
    simpl; [reflexivity|].
  destruct (failure (remote account)) as [[]|]; reflexivity.
Qed.

(** A descriptor without a name cannot list any instance: the first one
    raises [KeyError] at [account["name"]]. *)
Lemma fetch_nameless (remote : Remote) (account : Account)
  (instances : list Instance) :
  acct_name account = None ->
  fetch_instances_for_account remote account = inr instances ->
  instances = [].
Proof.
  intros Hn. unfold fetch_instances_for_account, get_name. rewrite Hn.
  destruct (flat_map page_instances (pages (remote account))) as [|x raw];
    simpl; [|discriminate].
  destruct (failure (remote account)) as [[]|]; try discriminate.
  now intros [= <-].
Qed.

Lemma listing_account (remote : Remote) (a : Account) (i : Instance) :
  In i (listing remote a) -> acct_name a = Some (account i).
Proof.
  unfold listing. destruct (acct_name a) as [n|] eqn:Hn.
  - rewrite (fetch_named remote a n Hn).
    destruct (ExcM.mapM (transform_instance n)
                (flat_map page_instances (pages (remote a))))
      as [e|l] eqn:E; simpl; [intros []|].
    destruct (failure (remote a)) as [[]|]; try intros [].
    intros Hin. destruct (mapM_In _ _ _ _ E Hin) as (x & _ & Hx).
    apply transform_instance_ok in Hx. destruct Hx as [-> _]. reflexivity.
  - destruct (fetch_instances_for_account remote a) as [e|l] eqn:E;
      [intros []|].
    rewrite (fetch_nameless remote a l Hn E). intros [].
Qed.

Lemma task_grouped (remote : Remote) (a : Account) :
  snd (fst (task remote a)) = group_by_lab (listing remote a).
Proof.
  unfold task, listing.
  destruct (fetch_instances_for_account remote a) as [e|l] eqn:E; simpl;
    [reflexivity|].
  unfold get_name. destruct (acct_name a) as [n|] eqn:Hn; simpl.
  - reflexivity.
  - now rewrite (fetch_nameless remote a l Hn E).
Qed.

Lemma collect_task_ids (op : Op) (remote : Remote) (target : string)
  (a : Account) :
  snd (fst (collect_task op remote target a))
  = map instance_id (filter (selected op target) (listing remote a)).
Proof.
  unfold collect_task, listing.
  destruct (fetch_instances_for_account remote a) as [e|l] eqn:E; simpl;
    [reflexivity|].
  unfold get_name. destruct (acct_name a) as [n|] eqn:Hn; simpl.
  - reflexivity.
  - now rewrite (fetch_nameless remote a l Hn E).
Qed.

Lemma lookup_fold_group (k : string) (l : list Instance) :
  forall acc : View,
    Dict.lookup
      (fold_left
         (fun grouped instance =>
            Dict.setdefault_extend grouped (lab_name instance) [instance])
         l acc) k
    = Dict.lookup acc k ++ filter (fun i => lab_name i =? k) l.
Proof.
  induction l as [|i l IH]; intros acc; simpl.
  - now rewrite app_nil_r.
  - rewrite IH, DictFacts.lookup_setdefault_extend.
    destruct (lab_name i =? k); [now rewrite <- app_assoc|reflexivity].
Qed.

(** The group stored under a label holds the instances normalized to that
    label, in listing order. *)
Lemma lookup_group_by_lab (k : string) (l : list Instance) :
  Dict.lookup (group_by_lab l) k = filter (fun i => lab_name i =? k) l.
Proof. unfold group_by_lab. now rewrite lookup_fold_group. Qed.

Lemma state_is_iff (i : Instance) (s : string) :
  state_is i s = true <-> state i = Some s.
Proof.
  unfold state_is. destruct (state i) as [s'|].
  - rewrite String.eqb_eq. split; congruence.
  - split; discriminate.
Qed.

Lemma filter_selected (op : Op) (target : string) (l : list Instance) :
  filter (selected op target) l
  = filter (fun i => state_is i (precondition op))
      (filter (fun i => lab_name i =? target) l).
Proof.
  induction l as [|i l IH]; simpl; [reflexivity|].
  unfold selected at 1.
  destruct (lab_name i =? target); simpl; [|exact IH].
  destruct (state_is i (precondition op)); simpl; now rewrite IH.
Qed.

(** What the selection loop hands to the mutating step. *)
Lemma collect_completed_ids (op : Op) (remote : Remote) (target : string)
  (completed : list Account) (a : Account) (ids : list (option string)) :
  In (a, ids)
     (per_account_ids (collect_completed op remote target completed)) ->
  In a completed
  /\ ids = snd (fst (collect_task op remote target a))
  /\ ids <> [].
Proof.
  unfold collect_completed.
  set (step := fun (sel : Selection) (acct : Account) => _).
  assert (H : forall l sel0,
             In (a, ids) (per_account_ids (fold_left step l sel0)) ->
             In (a, ids) (per_account_ids sel0)
             \/ (In a l
                 /\ ids = snd (fst (collect_task op remote target a))
                 /\ ids <> [])).
  { induction l as [|b l IH]; intros sel0 Hin; simpl in *; [now left|].
    destruct (IH _ Hin) as [Hold|(Hl & Hids & Hne)].
    - subst step. cbv beta in Hold.
      destruct (collect_task op remote target b) as [[nm ids'] errs] eqn:E.
      destruct ids' as [|x ids']; simpl in Hold; [now left|].
      apply in_app_or in Hold. destruct Hold as [Hold|[Heq|[]]];
        [now left|].
      injection Heq as <- <-. right.
      rewrite E. simpl. split; [now left|]. split; [reflexivity|discriminate].
    - right. split; [now right|]. split; assumption. }
  intros Hin. destruct (H _ _ Hin) as [[]|Hr]. exact Hr.
Qed.

(** C8. For every account and every target label, the selection step of a
    stop request ([precondition Stop = "running"]) and of a start request
    ([precondition Start = "stopped"]) collects exactly the identifiers of
    the listed instances whose normalized label equals the target and whose
    state equals the precondition state, in listing order.  Every mutating
    call a request issues is of the request's own operation, goes to an
    account of the selection round, and carries only identifiers of such
    instances of that account. *)
Theorem selection_exact (op : Op) :
  precondition Stop = "running"
  /\ precondition Start = "stopped"
  /\ (forall remote target acct,
         snd (fst (collect_task op remote target acct))
         = map instance_id
             (filter
                (fun i => (lab_name i =? target)
                          && state_is i (precondition op))
                (listing remote acct)))
  /\ (forall remote target acct x,
         In x (snd (fst (collect_task op remote target acct))) <->
         exists i,
           In i (listing remote acct)
           /\ instance_id i = x
           /\ lab_name i = target
           /\ state i = Some (precondition op))
  /\ (forall env op' acct chunk,
         In (Mutate op' acct chunk) (TraceM.trace (control_lab op env)) ->
         op' = op
         /\ In acct (sel_completed env)
         /\ forall x,
              In x chunk ->
              exists i,
                In i (listing (sel_remote env) acct)
                /\ instance_id i = x
                /\ lab_name i = target_lab_of (form_lab_name env)
                /\ state i = Some (precondition op)).
Proof.
  assert (Hmem : forall remote target acct x,
             In x (snd (fst (collect_task op remote target acct))) <->
             exists i,
               In i (listing remote acct)
               /\ instance_id i = x
               /\ lab_name i = target
               /\ state i = Some (precondition op)).
  { intros remote target acct x. rewrite collect_task_ids, in_map_iff.
    split.
    - intros (i & Hid & Hin). apply filter_In in Hin.
      destruct Hin as [Hin Hsel]. unfold selected in Hsel.
      apply andb_true_iff in Hsel. destruct Hsel as [Hl Hs].
      apply String.eqb_eq in Hl. apply state_is_iff in Hs. exists i. tauto.
    - intros (i & Hin & Hid & Hl & Hs). exists i. split; [assumption|].
      apply filter_In. split; [assumption|]. unfold selected.
      apply andb_true_iff.
      split; [now apply String.eqb_eq|now apply state_is_iff]. }
  split; [reflexivity|]. split; [reflexivity|].
  split; [intros; apply collect_task_ids|]. split; [exact Hmem|].
  intros env op' acct chunk Hin.
  destruct (String.eqb_spec (target_lab_of (form_lab_name env)) "")
    as [E|E].
  - rewrite (control_lab_empty op env E) in Hin. simpl in Hin.
    destruct Hin as [Hin|[]]. discriminate.
  - destruct (control_lab_nonempty op env E) as (more & _ & Heq).
    rewrite Heq in Hin. clear Heq. unfold TraceM.trace in Hin.
    cbn [fst] in Hin.
    destruct Hin as [Hin|Hin]; [discriminate|].
    apply in_app_or in Hin. destruct Hin as [Hin|[Hin|[]]];
      [|discriminate].
    match type of Hin with
    | In _ (fst (mutate_selected _ _ ?sel ?errs)) =>
        destruct (mutate_selected_spec op (clients env) sel errs)
          as (more' & _ & _ & Hev & _)
    end.
    destruct (Hev _ Hin) as (a & ids & c & Hmut & Hsel & Hincl).
    injection Hmut as -> -> ->.
    apply collect_completed_ids in Hsel.
    destruct Hsel as (Hcompleted & Hids & _).
    split; [reflexivity|]. split; [assumption|].
    intros x Hx. apply Hmem. rewrite <- Hids. now apply Hincl.
Qed.

End ListingsGroupingAndSelection.

Lemma selection_exact_witness :
  mutating_calls (TraceM.trace (stop_lab stop_x_request))
  = [(Stop, sample_account "A", [Some "i-2"])]
  /\ exists i,
       In i (listing sample_remote (sample_account "A"))
       /\ instance_id i = Some "i-2"
       /\ lab_name i = "x"
       /\ state i = Some "running".
Proof.
  split; [reflexivity|].
  destruct (selection_exact Stop) as (_ & _ & _ & _ & Hcalls).
  assert (Hin : In (Mutate Stop (sample_account "A") [Some "i-2"])
                  (TraceM.trace (control_lab Stop stop_x_request))).
  { vm_compute. right. left. reflexivity. }
  destruct (Hcalls stop_x_request Stop (sample_account "A") [Some "i-2"] Hin)
    as (_ & _ & Hids).
  apply (Hids (Some "i-2")). now left.
Defined.

(** ** Stable sorting *)

Section StableSorting.
Context {U : Unicode}.

Section StableSortFacts.
Context {A K : Type}.
Variable key : A -> K.
Variable ltb : K -> K -> bool.
Hypothesis order : StrictTotal ltb.

Local Abbreviation key_le := (key_le key ltb).
Local Abbreviation has_sort_key := (has_sort_key key ltb).

Lemma has_sort_key_iff (c : K) (x : A) :
  has_sort_key c x = true <-> key x = c.
Proof.
  unfold has_sort_key. rewrite andb_true_iff, !negb_true_iff. split.
  - intros [H1 H2]. now apply (st_total _ order).
  - intros <-. now rewrite (st_irrefl _ order).
Qed.

Lemma ltb_asym (a b : K) : ltb a b = true -> ltb b a = false.
Proof.
  intros H. destruct (ltb b a) eqn:E; [|reflexivity].
  rewrite <- (st_irrefl _ order a). symmetry.
  now apply (st_trans _ order a b a).
Qed.

Lemma key_le_trans (x y z : A) : key_le x y -> key_le y z -> key_le x z.
Proof.
  unfold key_le. intros Hxy Hyz.
  destruct (ltb (key z) (key x)) eqn:E; [|reflexivity].
  destruct (ltb (key x) (key y)) eqn:E'.
  - rewrite <- Hyz. symmetry. now apply (st_trans _ order _ (key x)).
  - assert (Heq : key x = key y) by now apply (st_total _ order).
    rewrite Heq in E. congruence.
Qed.

Lemma insert_perm (x : A) (s : list A) :
  Permutation (insert key ltb x s) (x :: s).
Proof.
  induction s as [|y s IH]; simpl; [reflexivity|].
  destruct (ltb (key y) (key x)); [|reflexivity].
  rewrite IH. apply perm_swap.
Qed.

Lemma stable_sort_perm (l : list A) : Permutation (stable_sort key ltb l) l.
Proof.
  induction l as [|x l IH]; simpl; [reflexivity|].
  rewrite insert_perm. now apply perm_skip.
Qed.

Lemma insert_sorted (x : A) (s : list A) :
  StronglySorted key_le s -> StronglySorted key_le (insert key ltb x s).
Proof.
  induction 1 as [|y s Hs IH Hall]; simpl.
  - repeat constructor.
  - destruct (ltb (key y) (key x)) eqn:E.
    + constructor; [exact IH|].
      apply (Permutation_Forall (Permutation_sym (insert_perm x s))).
      constructor; [|exact Hall].
      unfold key_le. now apply ltb_asym.
    + constructor; [now constructor|].
      constructor; [exact E|].
      eapply Forall_impl; [|exact Hall].
      intros z Hz. now apply (key_le_trans x y z).
Qed.

(** The result is in ascending order of the keys. *)
Lemma stable_sort_sorted (l : list A) :
  StronglySorted key_le (stable_sort key ltb l).
Proof.
  induction l as [|x l IH]; simpl; [constructor|].
  now apply insert_sorted.
Qed.

Lemma insert_stable (c : K) (x : A) (s : list A) :
  filter (has_sort_key c) (insert key ltb x s)
  = filter (has_sort_key c) (x :: s).
Proof.
  induction s as [|y s IH]; [reflexivity|].
  cbn [insert]. destruct (ltb (key y) (key x)) eqn:E; [|reflexivity].
  cbn [filter] in *. rewrite IH.
  destruct (has_sort_key c x) eqn:Hx; [|reflexivity].
  destruct (has_sort_key c y) eqn:Hy; [|reflexivity].
  apply has_sort_key_iff in Hx, Hy. rewrite Hx, Hy in E.
  now rewrite (st_irrefl _ order) in E.
Qed.

(** Elements with the same key keep their order. *)
Lemma stable_sort_stable (c : K) (l : list A) :
  filter (has_sort_key c) (stable_sort key ltb l)
  = filter (has_sort_key c) l.
Proof.
  induction l as [|x l IH]; [reflexivity|].
  cbn [stable_sort fold_right]. rewrite insert_stable.
  cbn [filter]. fold (stable_sort key ltb l). now rewrite IH.
Qed.

Lemma filter_head_In (c : K) (x : A) (l s : list A) :
  filter (has_sort_key c) s = x :: l -> In x s /\ key x = c.
Proof.
  intros H.
  assert (Hin : In x (filter (has_sort_key c) s)) by (rewrite H; now left).
  apply filter_In in Hin. destruct Hin as [Hin Hk].
  split; [assumption|now apply has_sort_key_iff].
Qed.

(** Two sorted lists with the same elements under every key, in the same
    order, are equal. *)
Lemma sorted_unique (s1 s2 : list A) :
  StronglySorted key_le s1 -> StronglySorted key_le s2 ->
  (forall c, filter (has_sort_key c) s1 = filter (has_sort_key c) s2) ->
  s1 = s2.
Proof.
  intros H1. revert s2.
  induction H1 as [|x s1 Hs1 IH Hx]; intros s2 H2 Hf.
  - destruct s2 as [|y s2]; [reflexivity|].
    specialize (Hf (key y)). cbn [filter] in Hf.
    rewrite (proj2 (has_sort_key_iff (key y) y) eq_refl) in Hf.
    discriminate.
  - destruct H2 as [|y s2 Hs2 Hy].
    + specialize (Hf (key x)). cbn [filter] in Hf.
      rewrite (proj2 (has_sort_key_iff (key x) x) eq_refl) in Hf.
      discriminate.
    + assert (Hhead : forall (u v : A) (su sv : list A),
                 Forall (key_le v) sv ->
                 filter (has_sort_key (key u)) (u :: su)
                 = filter (has_sort_key (key u)) (v :: sv) ->
                 ltb (key u) (key v) = false).
      { intros u v su sv Hv E. cbn [filter] in E.
        rewrite (proj2 (has_sort_key_iff (key u) u) eq_refl) in E.
        symmetry in E.
        destruct (has_sort_key (key u) v) eqn:Hk.
        - apply has_sort_key_iff in Hk. rewrite Hk.
          apply (st_irrefl _ order).
        - apply filter_head_In in E. destruct E as [Hin Hku].
          rewrite Forall_forall in Hv. specialize (Hv u Hin).
          exact Hv. }
      assert (Hxy : ltb (key x) (key y) = false).
      { apply (Hhead x y s1 s2 Hy). apply Hf. }
      assert (Hyx : ltb (key y) (key x) = false).
      { apply (Hhead y x s2 s1 Hx). symmetry. apply Hf. }
      assert (Hk : key x = key y) by now apply (st_total _ order).
      assert (Exy : x = y).
      { specialize (Hf (key x)). cbn [filter] in Hf.
        rewrite (proj2 (has_sort_key_iff (key x) x) eq_refl) in Hf.
        rewrite (proj2 (has_sort_key_iff (key x) y) (eq_sym Hk)) in Hf.
        congruence. }
      subst y. f_equal. apply IH; [assumption|].
      intros c. specialize (Hf c). cbn [filter] in Hf.
      destruct (has_sort_key c x); congruence.
Qed.

(** The result of a stable sort is determined by the elements found under
    each key and their order. *)
Lemma stable_sort_determined (l1 l2 : list A) :
  (forall c, filter (has_sort_key c) l1 = filter (has_sort_key c) l2) ->
  stable_sort key ltb l1 = stable_sort key ltb l2.
Proof.
  intros Hf. apply sorted_unique; try apply stable_sort_sorted.
  intros c. rewrite !stable_sort_stable. apply Hf.
Qed.

End StableSortFacts.

(** Strings under [String.ltb]. *)
Lemma string_ltb_lt (a b : string) :
  String.ltb a b = true <-> String_as_OT.lt a b.
Proof.
  rewrite <- String_as_OT.cmp_lt. unfold String.ltb, String_as_OT.cmp.
  destruct (String.compare a b); split; congruence.
Qed.

Lemma string_order : StrictTotal String.ltb.
Proof.
  split.
  - intros a. destruct (String.ltb a a) eqn:E; [|reflexivity].
    apply string_ltb_lt in E. exfalso.
    apply (String_as_OT.lt_not_eq a a E). reflexivity.
  - intros a b c Hab Hbc. apply string_ltb_lt.
    apply string_ltb_lt in Hab, Hbc.
    now apply (String_as_OT.lt_trans a b c).
  - intros a b. unfold String.ltb. rewrite (String.compare_antisym b a).
    destruct (String.compare a b) eqn:E; simpl; try discriminate.
    intros _ _. now apply String.compare_eq_iff.
Qed.

Lemma id_order : StrictTotal id_ltb.
Proof.
  destruct string_order as [Hi Ht Hto].
  split.
  - intros [a|]; simpl; [apply Hi|reflexivity].
  - intros [a|] [b|] [c|]; simpl; try congruence. apply Ht.
  - intros [a|] [b|]; simpl; try congruence.
    intros H1 H2. f_equal. now apply Hto.
Qed.

Lemma key_order : StrictTotal key_ltb.
Proof.
  destruct string_order as [Hi Ht Hto].
  destruct id_order as [Ii It Ito].
  split.
  - intros [a i]. unfold key_ltb. simpl. rewrite String.eqb_refl. apply Ii.
  - intros [a i] [b j] [c k]. unfold key_ltb. simpl.
    destruct (String.eqb_spec a b) as [Eab|Hab];
      destruct (String.eqb_spec b c) as [Ebc|Hbc];
      destruct (String.eqb_spec a c) as [Eac|Hac];
      subst; try congruence.
    + apply It.
    + intros H1 H2. pose proof (Ht c b c H1 H2) as H3.
      rewrite Hi in H3. discriminate.
    + apply Ht.
  - intros [a i] [b j]. unfold key_ltb. simpl.
    rewrite (String.eqb_sym b a).
    destruct (String.eqb_spec a b) as [->|Hab].
    + intros H1 H2. f_equal. now apply Ito.
    + intros H1 H2. exfalso. apply Hab. now apply Hto.
Qed.

End StableSorting.

(** ** The merge of the per-account results *)

Section TheMergeOfThePerAccountResults.
Context {U : Unicode}.

Lemma wf_fold_group (l : list Instance) :
  forall acc : View,
    Dict.wf acc ->
    Dict.wf
      (fold_left
         (fun grouped instance =>
            Dict.setdefault_extend grouped (lab_name instance) [instance])
         l acc).
Proof.
  induction l as [|i l IH]; intros acc Hacc; simpl; [assumption|].
  apply IH. now apply DictFacts.wf_setdefault_extend.
Qed.

Lemma wf_group_by_lab (l : list Instance) : Dict.wf (group_by_lab l).
Proof. apply wf_fold_group. constructor. Qed.

Lemma wf_merge_grouped (g labs : View) :
  Dict.wf labs -> Dict.wf (merge_grouped labs g).
Proof.
  unfold merge_grouped. revert labs.
  induction g as [|[k v] g IH]; intros labs Hl; simpl; [assumption|].
  apply IH. now apply DictFacts.wf_setdefault_extend.
Qed.

Lemma lookup_absent {A} (d : Dict.t (list A)) (k : string) :
  ~ In k (Dict.keys d) -> Dict.lookup d k = [].
Proof.
  intros H. unfold Dict.lookup.
  now rewrite (proj2 (DictFacts.get_None_iff d k) H).
Qed.

Lemma lookup_cons {A} (k0 : string) (v0 : list A) (d : Dict.t (list A))
  (k : string) :
  Dict.lookup ((k0, v0) :: d) k = if (k0 =? k) then v0 else Dict.lookup d k.
Proof. unfold Dict.lookup. simpl. now destruct (k0 =? k). Qed.

Lemma lookup_merge_grouped (g : View) (k : string) :
  Dict.wf g ->
  forall labs,
    Dict.lookup (merge_grouped labs g) k
    = Dict.lookup labs k ++ Dict.lookup g k.
Proof.
  unfold merge_grouped, Dict.wf.
  induction g as [|[k0 v0] g IH]; intros Hg labs; simpl.
  - change (Dict.lookup [] k) with (@nil Instance). now rewrite app_nil_r.
  - inversion Hg as [|? ? Hk0 Hg']; subst.
    rewrite (IH Hg'), DictFacts.lookup_setdefault_extend, lookup_cons.
    destruct (String.eqb_spec k0 k) as [->|Hne].
    + rewrite (lookup_absent g k Hk0). now rewrite app_nil_r.
    + reflexivity.
Qed.

Lemma flat_values_fold_group (l : list Instance) :
  forall acc : View,
    Permutation
      (flat_map snd
         (fold_left
            (fun grouped instance =>
               Dict.setdefault_extend grouped (lab_name instance) [instance])
            l acc))
      (flat_map snd acc ++ l).
Proof.
  induction l as [|i l IH]; intros acc; simpl.
  - now rewrite app_nil_r.
  - rewrite IH, DictFacts.flat_values_setdefault_extend.
    now rewrite <- app_assoc.
Qed.

Lemma flat_values_merge_grouped (g labs : View) :
  Permutation (flat_map snd (merge_grouped labs g))
              (flat_map snd labs ++ flat_map snd g).
Proof.
  unfold merge_grouped. revert labs.
  induction g as [|[k v] g IH]; intros labs; simpl.
  - now rewrite app_nil_r.
  - rewrite IH, DictFacts.flat_values_setdefault_extend.
    now rewrite <- app_assoc.
Qed.

Lemma merge_from_cons (remote : Remote) (acc : View * list string)
  (a : Account) (completed : list Account) :
  merge_from remote acc (a :: completed)
  = merge_from remote
      (merge_grouped (fst acc) (group_by_lab (listing remote a)),
       snd acc ++ snd (task remote a))
      completed.
Proof.
  unfold merge_from. simpl. rewrite <- task_grouped.
  destruct (task remote a) as [[n g] e]. reflexivity.
Qed.

Lemma merge_from_spec (remote : Remote) (completed : list Account) :
  forall acc,
    Dict.wf (fst acc) ->
    let merged := merge_from remote acc completed in
    Dict.wf (fst merged)
    /\ snd merged
       = snd acc ++ flat_map (fun a => snd (task remote a)) completed
    /\ (forall k,
           Dict.lookup (fst merged) k
           = Dict.lookup (fst acc) k
             ++ filter (fun i => lab_name i =? k)
                  (contributions remote completed))
    /\ Permutation (flat_map snd (fst merged))
         (flat_map snd (fst acc) ++ contributions remote completed).
Proof.
  induction completed as [|a completed IH]; intros acc Hacc.
  - simpl. rewrite !app_nil_r.
    repeat split; try assumption; try reflexivity.
    intros k. now rewrite app_nil_r.
  - cbv zeta. rewrite merge_from_cons.
    specialize (IH (merge_grouped (fst acc) (group_by_lab (listing remote a)),
                    snd acc ++ snd (task remote a))
                  (wf_merge_grouped _ _ Hacc)).
    cbv zeta in IH. cbn [fst snd] in IH.
    destruct IH as (Hwf & Herr & Hlook & Hperm).
    split; [exact Hwf|]. split; [|split].
    + refine (eq_trans Herr _). simpl. now rewrite <- app_assoc.
    + intros k. refine (eq_trans (Hlook k) _).
      rewrite (lookup_merge_grouped _ k (wf_group_by_lab _)).
      rewrite lookup_group_by_lab. unfold contributions. simpl.
      now rewrite filter_app, <- app_assoc.
    + refine (Permutation_trans Hperm _).
      rewrite flat_values_merge_grouped.
      unfold group_by_lab. rewrite flat_values_fold_group. simpl.
      unfold contributions. simpl. now rewrite <- !app_assoc.
Qed.

(** The merged dictionary: under each label the instances normalized to it,
    in completion order, and one error list entry per failed account. *)
Lemma merge_completed_spec (remote : Remote) (completed : list Account) :
  let merged := merge_completed remote completed in
  Dict.wf (fst merged)
  /\ snd merged = flat_map (fun a => snd (task remote a)) completed
  /\ (forall k,
         Dict.lookup (fst merged) k
         = filter (fun i => lab_name i =? k) (contributions remote completed))
  /\ Permutation (flat_map snd (fst merged)) (contributions remote completed).
Proof.
  assert (Hwf : Dict.wf (fst (([] : View), ([] : list string))))
    by constructor.
  destruct (merge_from_spec remote completed ([], []) Hwf)
    as (H1 & H2 & H3 & H4).
  repeat split; assumption.
Qed.

End TheMergeOfThePerAccountResults.

(** ** The final sorts *)

Section TheFinalSorts.
Context {U : Unicode}.

(** The loop over the groups raises [TypeError] as soon as one group holds
    two keys that cannot be compared, and sorts every group otherwise. *)
Lemma sort_groups_spec (labs : View) :
  sort_groups labs
  = if forallb group_comparable labs then inr (map sort_group labs)
    else inl TypeError.
Proof.
  unfold sort_groups. induction labs as [|item labs IH]; [reflexivity|].
  cbn [ExcM.mapM forallb map]. rewrite IH.
  unfold sort_instances.
  change (comparable (map instance_key (snd item)))
    with (group_comparable item).
  destruct (group_comparable item); simpl; [|reflexivity].
  destruct (forallb group_comparable labs); reflexivity.
Qed.

Lemma aggregate_spec (remote : Remote) (completed : list Account) :
  aggregate remote completed
  = if forallb group_comparable (fst (merge_completed remote completed))
    then inr (sort_labs
                (map sort_group (fst (merge_completed remote completed))),
              snd (merge_completed remote completed))
    else inl TypeError.
Proof.
  unfold aggregate. rewrite sort_groups_spec.
  destruct (forallb group_comparable (fst (merge_completed remote completed)));
    reflexivity.
Qed.

Lemma comparable_spec (ks : list SortKey) :
  comparable ks = true <->
  forall k1 k2, In k1 ks -> In k2 ks -> ExcM.is_ok (key_lt k1 k2) = true.
Proof.
  unfold comparable. rewrite forallb_forall. split.
  - intros H k1 k2 H1 H2. specialize (H k1 H1).
    rewrite forallb_forall in H. now apply H.
  - intros H k1 H1. apply forallb_forall. intros k2 H2. now apply H.
Qed.

Lemma key_lt_agrees (k1 k2 : SortKey) (b : bool) :
  key_lt k1 k2 = inr b -> key_ltb k1 k2 = b.
Proof.
  unfold key_lt, key_ltb. destruct (fst k1 =? fst k2); [|congruence].
  destruct (snd k1), (snd k2); simpl; congruence.
Qed.

(** Two keys whose identifiers are present can be compared. *)
Lemma key_lt_ids (a b : string) (x y : string) :
  ExcM.is_ok (key_lt (a, Some x) (b, Some y)) = true.
Proof. unfold key_lt. simpl. now destruct (a =? b). Qed.

Lemma comparable_ids (l : list Instance) :
  Forall (fun i => instance_id i <> None) l ->
  comparable (map instance_key l) = true.
Proof.
  intros Hall. rewrite Forall_forall in Hall.
  apply comparable_spec. intros k1 k2 H1 H2.
  apply in_map_iff in H1, H2.
  destruct H1 as (i & <- & Hi). destruct H2 as (j & <- & Hj).
  unfold instance_key.
  pose proof (Hall i Hi) as Ni. pose proof (Hall j Hj) as Nj.
  destruct (instance_id i) as [x|]; [|congruence].
  destruct (instance_id j) as [y|]; [|congruence].
  apply key_lt_ids.
Qed.

Lemma get_map_sort_group (d : View) (k : string) :
  Dict.get (map sort_group d) k
  = option_map (stable_sort instance_key key_ltb) (Dict.get d k).
Proof.
  induction d as [|[k0 v0] d IH]; simpl; [reflexivity|].
  destruct (k0 =? k); [reflexivity|exact IH].
Qed.

Lemma keys_map_sort_group (d : View) :
  Dict.keys (map sort_group d) = Dict.keys d.
Proof. unfold Dict.keys. rewrite map_map. reflexivity. Qed.

(** Reordering the items of a dictionary does not change what is stored
    under a key. *)
Lemma get_Permutation {V} (d d' : Dict.t V) (k : string) :
  Dict.wf d -> Permutation d d' -> Dict.get d' k = Dict.get d k.
Proof.
  intros Hwf Hperm.
  assert (Hwf' : Dict.wf d').
  { unfold Dict.wf, Dict.keys in *.
    eapply Permutation_NoDup; [|exact Hwf]. now apply Permutation_map. }
  destruct (Dict.get d k) as [v|] eqn:E.
  - apply DictFacts.In_get; [exact Hwf'|].
    eapply Permutation_in; [exact Hperm|]. now apply DictFacts.get_In.
  - apply DictFacts.get_None_iff. apply DictFacts.get_None_iff in E.
    intros Hin. apply E. unfold Dict.keys in *.
    eapply Permutation_in; [|exact Hin].
    apply Permutation_map. now apply Permutation_sym.
Qed.

Lemma sort_labs_perm (labs : View) : Permutation (sort_labs labs) labs.
Proof. apply stable_sort_perm. Qed.

Lemma flat_values_sort_group (d : View) :
  Permutation (flat_map snd (map sort_group d)) (flat_map snd d).
Proof.
  induction d as [|[k v] d IH]; simpl; [reflexivity|].
  apply Permutation_app; [apply stable_sort_perm|exact IH].
Qed.

(** The view returned by the read pipeline, group by group: under each
    label, the instances normalized to it, stably sorted. *)
Lemma aggregate_view (remote : Remote) (completed : list Account)
  (view : View) (errors : list string) :
  aggregate remote completed = inr (view, errors) ->
  view = sort_labs (map sort_group (fst (merge_completed remote completed)))
  /\ errors = flat_map (fun a => snd (task remote a)) completed
  /\ Dict.wf view
  /\ Permutation (all_instances view) (contributions remote completed)
  /\ (forall k,
         Dict.lookup view k
         = stable_sort instance_key key_ltb
             (filter (fun i => lab_name i =? k)
                (contributions remote completed))).
Proof.
  rewrite aggregate_spec.
  destruct (forallb group_comparable (fst (merge_completed remote completed)));
    [|discriminate].
  intros [= <- <-].
  destruct (merge_completed_spec remote completed)
    as (Hwf & Herr & Hlook & Hperm).
  set (merged := fst (merge_completed remote completed)) in *.
  assert (Hwf2 : Dict.wf (map sort_group merged)).
  { unfold Dict.wf. now rewrite keys_map_sort_group. }
  split; [reflexivity|]. split; [exact Herr|]. split; [|split].
  - unfold Dict.wf, Dict.keys.
    eapply Permutation_NoDup; [|exact Hwf2].
    apply Permutation_map, Permutation_sym, sort_labs_perm.
  - unfold all_instances.
    rewrite (Permutation_flat_map snd (sort_labs_perm _)).
    now rewrite flat_values_sort_group.
  - intros k. unfold Dict.lookup.
    rewrite (get_Permutation _ _ k Hwf2
               (Permutation_sym (sort_labs_perm _))).
    rewrite get_map_sort_group, <- Hlook. unfold Dict.lookup.
    destruct (Dict.get merged k); reflexivity.
Qed.

End TheFinalSorts.

(** ** Isolation of a failing account *)

Section IsolationOfAFailingAccount.
Context {U : Unicode}.

Lemma task_failed (remote : Remote) (a : Account) (exc : exn) :
  fetch_instances_for_account remote a = inl exc ->
  task remote a
  = (name_or_unknown a, [],
     [(name_or_unknown a ++ ": " ++ str_exn exc)%string]).
Proof. intros H. unfold task. now rewrite H. Qed.

Lemma task_ok (remote : Remote) (a : Account) :
  acct_name a <> None ->
  ExcM.is_ok (fetch_instances_for_account remote a) = true ->
  snd (task remote a) = [].
Proof.
  intros Hn Hok. unfold task, get_name.
  destruct (fetch_instances_for_account remote a); [discriminate|].
  destruct (acct_name a); [reflexivity|congruence].
Qed.

Lemma listing_failed (remote : Remote) (a : Account) (exc : exn) :
  fetch_instances_for_account remote a = inl exc -> listing remote a = [].
Proof. intros H. unfold listing. now rewrite H. Qed.

Lemma contributions_app (remote : Remote) (l1 l2 : list Account) :
  contributions remote (l1 ++ l2)
  = contributions remote l1 ++ contributions remote l2.
Proof. apply flat_map_app. Qed.

(** When every listed instance carries an identifier, no group raises. *)
Lemma groups_comparable (remote : Remote) (completed : list Account) :
  Forall (fun i => instance_id i <> None) (contributions remote completed) ->
  forallb group_comparable (fst (merge_completed remote completed)) = true.
Proof.
  intros Hall. rewrite Forall_forall in Hall.
  destruct (merge_completed_spec remote completed) as (_ & _ & _ & Hperm).
  apply forallb_forall. intros item Hitem.
  apply comparable_ids, Forall_forall. intros i Hi. apply Hall.
  eapply Permutation_in; [exact Hperm|].
  apply in_flat_map. exists item. split; assumption.
Qed.

Lemma In_view_lookup (remote : Remote) (completed : list Account)
  (view : View) (errors : list string) (k : string) (i : Instance) :
  aggregate remote completed = inr (view, errors) ->
  In i (Dict.lookup view k) <->
  In i (contributions remote completed) /\ lab_name i = k.
Proof.
  intros Hagg. apply aggregate_view in Hagg.
  destruct Hagg as (_ & _ & _ & _ & Hlook). rewrite Hlook.
  split.
  - intros Hin.
    apply (Permutation_in _ (stable_sort_perm instance_key key_ltb _)) in Hin.
    apply filter_In in Hin. destruct Hin as [Hin Hk].
    apply String.eqb_eq in Hk. tauto.
  - intros [Hin Hk].
    apply (Permutation_in _
             (Permutation_sym (stable_sort_perm instance_key key_ltb _))).
    apply filter_In. split; [assumption|]. now apply String.eqb_eq.
Qed.

(** C6. In a read fan-out where exactly one account's listing call raises
    and every other account lists its instances, the Grouped View returned
    holds exactly the instances of the other accounts, each under its
    normalized label, and the error list is the single string
    [<name>: <message>] for the failing account, with "unknown" for the
    name when the descriptor has none.  The pipeline does return when every
    listed instance carries an identifier. *)
Theorem read_isolation (remote : Remote)
  (accounts before after : list Account) (failed : Account) (exc : exn) :
  fetch_instances_for_account remote failed = inl exc ->
  Forall
    (fun a =>
       acct_name a <> None
       /\ ExcM.is_ok (fetch_instances_for_account remote a) = true)
    (before ++ after) ->
  let run :=
    fetch_all_accounts_grouped_by_lab remote accounts
      (before ++ failed :: after) in
  (Forall (fun i => instance_id i <> None)
     (contributions remote (before ++ after)) ->
   exists view errors, TraceM.result run = inr (view, errors))
  /\ (forall view errors,
         TraceM.result run = inr (view, errors) ->
         errors
         = [(match acct_name failed with
             | Some n => n
             | None => "unknown"
             end ++ ": " ++ str_exn exc)%string]
         /\ Permutation (all_instances view)
              (contributions remote (before ++ after))
         /\ (forall k i,
                In i (Dict.lookup view k) <->
                In i (contributions remote (before ++ after))
                /\ lab_name i = k)).
Proof.
  intros Hfail Hothers run.
  assert (Hcontrib : contributions remote (before ++ failed :: after)
                     = contributions remote (before ++ after)).
  { rewrite !contributions_app. f_equal. unfold contributions. simpl.
    now rewrite (listing_failed remote failed exc Hfail). }
  assert (Hnone : forall l,
             Forall
               (fun a =>
                  acct_name a <> None
                  /\ ExcM.is_ok (fetch_instances_for_account remote a) = true)
               l ->
             flat_map (fun a => snd (task remote a)) l = []).
  { induction l as [|a l IH]; intros Hl; [reflexivity|].
    inversion Hl as [|? ? [Hn Hok] Hl']; subst. simpl.
    now rewrite (task_ok remote a Hn Hok), (IH Hl'). }
  apply Forall_app in Hothers. destruct Hothers as [Hb Ha].
  subst run. rewrite fetch_all_eq. unfold TraceM.result. cbn [snd].
  split.
  - intros Hids. rewrite aggregate_spec, groups_comparable.
    + eauto.
    + now rewrite Hcontrib.
  - intros view errors Hagg.
    pose proof (aggregate_view _ _ _ _ Hagg) as (_ & Herr & _ & Hperm & _).
    split; [|split].
    + rewrite Herr, flat_map_app. simpl.
      rewrite (Hnone _ Hb), (Hnone _ Ha), (task_failed remote failed exc Hfail).
      reflexivity.
    + now rewrite <- Hcontrib.
    + intros k i. rewrite <- Hcontrib.
      now apply (In_view_lookup remote _ view errors).
Qed.

End IsolationOfAFailingAccount.

Lemma read_isolation_witness :
  exists view,
    TraceM.result
      (fetch_all_accounts_grouped_by_lab partly_failing_remote
         [sample_account "A"; sample_account "B"; sample_account "C"]
         [sample_account "C"; sample_account "B"; sample_account "A"])
    = inr (view,
           ["B: Error fetching EC2 instances in B (eu-west-1): AuthFailure"])
    /\ Permutation (all_instances view)
         (contributions partly_failing_remote
            [sample_account "C"; sample_account "A"]).
Proof.
  destruct (read_isolation partly_failing_remote
              [sample_account "A"; sample_account "B"; sample_account "C"]
              [sample_account "C"] [sample_account "A"] (sample_account "B")
              (RuntimeError
                 "Error fetching EC2 instances in B (eu-west-1): AuthFailure"))
    as (Hret & Hview).
  - reflexivity.
  - repeat constructor; discriminate.
  - destruct Hret as (view & errors & Hres).
    + repeat constructor; discriminate.
    + destruct (Hview view errors Hres) as (Herr & Hperm & _).
      exists view. split; [|exact Hperm].
      subst errors. exact Hres.
Defined.

(** ** Label normalization *)

Section LabelNormalization.
Context {U : Unicode}.

(** C7. An instance whose label is absent or empty is normalized to
    "(no lab tag)" and, when the read pipeline returns, is found in the
    group of that name; the literal "(no lab tag)" survives the trimming of
    the submitted label; and for every target label an instance passes the
    selection filter exactly when it lies in the group of that label and is
    in the precondition state.  So a request for "(no lab tag)" collects,
    per account, exactly the identifiers of its instances of the sentinel
    group that are in the precondition state. *)
Theorem label_normalization_round_trip (op : Op) (remote : Remote)
  (accounts completed : list Account) (view : View) (errors : list string) :
  TraceM.result
    (fetch_all_accounts_grouped_by_lab remote accounts completed)
  = inr (view, errors) ->
  target_lab_of (Some "(no lab tag)") = "(no lab tag)"
  /\ (forall acct i,
         In acct completed -> In i (listing remote acct) ->
         (lab i = None \/ lab i = Some "" ->
          lab_name i = "(no lab tag)"
          /\ In i (Dict.lookup view "(no lab tag)"))
         /\ (forall k, In i (Dict.lookup view k) <-> lab_name i = k)
         /\ (forall target,
                selected op target i = true <->
                In i (Dict.lookup view target)
                /\ state i = Some (precondition op)))
  /\ (forall acct,
         snd (fst (collect_task op remote
                     (target_lab_of (Some "(no lab tag)")) acct))
         = map instance_id
             (filter (fun i => state_is i (precondition op))
                (filter (fun i => lab_name i =? "(no lab tag)")
                   (listing remote acct)))).
Proof.
  intros Hres. rewrite fetch_all_eq in Hres. unfold TraceM.result in Hres.
  cbn [snd] in Hres.
  assert (Hgroup : forall acct i k,
             In acct completed -> In i (listing remote acct) ->
             In i (Dict.lookup view k) <-> lab_name i = k).
  { intros acct i k Hacct Hi.
    rewrite (In_view_lookup remote completed view errors k i Hres).
    split; [tauto|]. intros Hk. split; [|exact Hk].
    apply in_flat_map. exists acct. split; assumption. }
  split; [reflexivity|]. split.
  - intros acct i Hacct Hi. split; [|split].
    + intros Hlab.
      assert (Hn : lab_name i = "(no lab tag)").
      { unfold lab_name. destruct Hlab as [-> | ->]; reflexivity. }
      split; [exact Hn|]. now apply (Hgroup acct).
    + intros k. now apply (Hgroup acct).
    + intros target. rewrite (Hgroup acct i target Hacct Hi).
      unfold selected. rewrite andb_true_iff, String.eqb_eq, state_is_iff.
      tauto.
  - intros acct. rewrite collect_task_ids, filter_selected. reflexivity.
Qed.

End LabelNormalization.

Lemma label_normalization_round_trip_witness :
  transform_instance "A" (untagged_raw "i-7" "running")
  = inr (untagged_instance "A" "i-7" "running")
  /\ In (untagged_instance "A" "i-7" "running")
       (Dict.lookup untagged_view "(no lab tag)")
  /\ snd (fst (collect_task Stop untagged_remote
                 (target_lab_of (Some "(no lab tag)")) (sample_account "A")))
     = [Some "i-7"].
Proof.
  destruct (label_normalization_round_trip Stop untagged_remote
              [sample_account "A"] [sample_account "A"] untagged_view []
              eq_refl) as (_ & Hinst & Hsel).
  assert (Hl : In (untagged_instance "A" "i-7" "running")
                 (listing untagged_remote (sample_account "A"))).
  { vm_compute. left. reflexivity. }
  destruct (Hinst _ _ (or_introl eq_refl) Hl) as (Hsentinel & _).
  split; [reflexivity|]. split.
  - apply Hsentinel. left. reflexivity.
  - rewrite Hsel. reflexivity.
Defined.

(** ** Order of the Grouped View *)

Section OrderOfTheGroupedView.
Context {U : Unicode}.

Lemma ltb_false_leb (a b : string) :
  String.ltb b a = false -> String.leb a b = true.
Proof.
  unfold String.ltb, String.leb. rewrite (String.compare_antisym b a).
  destruct (String.compare a b); simpl; congruence.
Qed.

Lemma instance_le_of_key (x y : Instance) :
  ExcM.is_ok (key_lt (instance_key x) (instance_key y)) = true ->
  key_ltb (instance_key y) (instance_key x) = false ->
  instance_le x y.
Proof.
  unfold key_lt, key_ltb, instance_key, instance_le. simpl.
  rewrite (String.eqb_sym (account y) (account x)).
  destruct (String.eqb_spec (account x) (account y)) as [E|E].
  - intros Hok Hlt. right. split; [exact E|].
    destruct (instance_id x), (instance_id y); simpl in *;
      try discriminate; [|exact I].
    now apply ltb_false_leb.
  - intros _ Hlt. left.
    destruct (String.ltb (account x) (account y)) eqn:Hxy; [reflexivity|].
    exfalso. apply E. now apply (st_total _ string_order).
Qed.

Lemma StronglySorted_weaken {A} (R R' : A -> A -> Prop) (l : list A) :
  (forall x y, In x l -> In y l -> R x y -> R' x y) ->
  StronglySorted R l -> StronglySorted R' l.
Proof.
  intros Himp Hs. induction Hs as [|x l Hs IH Hall]; constructor.
  - apply IH. intros u v Hu Hv. apply Himp; now right.
  - rewrite Forall_forall in *. intros y Hy.
    apply Himp; [now left|now right|now apply Hall].
Qed.

Lemma sort_group_sorted (item : string * list Instance) :
  group_comparable item = true ->
  StronglySorted instance_le (snd (sort_group item)).
Proof.
  intros Hcmp. unfold sort_group. cbn [snd].
  eapply StronglySorted_weaken;
    [|apply (stable_sort_sorted instance_key key_ltb key_order)].
  intros x y Hx Hy Hle.
  apply instance_le_of_key; [|exact Hle].
  apply (proj1 (comparable_spec _) Hcmp);
    apply in_map;
    eapply Permutation_in;
    try apply (stable_sort_perm instance_key key_ltb); assumption.
Qed.

Lemma sort_labs_sorted (labs : View) : StronglySorted label_le (sort_labs labs).
Proof.
  eapply StronglySorted_weaken;
    [|apply (stable_sort_sorted
               (fun item : string * list Instance => Str.lower (fst item))
               String.ltb string_order)].
  intros x y _ _ Hle. now apply ltb_false_leb.
Qed.

(** C3.  The read pipeline returns whenever every listed instance carries
    an identifier.  In the Grouped View it returns, the
    records of each group are in ascending order of the pair (account name,
    instance identifier), and the groups are in ascending order of their
    lowercased labels, that is, sorted case-insensitively. *)
Theorem grouped_view_sorted (remote : Remote)
  (accounts completed : list Account) :
  (Forall (fun i => instance_id i <> None)
     (contributions remote completed) ->
   exists view errors,
     TraceM.result
       (fetch_all_accounts_grouped_by_lab remote accounts completed)
     = inr (view, errors))
  /\ (forall view errors,
         TraceM.result
           (fetch_all_accounts_grouped_by_lab remote accounts completed)
         = inr (view, errors) ->
         (forall k group,
             In (k, group) view -> StronglySorted instance_le group)
         /\ StronglySorted label_le view).
Proof.
  rewrite fetch_all_eq. unfold TraceM.result. cbn [snd].
  rewrite aggregate_spec. split.
  - intros Hids. rewrite (groups_comparable remote completed Hids).
    eauto.
  - intros view errors.
    destruct (forallb group_comparable
                (fst (merge_completed remote completed))) eqn:Hcmp;
      [|discriminate].
    intros [= <- <-]. split; [|apply sort_labs_sorted].
    intros k group Hin.
    apply (Permutation_in _ (sort_labs_perm _)) in Hin.
    apply in_map_iff in Hin. destruct Hin as (item & Hitem & Hmerged).
    rewrite forallb_forall in Hcmp.
    pose proof (sort_group_sorted item (Hcmp item Hmerged)) as Hs.
    rewrite Hitem in Hs. exact Hs.
Qed.

End OrderOfTheGroupedView.

Lemma grouped_view_sorted_witness :
  exists view errors,
    TraceM.result
      (fetch_all_accounts_grouped_by_lab sample_remote
         [sample_account "A"; sample_account "B"]
         [sample_account "B"; sample_account "A"])
    = inr (view, errors)
    /\ StronglySorted label_le view.
Proof.
  destruct (grouped_view_sorted sample_remote
              [sample_account "A"; sample_account "B"]
              [sample_account "B"; sample_account "A"]) as [Hret Hsorted].
  destruct Hret as (view & errors & Hres).
  - repeat constructor; discriminate.
  - exists view, errors. split; [exact Hres|].
    now apply (Hsorted view errors).
Defined.

(** With the labels compared as they are, case-sensitively, the order
    fails: "B" precedes "a" in character order, and the view lists "a"
    first. *)
Lemma grouped_view_sorted_counterexample :
  TraceM.result
    (fetch_all_accounts_grouped_by_lab mixed_case_remote
       [sample_account "A"; sample_account "C"]
       [sample_account "A"; sample_account "C"])
  = inr (mixed_case_view, [])
  /\ Dict.keys mixed_case_view = ["a"; "B"]
  /\ String.leb "a" "B" = false
  /\ ~ StronglySorted
         (fun x y : string * list Instance =>
            String.leb (fst x) (fst y) = true)
         mixed_case_view.
Proof.
  split; [reflexivity|]. split; [reflexivity|]. split; [reflexivity|].
  intros Hs. inversion Hs as [|x l _ Hall]; subst.
  inversion Hall as [|y l' Hle _]; subst.
  discriminate Hle.
Qed.

(** ** Completion order *)

Section CompletionOrder.
Context {U : Unicode}.

Lemma filter_flat_map {A B} (p : B -> bool) (f : A -> list B) (l : list A) :
  filter p (flat_map f l) = flat_map (fun a => filter p (f a)) l.
Proof.
  induction l as [|a l IH]; simpl; [reflexivity|].
  now rewrite filter_app, IH.
Qed.

Lemma NoDup_map_inj {A B} (f : A -> B) (l : list A) (a b : A) :
  NoDup (map f l) -> In a l -> In b l -> f a = f b -> a = b.
Proof.
  induction l as [|x l IH]; simpl; [tauto|].
  intros Hnd Ha Hb Hf. inversion Hnd as [|? ? Hx Hnd']; subst.
  destruct Ha as [->|Ha], Hb as [->|Hb]; try reflexivity.
  - exfalso. apply Hx. rewrite Hf. now apply in_map.
  - exfalso. apply Hx. rewrite <- Hf. now apply in_map.
  - now apply IH.
Qed.

(** When at most one element of a list has a non-empty image, the
    concatenation of the images does not depend on the order. *)
Lemma flat_map_sparse_perm {A B} (g : A -> list B) (l1 l2 : list A) :
  Permutation l1 l2 ->
  NoDup l1 ->
  (forall a b, In a l1 -> In b l1 -> g a <> [] -> g b <> [] -> a = b) ->
  flat_map g l1 = flat_map g l2.
Proof.
  induction 1 as [|x l l' Hp IH|x y l|l l' l'' Hp1 IH1 Hp2 IH2];
    intros Hnd Hsparse.
  - reflexivity.
  - simpl. f_equal. inversion Hnd; subst. apply IH; [assumption|].
    intros a b Ha Hb. apply Hsparse; now right.
  - simpl. destruct (g x) as [|u gx] eqn:Ex; [reflexivity|].
    destruct (g y) as [|v gy] eqn:Ey; [reflexivity|].
    exfalso. inversion Hnd as [|? ? Hy _]; subst. apply Hy. left.
    apply Hsparse; simpl; try tauto; congruence.
  - rewrite IH1 by assumption. apply IH2.
    + eapply Permutation_NoDup; eassumption.
    + intros a b Ha Hb. apply Hsparse;
        eapply Permutation_in; try eassumption; now apply Permutation_sym.
Qed.

(** With unique account names, the instances found under one sort key come
    from one account, so they arrive in the same order whatever the
    completion order. *)
Lemma same_key_same_order (remote : Remote) (c1 c2 : list Account)
  (p : Instance -> bool) (c : SortKey) :
  NoDup (map acct_name c1) -> Permutation c1 c2 ->
  filter (has_sort_key instance_key key_ltb c)
    (filter p (contributions remote c1))
  = filter (has_sort_key instance_key key_ltb c)
      (filter p (contributions remote c2)).
Proof.
  intros Hnd Hperm. unfold contributions.
  rewrite !filter_flat_map.
  apply flat_map_sparse_perm; [assumption|now apply NoDup_map_inv in Hnd|].
  assert (Hname : forall a,
             filter (has_sort_key instance_key key_ltb c)
               (filter p (listing remote a)) <> [] ->
             acct_name a = Some (fst c)).
  { intros a Hne.
    destruct (filter (has_sort_key instance_key key_ltb c)
                (filter p (listing remote a))) as [|i l] eqn:E;
      [congruence|].
    assert (Hin : In i (filter (has_sort_key instance_key key_ltb c)
                          (filter p (listing remote a))))
      by (rewrite E; now left).
    apply filter_In in Hin. destruct Hin as [Hin Hk].
    apply filter_In in Hin. destruct Hin as [Hin _].
    apply (has_sort_key_iff instance_key key_ltb key_order) in Hk.
    rewrite (listing_account remote a i Hin), <- Hk. reflexivity. }
  intros a b Ha Hb Hga Hgb.
  apply (NoDup_map_inj acct_name c1); try assumption.
  now rewrite (Hname a Hga), (Hname b Hgb).
Qed.

Lemma sorted_group_order_free (remote : Remote) (c1 c2 : list Account)
  (k : string) :
  NoDup (map acct_name c1) -> Permutation c1 c2 ->
  stable_sort instance_key key_ltb
    (filter (fun i => lab_name i =? k) (contributions remote c1))
  = stable_sort instance_key key_ltb
      (filter (fun i => lab_name i =? k) (contributions remote c2)).
Proof.
  intros Hnd Hperm. apply (stable_sort_determined _ _ key_order).
  intros c. now apply same_key_same_order.
Qed.

Lemma contributions_perm (remote : Remote) (c1 c2 : list Account) :
  Permutation c1 c2 ->
  Permutation (contributions remote c1) (contributions remote c2).
Proof. intros H. now apply Permutation_flat_map. Qed.

(** What the merged dictionary stores under a label: nothing when no
    instance is normalized to it. *)
Lemma get_fold_group (k : string) (l : list Instance) :
  forall acc : View,
    Dict.get
      (fold_left
         (fun grouped instance =>
            Dict.setdefault_extend grouped (lab_name instance) [instance])
         l acc) k
    = match filter (fun i => lab_name i =? k) l with
      | [] => Dict.get acc k
      | found => Some (Dict.lookup acc k ++ found)
      end.
Proof.
  induction l as [|i l IH]; intros acc; [reflexivity|].
  cbn [fold_left filter]. rewrite IH.
  rewrite DictFacts.get_setdefault_extend,
    DictFacts.lookup_setdefault_extend.
  destruct (String.eqb_spec (lab_name i) k) as [E|E].
  - rewrite E.
    destruct (filter (fun i => lab_name i =? k) l); [reflexivity|].
    now rewrite <- app_assoc.
  - reflexivity.
Qed.

Lemma get_merge_grouped (g : View) (k : string) :
  Dict.wf g ->
  forall labs,
    Dict.get (merge_grouped labs g) k
    = match Dict.get g k with
      | None => Dict.get labs k
      | Some v => Some (Dict.lookup labs k ++ v)
      end.
Proof.
  unfold merge_grouped, Dict.wf.
  induction g as [|[k0 v0] g IH]; intros Hg labs; [reflexivity|].
  inversion Hg as [|? ? Hk0 Hg']; subst.
  cbn [fold_left fst snd Dict.get]. rewrite (IH Hg').
  rewrite DictFacts.get_setdefault_extend,
    DictFacts.lookup_setdefault_extend.
  destruct (String.eqb_spec k0 k) as [->|Hne]; [|reflexivity].
  now rewrite (proj2 (DictFacts.get_None_iff g k) Hk0).
Qed.

Lemma get_merge_from (remote : Remote) (k : string)
  (completed : list Account) :
  forall acc,
    Dict.get (fst (merge_from remote acc completed)) k
    = match filter (fun i => lab_name i =? k)
              (contributions remote completed) with
      | [] => Dict.get (fst acc) k
      | found => Some (Dict.lookup (fst acc) k ++ found)
      end.
Proof.
  induction completed as [|a completed IH]; intros acc; [reflexivity|].
  rewrite merge_from_cons, IH. cbn [fst].
  rewrite (get_merge_grouped _ k (wf_group_by_lab _)).
  rewrite (lookup_merge_grouped _ k (wf_group_by_lab _)).
  rewrite lookup_group_by_lab.
  unfold group_by_lab. rewrite get_fold_group.
  unfold contributions. cbn [flat_map]. rewrite filter_app.
  change (Dict.lookup [] k) with (@nil Instance). cbn [Dict.get app].
  destruct (filter (fun i => lab_name i =? k) (listing remote a)) as [|i l];
    cbn [app].
  - rewrite app_nil_r. reflexivity.
  - destruct (filter (fun i => lab_name i =? k)
                (flat_map (listing remote) completed)).
    + now rewrite app_nil_r.
    + now rewrite <- app_assoc.
Qed.

Lemma get_merge_completed (remote : Remote) (completed : list Account)
  (k : string) :
  Dict.get (fst (merge_completed remote completed)) k
  = match filter (fun i => lab_name i =? k)
            (contributions remote completed) with
    | [] => None
    | found => Some found
    end.
Proof.
  change (merge_completed remote completed)
    with (merge_from remote ([], []) completed).
  rewrite get_merge_from. reflexivity.
Qed.

Lemma filter_nil_iff {A} (p : A -> bool) (l : list A) :
  filter p l = [] <-> forall x, In x l -> p x = false.
Proof.
  induction l as [|x l IH]; simpl.
  - tauto.
  - destruct (p x) eqn:E.
    + split; [discriminate|]. intros H.
      specialize (H x (or_introl eq_refl)). congruence.
    + rewrite IH. split.
      * intros H y [<-|Hy]; [assumption|now apply H].
      * intros H y Hy. apply H. now right.
Qed.

Lemma get_merged_Some (remote : Remote) (completed : list Account)
  (k : string) (v : list Instance) :
  Dict.get (fst (merge_completed remote completed)) k = Some v ->
  v = filter (fun i => lab_name i =? k) (contributions remote completed)
  /\ exists i, In i (contributions remote completed) /\ lab_name i = k.
Proof.
  rewrite get_merge_completed.
  destruct (filter (fun i => lab_name i =? k)
              (contributions remote completed)) as [|i l] eqn:E;
    [discriminate|].
  intros [= <-]. split; [reflexivity|].
  assert (Hin : In i (filter (fun i => lab_name i =? k)
                        (contributions remote completed)))
    by (rewrite E; now left).
  apply filter_In in Hin. destruct Hin as [Hin Hk].
  apply String.eqb_eq in Hk. eauto.
Qed.

Lemma groups_comparable_iff (remote : Remote) (completed : list Account) :
  forallb group_comparable (fst (merge_completed remote completed)) = true
  <-> no_raising_pair (contributions remote completed).
Proof.
  destruct (merge_completed_spec remote completed) as (Hwf & _ & _ & _).
  rewrite forallb_forall. split.
  - intros H i j Hi Hj Hlab.
    set (k := lab_name i).
    destruct (Dict.get (fst (merge_completed remote completed)) k)
      as [v|] eqn:Hget.
    + pose proof (DictFacts.get_In _ _ _ Hget) as Hitem.
      apply get_merged_Some in Hget. destruct Hget as [-> _].
      specialize (H _ Hitem). unfold group_comparable in H. cbn [snd] in H.
      apply (proj1 (comparable_spec _) H); apply in_map, filter_In;
        (split; [assumption|]); apply String.eqb_eq;
        [reflexivity|now symmetry].
    + exfalso. rewrite get_merge_completed in Hget.
      destruct (filter (fun i0 => lab_name i0 =? k)
                  (contributions remote completed)) eqn:E; [|discriminate].
      pose proof (proj1 (filter_nil_iff _ _) E i Hi) as Hk.
      cbv beta in Hk. unfold k in Hk.
      rewrite String.eqb_refl in Hk. discriminate.
  - intros H [k v] Hitem.
    pose proof (DictFacts.In_get _ _ _ Hwf Hitem) as Hget.
    apply get_merged_Some in Hget. destruct Hget as [-> _].
    unfold group_comparable. cbn [snd].
    apply comparable_spec. intros k1 k2 H1 H2.
    apply in_map_iff in H1, H2.
    destruct H1 as (i & <- & Hi). destruct H2 as (j & <- & Hj).
    apply filter_In in Hi, Hj.
    destruct Hi as [Hi Ki]. destruct Hj as [Hj Kj].
    apply String.eqb_eq in Ki, Kj. apply H; congruence.
Qed.

Lemma filter_unique_perm {A} (p : A -> bool) (l1 l2 : list A) :
  NoDup l1 -> NoDup l2 ->
  (forall x, In x l1 <-> In x l2) ->
  (forall x y, In x l1 -> In y l1 -> p x = true -> p y = true -> x = y) ->
  filter p l1 = filter p l2.
Proof.
  intros Hnd1 Hnd2 Hsame Huniq.
  assert (Hshort : forall l,
             NoDup l -> (forall x, In x l -> In x l1) ->
             filter p l = [] \/ exists x, filter p l = [x]).
  { intros l Hnd Hsub.
    pose proof (NoDup_filter p Hnd) as Hndf.
    destruct (filter p l) as [|x [|y r]] eqn:E; [now left|right; eauto|].
    exfalso.
    assert (Hx : In x (filter p l)) by (rewrite E; now left).
    assert (Hy : In y (filter p l)) by (rewrite E; right; now left).
    apply filter_In in Hx, Hy.
    destruct Hx as [Hx Px]. destruct Hy as [Hy Py].
    assert (x = y) by (apply Huniq; auto). subst y.
    inversion Hndf as [|? ? Hnot _]; subst. apply Hnot. now left. }
  assert (Hmem : forall x, In x (filter p l1) <-> In x (filter p l2)).
  { intros x. rewrite !filter_In, Hsame. tauto. }
  destruct (Hshort l1 Hnd1 (fun x H => H)) as [E1|(x & E1)];
    destruct (Hshort l2 Hnd2 (fun x H => proj2 (Hsame x) H))
      as [E2|(y & E2)];
    rewrite E1, E2 in *.
  - reflexivity.
  - exfalso. apply (proj2 (Hmem y)). now left.
  - exfalso. apply (proj1 (Hmem x)). now left.
  - destruct (proj1 (Hmem x) (or_introl eq_refl)) as [<-|[]]. reflexivity.
Qed.

(** Whether some group raises does not depend on the completion order. *)
Lemma comparable_order_free (remote : Remote) (c1 c2 : list Account) :
  Permutation c1 c2 ->
  forallb group_comparable (fst (merge_completed remote c1))
  = forallb group_comparable (fst (merge_completed remote c2)).
Proof.
  intros Hperm.
  pose proof (contributions_perm remote c1 c2 Hperm) as HC.
  destruct (forallb group_comparable (fst (merge_completed remote c1)))
    eqn:E1;
    destruct (forallb group_comparable (fst (merge_completed remote c2)))
      eqn:E2; try reflexivity; exfalso.
  - apply groups_comparable_iff in E1.
    assert (E : forallb group_comparable (fst (merge_completed remote c2))
                = true).
    { apply groups_comparable_iff. intros i j Hi Hj.
      apply E1; eapply Permutation_in; try eassumption;
        now apply Permutation_sym. }
    congruence.
  - apply groups_comparable_iff in E2.
    assert (E : forallb group_comparable (fst (merge_completed remote c1))
                = true).
    { apply groups_comparable_iff. intros i j Hi Hj.
      apply E2; eapply Permutation_in; eassumption. }
    congruence.
Qed.

(** With unique account names, the sorted group stored under a label does
    not depend on the completion order. *)
Lemma get_sorted_groups_order_free (remote : Remote) (c1 c2 : list Account)
  (k : string) :
  NoDup (map acct_name c1) -> Permutation c1 c2 ->
  Dict.get (map sort_group (fst (merge_completed remote c1))) k
  = Dict.get (map sort_group (fst (merge_completed remote c2))) k.
Proof.
  intros Hnd Hperm.
  pose proof (contributions_perm remote c1 c2 Hperm) as HC.
  rewrite !get_map_sort_group, !get_merge_completed.
  pose proof (sorted_group_order_free remote c1 c2 k Hnd Hperm) as Hs.
  destruct (filter (fun i => lab_name i =? k) (contributions remote c1))
    as [|i1 f1] eqn:E1;
    destruct (filter (fun i => lab_name i =? k) (contributions remote c2))
      as [|i2 f2] eqn:E2.
  - reflexivity.
  - exfalso.
    assert (Hin : In i2 (filter (fun i => lab_name i =? k)
                           (contributions remote c2)))
      by (rewrite E2; now left).
    apply filter_In in Hin. destruct Hin as [Hin Hk].
    apply (Permutation_in _ (Permutation_sym HC)) in Hin.
    rewrite (proj1 (filter_nil_iff _ _) E1 i2 Hin) in Hk. discriminate.
  - exfalso.
    assert (Hin : In i1 (filter (fun i => lab_name i =? k)
                           (contributions remote c1)))
      by (rewrite E1; now left).
    apply filter_In in Hin. destruct Hin as [Hin Hk].
    apply (Permutation_in _ HC) in Hin.
    rewrite (proj1 (filter_nil_iff _ _) E2 i1 Hin) in Hk. discriminate.
  - cbn [option_map]. now rewrite Hs.
Qed.

Lemma wf_sorted_groups (remote : Remote) (completed : list Account) :
  Dict.wf (map sort_group (fst (merge_completed remote completed))).
Proof.
  destruct (merge_completed_spec remote completed) as (Hwf & _).
  unfold Dict.wf. now rewrite keys_map_sort_group.
Qed.

Lemma sorted_groups_same_items (remote : Remote) (c1 c2 : list Account)
  (item : string * list Instance) :
  NoDup (map acct_name c1) -> Permutation c1 c2 ->
  In item (map sort_group (fst (merge_completed remote c1))) <->
  In item (map sort_group (fst (merge_completed remote c2))).
Proof.
  intros Hnd Hperm. destruct item as [k v].
  pose proof (get_sorted_groups_order_free remote c1 c2 k Hnd Hperm) as Hget.
  split; intros Hin; apply DictFacts.get_In.
  - rewrite <- Hget. apply DictFacts.In_get; [apply wf_sorted_groups|exact Hin].
  - rewrite Hget. apply DictFacts.In_get; [apply wf_sorted_groups|exact Hin].
Qed.

(** With unique account names, two completion orders of the same accounts
    make the pipeline raise in both cases or return in both, and then the
    two views are the same mapping: the same labels, and under each label
    the same sequence of records.  Only the order of the labels can
    differ. *)
Theorem aggregation_mapping_invariant (remote : Remote)
  (accounts c1 c2 : list Account) :
  NoDup (map acct_name c1) ->
  Permutation c1 c2 ->
  let r1 := TraceM.result
              (fetch_all_accounts_grouped_by_lab remote accounts c1) in
  let r2 := TraceM.result
              (fetch_all_accounts_grouped_by_lab remote accounts c2) in
  ExcM.is_ok r1 = ExcM.is_ok r2
  /\ (forall v1 e1 v2 e2,
         r1 = inr (v1, e1) -> r2 = inr (v2, e2) ->
         Permutation v1 v2
         /\ forall k, Dict.get v1 k = Dict.get v2 k).
Proof.
  intros Hnd Hperm r1 r2. subst r1 r2.
  rewrite !fetch_all_eq. unfold TraceM.result. cbn [snd].
  rewrite !aggregate_spec, <- (comparable_order_free remote c1 c2 Hperm).
  destruct (forallb group_comparable (fst (merge_completed remote c1)));
    [|split; [reflexivity|discriminate]].
  split; [reflexivity|].
  intros v1 e1 v2 e2 [= <- _] [= <- _].
  assert (Hp : Permutation
                 (map sort_group (fst (merge_completed remote c1)))
                 (map sort_group (fst (merge_completed remote c2)))).
  { apply NoDup_Permutation.
    - pose proof (wf_sorted_groups remote c1) as H.
      unfold Dict.wf, Dict.keys in H. now apply NoDup_map_inv in H.
    - pose proof (wf_sorted_groups remote c2) as H.
      unfold Dict.wf, Dict.keys in H. now apply NoDup_map_inv in H.
    - intros item. now apply sorted_groups_same_items. }
  split.
  - rewrite !sort_labs_perm. exact Hp.
  - intros k.
    rewrite (get_Permutation _ _ k (wf_sorted_groups remote c1)
               (Permutation_sym (sort_labs_perm _))).
    rewrite (get_Permutation _ _ k (wf_sorted_groups remote c2)
               (Permutation_sym (sort_labs_perm _))).
    now apply get_sorted_groups_order_free.
Qed.

(** When, in addition, no two labels differ in letter case only, the
    Grouped View does not depend on the completion order at all: two
    completion orders of the same accounts make the pipeline raise, or
    return the same view. *)
Theorem aggregation_order_invariant (remote : Remote)
  (accounts c1 c2 : list Account) :
  NoDup (map acct_name c1) ->
  Permutation c1 c2 ->
  case_distinct (contributions remote c1) ->
  view_of (TraceM.result
             (fetch_all_accounts_grouped_by_lab remote accounts c1))
  = view_of (TraceM.result
               (fetch_all_accounts_grouped_by_lab remote accounts c2)).
Proof.
  intros Hnd Hperm Hcase.
  rewrite !fetch_all_eq. unfold TraceM.result. cbn [snd].
  rewrite !aggregate_spec, <- (comparable_order_free remote c1 c2 Hperm).
  destruct (forallb group_comparable (fst (merge_completed remote c1)));
    [|reflexivity].
  cbn [view_of fst]. f_equal. unfold sort_labs.
  apply (stable_sort_determined _ _ string_order). intros c.
  pose proof (wf_sorted_groups remote c1) as Hw1.
  pose proof (wf_sorted_groups remote c2) as Hw2.
  apply filter_unique_perm.
  - unfold Dict.wf, Dict.keys in Hw1. now apply NoDup_map_inv in Hw1.
  - unfold Dict.wf, Dict.keys in Hw2. now apply NoDup_map_inv in Hw2.
  - intros item. now apply sorted_groups_same_items.
  - intros [k v] [k' v'] Hx Hy Px Py.
    apply (has_sort_key_iff _ _ string_order) in Px, Py. cbn [fst] in Px, Py.
    pose proof (DictFacts.In_get _ _ _ Hw1 Hx) as Gx.
    pose proof (DictFacts.In_get _ _ _ Hw1 Hy) as Gy.
    assert (Hk : k = k').
    { rewrite get_map_sort_group in Gx, Gy.
      destruct (Dict.get (fst (merge_completed remote c1)) k)
        as [g|] eqn:Gk; [|discriminate].
      destruct (Dict.get (fst (merge_completed remote c1)) k')
        as [g'|] eqn:Gk'; [|discriminate].
      apply get_merged_Some in Gk, Gk'.
      destruct Gk as (_ & i & Hi & <-). destruct Gk' as (_ & j & Hj & <-).
      apply Hcase; congruence. }
    subst k'. congruence.
Qed.

End CompletionOrder.

Lemma aggregation_order_invariant_example :
  view_of (TraceM.result
             (fetch_all_accounts_grouped_by_lab sample_remote
                [sample_account "A"; sample_account "B"]
                [sample_account "A"; sample_account "B"]))
  = view_of (TraceM.result
               (fetch_all_accounts_grouped_by_lab sample_remote
                  [sample_account "A"; sample_account "B"]
                  [sample_account "B"; sample_account "A"])).
Proof.
  apply aggregation_order_invariant.
  - repeat constructor; simpl; intuition discriminate.
  - apply perm_swap.
  - intros i j Hi Hj. vm_compute in Hi, Hj.
    destruct Hi as [<-|[<-|[<-|[]]]], Hj as [<-|[<-|[<-|[]]]];
      vm_compute; intros H; solve [reflexivity | discriminate H].
Defined.

Section CompletionOrder2.
Context {U : Unicode}.

(** C1.  The aggregation depends on the completion order: accounts "A" and
    "B", with unique names, list one instance each, under the labels "Lab"
    and "lab".  Both labels have the sort key "lab", the sort of the labels
    is stable, and the merged dictionary holds the labels in arrival order;
    so the view lists "Lab" first when "A" completes first and "lab" first
    when "B" does. *)
Theorem aggregation_order_dependent :
  let accounts := [sample_account "A"; sample_account "B"] in
  let reversed := [sample_account "B"; sample_account "A"] in
  NoDup (map acct_name accounts)
  /\ Permutation accounts reversed
  /\ (exists v1 v2,
         TraceM.result
           (fetch_all_accounts_grouped_by_lab case_clash_remote accounts
              accounts)
         = inr (v1, [])
         /\ TraceM.result
              (fetch_all_accounts_grouped_by_lab case_clash_remote accounts
                 reversed)
            = inr (v2, [])
         /\ Dict.keys v1 = ["Lab"; "lab"]
         /\ Dict.keys v2 = ["lab"; "Lab"]
         /\ v1 <> v2).
Proof.
  split; [|split].
  - repeat constructor; simpl; intuition discriminate.
  - apply perm_swap.
  - eexists. eexists.
    split; [reflexivity|]. split; [reflexivity|].
    split; [reflexivity|]. split; [reflexivity|]. discriminate.
Qed.

End CompletionOrder2.

(** The same with a letter outside ASCII, for the database of Latin-1 text:
    the labels "é" and "É" have the same sort key and keep their arrival
    order, which is in both cases an ascending order of the lowercased
    labels. *)
Lemma accented_labels_example :
  let accounts := [sample_account "A"; sample_account "B"] in
  let reversed := [sample_account "B"; sample_account "A"] in
  Str.lower "É" = "é"
  /\ exists v1 v2,
       TraceM.result
         (fetch_all_accounts_grouped_by_lab accent_clash_remote accounts
            accounts)
       = inr (v1, [])
       /\ TraceM.result
            (fetch_all_accounts_grouped_by_lab accent_clash_remote accounts
               reversed)
          = inr (v2, [])
       /\ Dict.keys v1 = ["é"; "É"]
       /\ Dict.keys v2 = ["É"; "é"]
       /\ StronglySorted label_le v1
       /\ StronglySorted label_le v2.
Proof.
  split; [reflexivity|]. eexists. eexists.
  split; [reflexivity|]. split; [reflexivity|].
  split; [reflexivity|]. split; [reflexivity|].
  split; repeat constructor.
Qed.

(** * Properties of the configuration, the routes and the loops *)

(** ** load_accounts_config *)

Section LoadAccountsConfig.
Context {U : Unicode}.

Lemma string_of_uint_nonempty (d : Decimal.uint) :
  d <> Decimal.Nil -> NilEmpty.string_of_uint d <> "".
Proof. destruct d; simpl; congruence. Qed.

Lemma of_int_nonempty (z : Z) : Repr.of_int z <> "".
Proof.
  unfold Repr.of_int. destruct z as [|p|p]; simpl.
  - discriminate.
  - apply string_of_uint_nonempty, DecimalPos.Unsigned.to_uint_nonnil.
  - discriminate.
Qed.

(** A truthy value never prints as the empty string. *)
Lemma py_str_truthy (v : json) : json_truthy v = true -> py_str v <> "".
Proof.
  destruct v as [|[|]|z|c r|s|items|members]; simpl;
    try discriminate.
  - intros _. apply of_int_nonempty.
  - destruct s; discriminate.
Qed.

Lemma missing_fields_nil (name access_key_id secret_access_key region_name
                          : json) :
  missing_fields name access_key_id secret_access_key region_name = [] <->
  json_truthy name && json_truthy access_key_id
  && json_truthy secret_access_key && json_truthy region_name = true.
Proof.
  unfold missing_fields. simpl.
  destruct (json_truthy name), (json_truthy access_key_id),
    (json_truthy secret_access_key), (json_truthy region_name); simpl;
    split; congruence.
Qed.

(** One turn of the loop adds the entry's account, or one error. *)
Lemma load_entry_spec (state : list Account * list string) (idx : nat)
  (entry : json) :
  match entry_account entry with
  | Some a => load_entry state (idx, entry) = (fst state ++ [a], snd state)
  | None =>
      exists msg,
        load_entry state (idx, entry) = (fst state, snd state ++ [msg])
  end.
Proof.
  destruct entry as [| | | | | |members]; simpl; try (eexists; reflexivity).
  pose proof (missing_fields_nil (json_get members "name")
                (json_get members "ak") (json_get members "sk")
                (json_get members "region")) as Hm.
  destruct (json_truthy (json_get members "name")
            && json_truthy (json_get members "ak")
            && json_truthy (json_get members "sk")
            && json_truthy (json_get members "region")).
  - now rewrite (proj2 Hm eq_refl).
  - destruct (missing_fields (json_get members "name")
                (json_get members "ak") (json_get members "sk")
                (json_get members "region")) as [|f fs].
    + destruct Hm as [Hm _]. discriminate (Hm eq_refl).
    + eexists. reflexivity.
Qed.

Lemma load_entries_spec (data : list json) :
  forall k state,
    exists errs,
      fold_left load_entry (combine (seq k (List.length data)) data) state
      = (fst state ++ valid_accounts data, snd state ++ errs)
      /\ List.length errs
         = List.length (filter (fun e => negb (entry_valid e)) data).
Proof.
  induction data as [|entry data IH]; intros k state.
  - exists []. simpl. now rewrite !app_nil_r, <- surjective_pairing.
  - cbn [List.length seq combine fold_left].
    pose proof (load_entry_spec state k entry) as Hstep.
    unfold valid_accounts, entry_valid. cbn [flat_map filter].
    destruct (entry_account entry) as [a|].
    + rewrite Hstep. destruct (IH (S k) (fst state ++ [a], snd state))
        as (errs & Hfold & Hlen).
      exists errs. rewrite Hfold. cbn [fst snd negb].
      split; [|exact Hlen]. now rewrite <- app_assoc.
    + destruct Hstep as (msg & Hstep). rewrite Hstep.
      destruct (IH (S k) (fst state, snd state ++ [msg]))
        as (errs & Hfold & Hlen).
      exists (msg :: errs). rewrite Hfold. cbn [fst snd negb List.length].
      split; [|now rewrite Hlen]. now rewrite <- app_assoc.
Qed.

Lemma entry_account_complete (entry : json) (a : Account) :
  entry_account entry = Some a -> account_complete a.
Proof.
  destruct entry as [| | | | | |members]; try discriminate. simpl.
  destruct (json_truthy (json_get members "name")) eqn:Hn; [|discriminate].
  destruct (json_truthy (json_get members "ak")) eqn:Ha; [|discriminate].
  destruct (json_truthy (json_get members "sk")) eqn:Hs; [|discriminate].
  destruct (json_truthy (json_get members "region")) eqn:Hr; [|discriminate].
  simpl. intros [= <-]. unfold account_complete. simpl.
  repeat split; try (now apply py_str_truthy).
  eexists. split; [reflexivity|now apply py_str_truthy].
Qed.

Lemma valid_accounts_complete (data : list json) :
  Forall account_complete (valid_accounts data).
Proof.
  unfold valid_accounts. apply Forall_forall. intros a Hin.
  apply in_flat_map in Hin. destruct Hin as (entry & _ & Hin).
  destruct (entry_account entry) as [b|] eqn:E; [|destruct Hin].
  destruct Hin as [<-|[]]. now apply (entry_account_complete entry).
Qed.

Lemma load_accounts_array (config_path : string) (data : list json) :
  exists errors,
    load_accounts_config config_path (Loaded (JArr data))
    = inr (valid_accounts data, errors)
    /\ List.length errors
       = List.length (filter (fun e => negb (entry_valid e)) data).
Proof.
  destruct (load_entries_spec data 0 ([], [])) as (errs & Hfold & Hlen).
  exists errs. simpl. unfold enumerate. now rewrite Hfold.
Qed.

(** Whatever is not an array of entries yields no account. *)
Lemma load_accounts_other (config_path : string) (file : ConfigFile)
  (accounts : list Account) (errors : list string) :
  load_accounts_config config_path file = inr (accounts, errors) ->
  (exists data, file = Loaded (JArr data))
  \/ (accounts = [] /\ exists msg, errors = [msg]).
Proof.
  destruct file as [|exc|msg|data]; simpl.
  - intros [= <- <-]. right. eauto.
  - discriminate.
  - intros [= <- <-]. right. eauto.
  - destruct data; try (intros [= <- <-]; right; eauto).
    intros _. left. eauto.
Qed.

(** X1. Every account [load_accounts_config] returns has its four fields
    present and not empty, whatever the file holds: an entry with a field
    that is missing, null, empty, zero or false is never handed on. *)
Theorem load_accounts_complete (config_path : string) (file : ConfigFile)
  (accounts : list Account) (errors : list string) :
  load_accounts_config config_path file = inr (accounts, errors) ->
  Forall account_complete accounts.
Proof.
  intros Hload.
  destruct (load_accounts_other _ _ _ _ Hload)
    as [(data & ->)|(-> & _)]; [|constructor].
  destruct (load_accounts_array config_path data) as (errs & Heq & _).
  rewrite Heq in Hload. injection Hload as <- _.
  apply valid_accounts_complete.
Qed.

End LoadAccountsConfig.

Lemma load_accounts_complete_witness :
  Forall account_complete
    [sample_account "A"; sample_account "A"].
Proof.
  apply (load_accounts_complete "accounts.json" (Loaded (JArr sample_config))
           _ ["Account entry #2 must be an object.";
              "Account '#3' missing fields: name, ak, sk, region"]).
  reflexivity.
Defined.

Section LoadAccountsConfig2.
Context {U : Unicode}.

(** What one turn adds does not depend on the state it starts from. *)
Lemma load_entry_state (state : list Account * list string)
  (entry : nat * json) :
  load_entry state entry
  = (fst state ++ fst (load_entry ([], []) entry),
     snd state ++ snd (load_entry ([], []) entry)).
Proof.
  destruct entry as [idx [| | | | | |members]]; simpl;
    try now rewrite app_nil_r.
  destruct (missing_fields (json_get members "name") (json_get members "ak")
              (json_get members "sk") (json_get members "region"));
    simpl; now rewrite app_nil_r.
Qed.

Lemma load_entries_errors (entries : list (nat * json)) :
  forall state,
    snd (fold_left load_entry entries state)
    = snd state
      ++ flat_map (fun entry => snd (load_entry ([], []) entry)) entries.
Proof.
  induction entries as [|entry entries IH]; intros state; simpl.
  - now rewrite app_nil_r.
  - rewrite IH, (load_entry_state state entry). simpl.
    now rewrite <- app_assoc.
Qed.

Lemma In_enumerate {A} (pre post : list A) (x : A) :
  In (List.length pre, x) (enumerate (pre ++ x :: post)).
Proof.
  unfold enumerate.
  assert (H : forall k,
             In (k + List.length pre, x)
                (combine (seq k (List.length (pre ++ x :: post)))
                   (pre ++ x :: post))).
  { induction pre as [|y pre IH]; intros k; simpl.
    - left. f_equal. lia.
    - right. replace (k + S (List.length pre))
        with (S k + List.length pre) by lia.
      apply IH. }
  exact (H 0).
Qed.

Lemma valid_accounts_length (data : list json) :
  List.length (valid_accounts data)
  = List.length (filter entry_valid data).
Proof.
  unfold valid_accounts, entry_valid.
  induction data as [|entry data IH]; simpl; [reflexivity|].
  destruct (entry_account entry); simpl; now rewrite IH.
Qed.

(** X2. From an array, every entry yields exactly one account or exactly one
    error: the accounts are those of the valid entries, in the order of the
    entries and with repetitions kept, and an entry that is not an object
    is reported with its position counted from 1. *)
Theorem load_accounts_partition (config_path : string) (data : list json) :
  exists errors,
    load_accounts_config config_path (Loaded (JArr data))
    = inr (valid_accounts data, errors)
    /\ List.length (valid_accounts data) + List.length errors
       = List.length data
    /\ (forall pre entry post,
           data = pre ++ entry :: post ->
           is_object entry = false ->
           In ("Account entry #" ++ Str.of_nat (List.length pre + 1)
               ++ " must be an object.")%string errors).
Proof.
  destruct (load_accounts_array config_path data) as (errors & Heq & Hlen).
  exists errors. split; [exact Heq|]. split.
  - rewrite valid_accounts_length, Hlen.
    apply (filter_length entry_valid data).
  - intros pre entry post -> Hobj.
    simpl in Heq. injection Heq as Heq. apply (f_equal snd) in Heq.
    simpl in Heq. rewrite load_entries_errors in Heq. simpl in Heq.
    rewrite <- Heq.
    apply in_flat_map. exists (List.length pre, entry).
    split; [apply In_enumerate|].
    destruct entry; try discriminate; now left.
Qed.

Lemma filter_nil_forallb {A} (f : A -> bool) (l : list A) :
  List.length (filter (fun x => negb (f x)) l) = 0 -> forallb f l = true.
Proof.
  induction l as [|x l IH]; simpl; [reflexivity|].
  destruct (f x); simpl; [exact IH|discriminate].
Qed.

Lemma forallb_filter_nil {A} (f : A -> bool) (l : list A) :
  forallb f l = true -> filter (fun x => negb (f x)) l = [].
Proof.
  induction l as [|x l IH]; simpl; [reflexivity|].
  destruct (f x); simpl; [exact IH|discriminate].
Qed.

(** X3. [load_accounts_config] reports no error exactly when the file holds
    an array all of whose entries are valid; the accounts are then the
    entries, one for one. *)
Theorem load_accounts_clean (config_path : string) (file : ConfigFile)
  (accounts : list Account) :
  load_accounts_config config_path file = inr (accounts, [])
  <-> exists data,
        file = Loaded (JArr data)
        /\ forallb entry_valid data = true
        /\ accounts = valid_accounts data
        /\ List.length accounts = List.length data.
Proof.
  split.
  - intros Hload.
    destruct (load_accounts_other _ _ _ _ Hload)
      as [(data & ->)|(_ & msg & Hmsg)]; [|discriminate].
    destruct (load_accounts_array config_path data) as (errs & Heq & Hinv).
    rewrite Heq in Hload. injection Hload as <- ->.
    assert (Hall : forallb entry_valid data = true).
    { apply filter_nil_forallb. now rewrite <- Hinv. }
    exists data. split; [reflexivity|]. split; [exact Hall|].
    split; [reflexivity|].
    rewrite valid_accounts_length.
    pose proof (filter_length entry_valid data) as Hlen.
    rewrite (forallb_filter_nil _ _ Hall) in Hlen. simpl in Hlen. lia.
  - intros (data & -> & Hall & -> & _).
    destruct (load_accounts_array config_path data) as (errs & Heq & Hinv).
    rewrite (forallb_filter_nil _ _ Hall) in Hinv.
    destruct errs; [exact Heq|discriminate].
Qed.

Lemma entry_account_json (a : Account) :
  account_complete a -> entry_account (account_json a) = Some a.
Proof.
  intros ((n & Hn & Nn) & Na & Ns & Nr).
  destruct a as [name k s r]. simpl in *. subst name.
  unfold entry_account, account_json, json_get. simpl.
  apply String.eqb_neq in Nn, Na, Ns, Nr.
  now rewrite Nn, Na, Ns, Nr.
Qed.

(** X4. Writing complete descriptors as entries and loading them gives the
    same descriptors back, in order and without error; names that repeat
    are accepted as they are. *)
Theorem load_accounts_round_trip (config_path : string)
  (accounts : list Account) :
  Forall account_complete accounts ->
  load_accounts_config config_path
    (Loaded (JArr (map account_json accounts)))
  = inr (accounts, []).
Proof.
  intros Hall.
  assert (Hvalid : valid_accounts (map account_json accounts) = accounts).
  { unfold valid_accounts.
    induction Hall as [|a l Ha _ IH]; cbn [map flat_map].
    - reflexivity.
    - rewrite (entry_account_json a Ha). cbn [app]. now rewrite IH. }
  assert (Hb : forallb entry_valid (map account_json accounts) = true).
  { apply forallb_forall. intros e Hin. apply in_map_iff in Hin.
    destruct Hin as (a & <- & Hin). unfold entry_valid.
    rewrite Forall_forall in Hall.
    now rewrite (entry_account_json a (Hall a Hin)). }
  destruct (load_accounts_array config_path (map account_json accounts))
    as (errs & Heq & Hinv).
  rewrite (forallb_filter_nil _ _ Hb) in Hinv.
  destruct errs; [|discriminate]. now rewrite Heq, Hvalid.
Qed.

Lemma sample_account_complete (n : string) :
  n <> "" -> account_complete (sample_account n).
Proof.
  intros Hn. unfold account_complete, sample_account. simpl.
  repeat split; try discriminate. eauto.
Qed.

End LoadAccountsConfig2.

Lemma load_accounts_round_trip_witness :
  load_accounts_config "accounts.json"
    (Loaded (JArr (map account_json
                     [sample_account "A"; sample_account "A"])))
  = inr ([sample_account "A"; sample_account "A"], []).
Proof.
  apply load_accounts_round_trip.
  repeat constructor; apply sample_account_complete; discriminate.
Defined.

(** ** fetch_instances_for_account *)

Section FetchInstancesForAccount.
Context {U : Unicode}.

(** X5. A listing is all or nothing.  [fetch_instances_for_account] returns
    only when the paginator finishes and no raw instance has a null "Tags"
    member, and then holds one record per raw instance, in the order of the
    pages, each with the identifier of its raw instance and the name of
    the account; when the paginator raises, the call raises, whatever the
    pages delivered before.  For a named account whose paginator finishes,
    the call returns the records exactly when every raw instance can be
    transformed, which is when none has a null "Tags" member, and raises
    what the first other one raises: one such instance fails the whole
    listing. *)
Theorem fetch_all_or_nothing (remote : Remote) (acct : Account) :
  (forall instances,
      fetch_instances_for_account remote acct = inr instances ->
      failure (remote acct) = None
      /\ map instance_id instances
         = map InstanceId (raw_instances remote acct)
      /\ Forall (fun i => acct_name acct = Some (account i)) instances
      /\ Forall (fun ec2 => Tags ec2 <> Null) (raw_instances remote acct))
  /\ (failure (remote acct) <> None ->
      ExcM.is_ok (fetch_instances_for_account remote acct) = false)
  /\ (forall n,
         acct_name acct = Some n ->
         failure (remote acct) = None ->
         fetch_instances_for_account remote acct
         = ExcM.mapM (transform_instance n) (raw_instances remote acct)
         /\ (Forall (fun ec2 => Tags ec2 <> Null)
               (raw_instances remote acct) ->
             ExcM.is_ok (fetch_instances_for_account remote acct) = true)).
Proof.
  unfold raw_instances. split; [|split].
  - intros instances H. destruct (acct_name acct) as [n|] eqn:Hn.
    + rewrite (fetch_named _ _ _ Hn) in H.
      destruct (ExcM.mapM (transform_instance n)
                  (flat_map page_instances (pages (remote acct))))
        as [e|l] eqn:E; simpl in H; [discriminate|].
      destruct (failure (remote acct)) as [[]|]; try discriminate.
      injection H as <-. split; [reflexivity|].
      apply mapM_Forall2 in E.
      induction E as [|x y raw l Hxy _ IH]; [repeat split; constructor|].
      destruct IH as (Hids & Hnames & Htags).
      destruct (transform_instance_ok _ _ _ Hxy) as (Ha & Hi & Ht).
      split; [|split].
      * cbn [map]. now rewrite Hi, Hids.
      * constructor; [now rewrite Ha|exact Hnames].
      * constructor; assumption.
    + revert H. unfold fetch_instances_for_account, get_name. rewrite Hn.
      destruct (flat_map page_instances (pages (remote acct))) as [|x raw];
        simpl; [|discriminate].
      destruct (failure (remote acct)) as [[]|]; try discriminate.
      intros [= <-]. repeat split; constructor.
  - intros Hf. destruct (acct_name acct) as [n|] eqn:Hn.
    + rewrite (fetch_named _ _ _ Hn).
      destruct (ExcM.mapM (transform_instance n)
                  (flat_map page_instances (pages (remote acct))));
        simpl; [reflexivity|].
      destruct (failure (remote acct)) as [[]|]; try reflexivity.
      congruence.
    + unfold fetch_instances_for_account, get_name. rewrite Hn.
      destruct (flat_map page_instances (pages (remote acct))) as [|x raw];
        simpl; [|reflexivity].
      destruct (failure (remote acct)) as [[]|]; try reflexivity.
      congruence.
  - intros n Hn Hf.
    assert (Heq : fetch_instances_for_account remote acct
                  = ExcM.mapM (transform_instance n)
                      (flat_map page_instances (pages (remote acct)))).
    { rewrite (fetch_named _ _ _ Hn), Hf.
      now destruct (ExcM.mapM (transform_instance n)
                      (flat_map page_instances (pages (remote acct)))). }
    split; [exact Heq|]. intros Htags. rewrite Heq.
    destruct (mapM_all_ok (transform_instance n)
                (flat_map page_instances (pages (remote acct))))
      as (l & ->); [|reflexivity].
    eapply Forall_impl; [|exact Htags].
    intros ec2. apply transform_instance_returns.
Qed.

End FetchInstancesForAccount.

(** ** The errors of a round *)

Section TheErrorsOfARound.
Context {U : Unicode}.

Lemma loaded_accounts_complete (config_path : string) (file : ConfigFile)
  (accounts : list Account) (errors : list string) :
  load_accounts_config config_path file = inr (accounts, errors) ->
  Forall account_complete accounts.
Proof.
  intros Hload.
  destruct (load_accounts_other _ _ _ _ Hload)
    as [(data & ->)|(-> & _)]; [|constructor].
  destruct (load_accounts_array config_path data) as (errs & Heq & _).
  rewrite Heq in Hload. injection Hload as <- _.
  apply valid_accounts_complete.
Qed.

Lemma complete_named (a : Account) : account_complete a -> acct_name a <> None.
Proof. intros ((n & Hn & _) & _). congruence. Qed.

(** A named account adds an error exactly when its listing call raises. *)
Lemma task_errors_named (remote : Remote) (a : Account) :
  acct_name a <> None -> snd (task remote a) = listing_error remote a.
Proof.
  intros Hn. unfold listing_error.
  destruct (fetch_instances_for_account remote a) as [exc|l] eqn:E.
  - now rewrite (task_failed remote a exc E).
  - apply task_ok; [exact Hn|]. now rewrite E.
Qed.

Lemma flat_map_ext_in {A B} (f g : A -> list B) (l : list A) :
  (forall x, In x l -> f x = g x) -> flat_map f l = flat_map g l.
Proof.
  induction l as [|x l IH]; intros H; simpl; [reflexivity|].
  rewrite (H x (or_introl eq_refl)), IH; [reflexivity|].
  intros y Hy. apply H. now right.
Qed.

Lemma length_listing_errors (remote : Remote) (l : list Account) :
  List.length (flat_map (listing_error remote) l)
  = List.length (filter (listing_fails remote) l).
Proof.
  induction l as [|a l IH]; simpl; [reflexivity|].
  rewrite length_app, IH. unfold listing_error, listing_fails.
  destruct (fetch_instances_for_account remote a); reflexivity.
Qed.

Lemma index_route_loaded (config_path : string) (file : ConfigFile)
  (remote : Remote) (schedule : list Account -> list Account)
  (accounts : list Account) (cfg_errors : list string) :
  load_accounts_config config_path file = inr (accounts, cfg_errors) ->
  index_route config_path file remote schedule
  = index accounts cfg_errors remote (schedule accounts).
Proof.
  intros H. unfold index_route, TraceM.bind, TraceM.lift. rewrite H. simpl.
  now destruct (index accounts cfg_errors remote (schedule accounts)).
Qed.

(** X6. The errors shown by the index route are those of the configuration
    followed by one error per account whose listing call raised, in the
    order in which the accounts completed; the route shows no message. *)
Theorem index_route_errors (config_path : string) (file : ConfigFile)
  (remote : Remote) (schedule : list Account -> list Account)
  (accounts : list Account) (cfg_errors : list string)
  (response : Response) :
  load_accounts_config config_path file = inr (accounts, cfg_errors) ->
  incl (schedule accounts) accounts ->
  TraceM.result (index_route config_path file remote schedule)
  = inr response ->
  r_errors response
  = cfg_errors ++ flat_map (listing_error remote) (schedule accounts)
  /\ List.length (r_errors response)
     = List.length cfg_errors
       + List.length (filter (listing_fails remote) (schedule accounts))
  /\ r_messages response = [].
Proof.
  intros Hload Hincl.
  rewrite (index_route_loaded _ _ _ _ _ _ Hload), index_eq.
  unfold TraceM.result. cbn [snd].
  destruct (aggregate remote (schedule accounts)) as [exc|[view errors]]
    eqn:Hagg; [discriminate|].
  intros [= <-]. unfold respond. cbn [r_errors r_messages snd].
  destruct (aggregate_view _ _ _ _ Hagg) as (_ & -> & _).
  assert (Herr : flat_map (fun a => snd (task remote a)) (schedule accounts)
                 = flat_map (listing_error remote) (schedule accounts)).
  { apply flat_map_ext_in. intros a Ha. apply task_errors_named.
    apply complete_named.
    pose proof (loaded_accounts_complete _ _ _ _ Hload) as Hall.
    rewrite Forall_forall in Hall. apply Hall, Hincl, Ha. }
  rewrite Herr. split; [reflexivity|]. split; [|reflexivity].
  now rewrite length_app, length_listing_errors.
Qed.

End TheErrorsOfARound.

Lemma index_route_errors_witness :
  exists response,
    TraceM.result
      (index_route "accounts.json" sample_file partly_failing_remote
         (@rev Account))
    = inr response
    /\ r_errors response
       = ["Account entry #2 must be an object.";
          "B: Error fetching EC2 instances in B (eu-west-1): AuthFailure"].
Proof.
  eexists. split; [vm_compute; reflexivity|].
  refine (proj1 (index_route_errors "accounts.json" sample_file
                   partly_failing_remote (@rev Account)
                   [sample_account "A"; sample_account "B"]
                   ["Account entry #2 must be an object."] _ _ _ _)).
  - reflexivity.
  - intros a Ha. now apply in_rev.
  - vm_compute. reflexivity.
Defined.

(** ** Shape of the Grouped View *)

Section ShapeOfTheGroupedView.
Context {U : Unicode}.

Lemma lab_name_nonempty (i : Instance) : lab_name i <> "".
Proof.
  unfold lab_name, Str.or_else. destruct (lab i) as [s|]; [|discriminate].
  destruct (String.eqb_spec s ""); [discriminate|assumption].
Qed.

Lemma aggregate_items (remote : Remote) (completed : list Account)
  (view : View) (errors : list string) (k : string) (group : list Instance) :
  aggregate remote completed = inr (view, errors) ->
  In (k, group) view ->
  Dict.lookup view k = group
  /\ exists item,
       In item (fst (merge_completed remote completed))
       /\ (k, group) = sort_group item
       /\ exists i, In i (contributions remote completed) /\ lab_name i = k.
Proof.
  intros Hagg Hin.
  destruct (aggregate_view _ _ _ _ Hagg) as (Hview & _ & Hwf & _ & _).
  split.
  - unfold Dict.lookup. now rewrite (DictFacts.In_get view k group Hwf Hin).
  - rewrite Hview in Hin.
    apply (Permutation_in _ (sort_labs_perm _)) in Hin.
    apply in_map_iff in Hin. destruct Hin as ([k0 g0] & Heq & Hin0).
    exists (k0, g0). split; [exact Hin0|]. split; [now symmetry|].
    destruct (merge_completed_spec remote completed) as (Hwf0 & _).
    pose proof (DictFacts.In_get _ k0 g0 Hwf0 Hin0) as Hget.
    destruct (get_merged_Some _ _ _ _ Hget) as (_ & i & Hi & Hk).
    exists i. split; [exact Hi|]. unfold sort_group in Heq. simpl in Heq.
    congruence.
Qed.

(** X7. In the Grouped View the read pipeline returns, no label occurs
    twice, no group is empty, no label is the empty string, every record
    lies under its own normalized label, the labels are exactly the
    normalized labels of the listed instances, and the records of the view
    are those of the listings, each as often as it is listed. *)
Theorem grouped_view_shape (remote : Remote)
  (accounts completed : list Account) (view : View) (errors : list string) :
  TraceM.result (fetch_all_accounts_grouped_by_lab remote accounts completed)
  = inr (view, errors) ->
  NoDup (Dict.keys view)
  /\ (forall k group,
         In (k, group) view ->
         group <> [] /\ k <> "" /\ Forall (fun i => lab_name i = k) group)
  /\ (forall k,
         In k (Dict.keys view) <->
         exists i, In i (contributions remote completed) /\ lab_name i = k)
  /\ Permutation (all_instances view) (contributions remote completed)
  /\ List.length (all_instances view)
     = List.length (contributions remote completed).
Proof.
  rewrite fetch_all_eq. unfold TraceM.result. cbn [snd]. intros Hagg.
  destruct (aggregate_view _ _ _ _ Hagg) as (_ & _ & Hwf & Hperm & _).
  assert (Hitems : forall k group,
             In (k, group) view ->
             group <> [] /\ k <> "" /\ Forall (fun i => lab_name i = k) group).
  { intros k group Hin.
    destruct (aggregate_items _ _ _ _ _ _ Hagg Hin)
      as (Hlook & _ & _ & _ & i & Hi & Hk).
    split; [|split].
    - assert (Hin' : In i group).
      { rewrite <- Hlook. apply (In_view_lookup _ _ _ _ _ _ Hagg). auto. }
      intros ->. destruct Hin'.
    - rewrite <- Hk. apply lab_name_nonempty.
    - apply Forall_forall. intros j Hj. rewrite <- Hlook in Hj.
      now apply (In_view_lookup _ _ _ _ _ _ Hagg) in Hj. }
  split; [exact Hwf|]. split; [exact Hitems|]. split.
  - intros k. split.
    + intros Hin. apply in_map_iff in Hin.
      destruct Hin as ([k0 group] & Hk & Hin). simpl in Hk. subst k0.
      now destruct (aggregate_items _ _ _ _ _ _ Hagg Hin)
        as (_ & _ & _ & _ & Hex).
    + intros (i & Hi & Hk).
      assert (Hin : In i (Dict.lookup view k)).
      { apply (In_view_lookup _ _ _ _ _ _ Hagg). auto. }
      unfold Dict.lookup in Hin.
      destruct (Dict.get view k) as [group|] eqn:Hget; [|destruct Hin].
      apply DictFacts.get_In in Hget.
      apply in_map_iff. now exists (k, group).
  - split; [exact Hperm|now apply Permutation_length].
Qed.

End ShapeOfTheGroupedView.

Lemma grouped_view_shape_witness :
  NoDup (Dict.keys sample_remote_view)
  /\ List.length (all_instances sample_remote_view) = 3.
Proof.
  destruct (grouped_view_shape sample_remote
              [sample_account "A"; sample_account "B"]
              [sample_account "B"; sample_account "A"]
              sample_remote_view [] eq_refl)
    as (Hnodup & _ & _ & _ & Hlen).
  split; [exact Hnodup|exact Hlen].
Defined.

Section ShapeOfTheGroupedView2.
Context {U : Unicode}.

Lemma stable_sort_idem {A K : Type} (key : A -> K) (ltb : K -> K -> bool)
  (order : StrictTotal ltb) (l : list A) :
  stable_sort key ltb (stable_sort key ltb l) = stable_sort key ltb l.
Proof.
  apply (stable_sort_determined key ltb order). intros c.
  apply (stable_sort_stable key ltb order).
Qed.

Lemma sort_group_idem (item : string * list Instance) :
  sort_group (sort_group item) = sort_group item.
Proof.
  unfold sort_group. simpl. f_equal.
  apply (stable_sort_idem _ _ key_order).
Qed.

Lemma group_comparable_sorted (item : string * list Instance) :
  group_comparable (sort_group item) = group_comparable item.
Proof.
  unfold group_comparable, sort_group. cbn [snd].
  assert (Hin : forall k,
             In k (map instance_key
                     (stable_sort instance_key key_ltb (snd item)))
             <-> In k (map instance_key (snd item))).
  { intros k. split; apply Permutation_in, Permutation_map.
    - apply stable_sort_perm.
    - apply Permutation_sym, stable_sort_perm. }
  destruct (comparable (map instance_key (snd item))) eqn:E.
  - apply comparable_spec. intros k1 k2 H1 H2.
    apply Hin in H1, H2. revert k1 k2 H1 H2. now apply comparable_spec.
  - destruct (comparable
                (map instance_key
                   (stable_sort instance_key key_ltb (snd item)))) eqn:E';
      [|reflexivity].
    rewrite <- E. symmetry. apply comparable_spec. intros k1 k2 H1 H2.
    apply Hin in H1, H2. revert k1 k2 H1 H2. now apply comparable_spec.
Qed.

(** X8. The two final sorts are idempotent on what the read pipeline
    returns: sorting the groups of the returned view again does not raise
    and changes nothing, and sorting its labels again changes nothing. *)
Theorem grouped_view_resorted (remote : Remote)
  (accounts completed : list Account) (view : View) (errors : list string) :
  TraceM.result (fetch_all_accounts_grouped_by_lab remote accounts completed)
  = inr (view, errors) ->
  sort_groups view = inr view /\ sort_labs view = view.
Proof.
  rewrite fetch_all_eq. unfold TraceM.result. cbn [snd]. intros Hagg.
  pose proof Hagg as Hspec. rewrite aggregate_spec in Hspec.
  destruct (forallb group_comparable (fst (merge_completed remote completed)))
    eqn:Hcmp; [|discriminate].
  rewrite forallb_forall in Hcmp.
  assert (Hitem : forall item,
             In item view ->
             group_comparable item = true /\ sort_group item = item).
  { intros [k group] Hin.
    destruct (aggregate_items _ _ _ _ _ _ Hagg Hin)
      as (_ & item0 & Hin0 & -> & _).
    split; [|apply sort_group_idem].
    rewrite group_comparable_sorted. now apply Hcmp. }
  split.
  - rewrite sort_groups_spec.
    replace (forallb group_comparable view) with true.
    + apply (f_equal inr). rewrite <- (map_id view) at 2.
      apply map_ext_in. intros item Hin. now apply Hitem.
    + symmetry. apply forallb_forall. intros item Hin. now apply Hitem.
  - injection Hspec as <- _. unfold sort_labs.
    apply (stable_sort_idem _ _ string_order).
Qed.

End ShapeOfTheGroupedView2.

Lemma grouped_view_resorted_witness :
  sort_groups sample_remote_view = inr sample_remote_view
  /\ sort_labs sample_remote_view = sample_remote_view.
Proof.
  apply (grouped_view_resorted sample_remote
           [sample_account "A"; sample_account "B"]
           [sample_account "B"; sample_account "A"]
           sample_remote_view [] eq_refl).
Defined.

(** ** The account names of a group summary *)

Section TheAccountNamesOfAGroupSummary.
Context {U : Unicode}.

Lemma set_insert_In (s x : string) (l : list string) :
  In x (set_insert s l) <-> x = s \/ In x l.
Proof.
  induction l as [|y l IH]; simpl.
  - intuition.
  - destruct (String.compare s y) eqn:E; simpl.
    + apply String.compare_eq_iff in E. subst y. intuition.
    + intuition.
    + rewrite IH. intuition.
Qed.

Lemma set_insert_sorted (s : string) (l : list string) :
  StronglySorted string_lt l -> StronglySorted string_lt (set_insert s l).
Proof.
  destruct string_order as [_ Htrans _].
  induction 1 as [|y l Hs IH Hy]; simpl.
  - repeat constructor.
  - destruct (String.compare s y) eqn:E.
    + now constructor.
    + assert (Hsy : string_lt s y).
      { unfold string_lt, String.ltb. now rewrite E. }
      constructor; [now constructor|]. constructor; [exact Hsy|].
      eapply Forall_impl; [|exact Hy]. intros z Hz.
      now apply (Htrans s y z).
    + constructor; [exact IH|]. apply Forall_forall. intros z Hz.
      apply set_insert_In in Hz. destruct Hz as [->|Hz].
      * unfold string_lt, String.ltb.
        rewrite (String.compare_antisym y s), E. reflexivity.
      * rewrite Forall_forall in Hy. now apply Hy.
Qed.

Lemma sorted_set_sorted (l : list string) :
  StronglySorted string_lt (sorted_set l).
Proof.
  unfold sorted_set. induction l as [|x l IH]; simpl.
  - constructor.
  - now apply set_insert_sorted.
Qed.

Lemma sorted_set_In (x : string) (l : list string) :
  In x (sorted_set l) <-> In x l.
Proof.
  unfold sorted_set. induction l as [|y l IH]; simpl; [reflexivity|].
  rewrite set_insert_In, IH. intuition.
Qed.

Lemma strictly_sorted_NoDup (l : list string) :
  StronglySorted string_lt l -> NoDup l.
Proof.
  destruct string_order as [Hirr _ _].
  induction 1 as [|x l Hs IH Hx]; constructor; [|exact IH].
  intros Hin. rewrite Forall_forall in Hx. specialize (Hx x Hin).
  unfold string_lt in Hx. now rewrite Hirr in Hx.
Qed.

(** X9. In a group summary, [accounts] lists in strictly ascending order,
    so each once, exactly the account names of the group's instances that
    are not empty; and [powered_up] lies between 0 and [total]. *)
Theorem summary_accounts (instances : list Instance) :
  let s := summarize_group instances in
  StronglySorted string_lt (accounts s)
  /\ NoDup (accounts s)
  /\ (forall n,
         In n (accounts s) <->
         n <> "" /\ exists i, In i instances /\ account i = n)
  /\ (0 <= powered_up s <= total s)%Z.
Proof.
  cbv zeta. unfold summarize_group. cbn [accounts powered_up total].
  split; [apply sorted_set_sorted|].
  split; [apply strictly_sorted_NoDup, sorted_set_sorted|]. split.
  - intros n. rewrite sorted_set_In, in_map_iff. split.
    + intros (i & <- & Hi). apply filter_In in Hi. destruct Hi as [Hi Hne].
      apply negb_true_iff, String.eqb_neq in Hne. eauto.
    + intros (Hne & i & Hi & <-). exists i. split; [reflexivity|].
      apply filter_In. split; [exact Hi|].
      now apply negb_true_iff, String.eqb_neq.
  - rewrite count_if_filter.
    pose proof (filter_length_le is_running instances). lia.
Qed.

End TheAccountNamesOfAGroupSummary.

(** ** The counts of a response *)

Section TheCountsOfAResponse.
Context {U : Unicode}.

Lemma count_if_perm {A} (p : A -> bool) (l1 l2 : list A) :
  Permutation l1 l2 -> count_if p l1 = count_if p l2.
Proof.
  induction 1 as [|x l1 l2 _ IH|x y l|l1 l2 l3 _ IH1 _ IH2].
  - reflexivity.
  - now rewrite !count_if_cons, IH.
  - rewrite !count_if_cons. lia.
  - congruence.
Qed.

Lemma respond_counts (remote : Remote) (completed : list Account)
  (view : View * list string) (errors messages : list string) :
  aggregate remote completed = inr view ->
  let overall := r_overall (respond errors messages view) in
  o_total overall = Z.of_nat (List.length (contributions remote completed))
  /\ o_powered_up overall
     = count_if is_running (contributions remote completed)
  /\ o_off overall
     = count_if (fun i => negb (is_running i))
         (contributions remote completed).
Proof.
  destruct view as [view errs]. intros Hagg.
  destruct (aggregate_view _ _ _ _ Hagg) as (_ & _ & Hwf & Hperm & _).
  cbv zeta. unfold respond, compute_overall_counts.
  cbn [r_overall o_total o_powered_up o_off fst].
  rewrite (summarize_labs_map view Hwf).
  destruct (overall_of_map view) as [Ht Hp]. cbv zeta in Ht, Hp.
  rewrite Ht, Hp, (Permutation_length Hperm), (count_if_perm _ _ _ Hperm).
  split; [reflexivity|]. split; [reflexivity|].
  rewrite !count_if_filter.
  pose proof (filter_length is_running (contributions remote completed)).
  lia.
Qed.

(** X10. The overall counts of a response, of the index request and of a
    control request alike, count the instances listed in the round that
    computed the view: [total] is the number of instances listed by the
    accounts whose listing call returned, [powered_up] the number of those
    that are running, [off] the number of the others; an account whose
    listing call raised counts for nothing. *)
Theorem response_counts (remote : Remote) (accounts completed : list Account)
  (cfg_errors : list string) :
  let counted (response : Response) :=
    o_total (r_overall response)
    = Z.of_nat (List.length (contributions remote completed))
    /\ o_powered_up (r_overall response)
       = count_if is_running (contributions remote completed)
    /\ o_off (r_overall response)
       = count_if (fun i => negb (is_running i))
           (contributions remote completed) in
  (forall response,
      TraceM.result (index accounts cfg_errors remote completed)
      = inr response ->
      counted response)
  /\ (forall op form remote1 completed1 cls response,
         TraceM.result
           (control_lab op
              (mkControlEnv form accounts cfg_errors remote1 completed1 cls
                 remote completed))
         = inr response ->
         counted response).
Proof.
  cbv zeta. split.
  - intros response. rewrite index_eq. unfold TraceM.result. cbn [snd].
    destruct (aggregate remote completed) as [exc|view] eqn:Hagg;
      [discriminate|].
    intros [= <-]. now apply respond_counts.
  - intros op form remote1 completed1 cls response.
    set (env := mkControlEnv form accounts cfg_errors remote1 completed1 cls
                  remote completed).
    destruct (String.eqb_spec (target_lab_of (form_lab_name env)) "")
      as [He|Hne].
    + rewrite (control_lab_empty op env He). unfold TraceM.result.
      cbn [snd rec_remote rec_completed env].
      destruct (aggregate remote completed) as [exc|view] eqn:Hagg;
        [discriminate|].
      intros [= <-]. now apply respond_counts.
    + destruct (control_lab_nonempty op env Hne) as (more & _ & ->).
      unfold TraceM.result. cbn [snd rec_remote rec_completed env].
      destruct (aggregate remote completed) as [exc|view] eqn:Hagg;
        [discriminate|].
      intros [= <-]. now apply respond_counts.
Qed.

End TheCountsOfAResponse.

(** ** Labels the form cannot name *)

Section LabelsTheFormCannotName.
Context {U : Unicode}.

(** Stripped bytes are left as they are by both strips. *)
Lemma strip_bytes_fixed (l : list ascii) :
  let x := Str.rstrip_bytes (Str.lstrip_bytes l) in
  Str.lstrip_bytes x = x /\ Str.rstrip_bytes x = x.
Proof.
  cbv zeta. unfold Str.rstrip_bytes, Str.lstrip_bytes.
  set (t := Str.drop_spaces Str.space1 Str.space2 Str.space3 l).
  set (q2 := fun c2 c1 => Str.space2 c1 c2).
  set (q3 := fun c3 c2 c1 => Str.space3 c1 c2 c3).
  split.
  - apply drop_fixed.
    destruct (drop_spec Str.space1 Str.space2 Str.space3 (List.length l) l
                (le_n _)) as [Ht _]. fold t in Ht.
    destruct (drop_spec Str.space1 q2 q3 (List.length (rev t)) (rev t)
                (le_n _)) as [_ (w & Hw)].
    apply (starts_space_prefix _ _ _ _ (rev w)).
    rewrite <- rev_app_distr, <- Hw, rev_involutive. exact Ht.
  - now rewrite rev_involutive, drop_idem.
Qed.

Lemma strip_idem (s : string) : Str.strip (Str.strip s) = Str.strip s.
Proof.
  unfold Str.strip. rewrite list_ascii_of_string_of_list_ascii.
  destruct (strip_bytes_fixed (list_ascii_of_string s)) as [Hl Hr].
  now rewrite Hl, Hr.
Qed.

(** X11. The label a control request works with is stripped, and stripping
    it again changes nothing.  So an instance whose normalized label begins
    or ends with white space, which the view shows as a group of that
    label, is selected by no stop or start request, whatever the form
    holds. *)
Theorem padded_label_unreachable (op : Op) (form_value : option string)
  (i : Instance) :
  Str.strip (lab_name i) <> lab_name i ->
  Str.strip (target_lab_of form_value) = target_lab_of form_value
  /\ selected op (target_lab_of form_value) i = false
  /\ (forall remote acct,
         ~ In i (filter (selected op (target_lab_of form_value))
                   (listing remote acct))).
Proof.
  intros Hpad.
  assert (Hidem : Str.strip (target_lab_of form_value)
                  = target_lab_of form_value).
  { unfold target_lab_of. apply strip_idem. }
  assert (Hsel : selected op (target_lab_of form_value) i = false).
  { unfold selected.
    destruct (String.eqb_spec (lab_name i) (target_lab_of form_value))
      as [E|_]; [|reflexivity].
    exfalso. apply Hpad. rewrite E. exact Hidem. }
  split; [exact Hidem|]. split; [exact Hsel|].
  intros remote acct Hin. apply filter_In in Hin. destruct Hin as [_ Hin].
  congruence.
Qed.

End LabelsTheFormCannotName.

Lemma padded_label_unreachable_witness :
  lab_name padded_instance = " x"
  /\ selected Stop (target_lab_of (Some " x")) padded_instance = false.
Proof.
  split; [reflexivity|].
  apply (padded_label_unreachable Stop (Some " x") padded_instance).
  vm_compute. discriminate.
Defined.

(** ** The mutating loop *)

Section TheMutatingLoop.
Context {U : Unicode}.

Lemma mutate_selected_eq (op : Op) (cls : Account -> Client) :
  forall selection errors,
    mutate_selected op cls selection errors
    = (flat_map (fun item => TraceM.trace (mutate_one op cls item)) selection,
       inr (errors ++ flat_map (mutate_error op cls) selection)).
Proof.
  induction selection as [|[acct ids] rest IH]; intros errors.
  - simpl. now rewrite app_nil_r.
  - cbn [mutate_selected flat_map].
    unfold mutate_error at 1, mutate_one at 1 3. cbn [fst snd].
    unfold TraceM.try_except, TraceM.bind, TraceM.ret, TraceM.trace,
      TraceM.result.
    destruct (mutate_instances_for_account op (cls acct) acct ids)
      as [t [exc|[]]]; cbn [fst snd]; rewrite IH; cbn [fst snd].
    + now rewrite !app_nil_r, <- app_assoc.
    + now rewrite !app_nil_r.
Qed.

Lemma length_mutate_errors (op : Op) (cls : Account -> Client)
  (selection : list (Account * list (option string))) :
  List.length (flat_map (mutate_error op cls) selection)
  = List.length (filter (mutate_fails op cls) selection).
Proof.
  induction selection as [|item l IH]; simpl; [reflexivity|].
  rewrite length_app, IH. unfold mutate_error, mutate_fails.
  destruct (TraceM.result (mutate_one op cls item)); reflexivity.
Qed.

(** X12. The mutating loop never raises, and the entries of the selection
    do not affect one another: the calls it issues are, entry after entry,
    exactly those the entry issues when taken alone, also after an earlier
    entry failed; and it returns the errors it was given followed by one
    error per failing entry, in the order of the selection. *)
Theorem mutate_selected_isolated (op : Op) (cls : Account -> Client)
  (selection : list (Account * list (option string)))
  (errors : list string) :
  let run := mutate_selected op cls selection errors in
  TraceM.trace run
  = flat_map (fun item => TraceM.trace (mutate_one op cls item)) selection
  /\ TraceM.result run
     = inr (errors ++ flat_map (mutate_error op cls) selection)
  /\ (forall errors',
         TraceM.result run = inr errors' ->
         List.length errors'
         = List.length errors
           + List.length (filter (mutate_fails op cls) selection)).
Proof.
  cbv zeta. rewrite mutate_selected_eq. unfold TraceM.trace, TraceM.result.
  cbn [fst snd]. split; [reflexivity|]. split; [reflexivity|].
  intros errors' [= <-]. now rewrite length_app, length_mutate_errors.
Qed.

End TheMutatingLoop.

(** ** The selection loop *)

Section TheSelectionLoop.
Context {U : Unicode}.

Lemma collect_task_name (op : Op) (remote : Remote) (target : string)
  (a : Account) :
  fst (fst (collect_task op remote target a)) = name_or_unknown a.
Proof.
  unfold collect_task.
  destruct (fetch_instances_for_account remote a) as [e|l]; simpl;
    [reflexivity|].
  unfold get_name, name_or_unknown.
  destruct (acct_name a); reflexivity.
Qed.

Lemma collect_completed_eq (op : Op) (remote : Remote) (target : string)
  (completed : list Account) :
  collect_completed op remote target completed
  = {| per_account_ids :=
         flat_map (selection_entry op remote target) completed;
       sel_errors :=
         flat_map (fun a => snd (collect_task op remote target a)) completed;
       sel_messages :=
         flat_map (selection_message op remote target) completed |}.
Proof.
  unfold collect_completed.
  set (step := fun (sel : Selection) (acct : Account) => _).
  assert (H : forall l sel0,
             fold_left step l sel0
             = {| per_account_ids :=
                    per_account_ids sel0
                    ++ flat_map (selection_entry op remote target) l;
                  sel_errors :=
                    sel_errors sel0
                    ++ flat_map
                         (fun a => snd (collect_task op remote target a)) l;
                  sel_messages :=
                    sel_messages sel0
                    ++ flat_map (selection_message op remote target) l |}).
  { induction l as [|b l IH]; intros sel0.
    - simpl. rewrite !app_nil_r. now destruct sel0.
    - cbn [fold_left flat_map]. rewrite IH. subst step. cbv beta.
      pose proof (collect_task_ids op remote target b) as Hids.
      pose proof (collect_task_name op remote target b) as Hname.
      fold (selected_ids op remote target b) in Hids.
      unfold selection_entry, selection_message. cbv zeta.
      destruct (collect_task op remote target b) as [[nm ids] errs].
      cbn [fst snd] in Hids, Hname. subst nm ids.
      destruct (selected_ids op remote target b) as [|x ids];
        cbn [per_account_ids sel_errors sel_messages app];
        now rewrite <- ?app_assoc. }
  now rewrite H.
Qed.

Lemma flat_map_flat_map {A B C} (f : B -> list C) (g : A -> list B)
  (l : list A) :
  flat_map f (flat_map g l) = flat_map (fun a => flat_map f (g a)) l.
Proof.
  induction l as [|a l IH]; simpl; [reflexivity|].
  now rewrite flat_map_app, IH.
Qed.

Lemma mutating_calls_app (t1 t2 : list event) :
  mutating_calls (t1 ++ t2) = mutating_calls t1 ++ mutating_calls t2.
Proof. apply flat_map_app. Qed.

Lemma control_calls (op : Op) (env : ControlEnv) :
  target_lab_of (form_lab_name env) <> "" ->
  mutating_calls (TraceM.trace (control_lab op env))
  = mutating_calls
      (flat_map
         (fun a =>
            flat_map (fun item => TraceM.trace (mutate_one op (clients env) item))
              (selection_entry op (sel_remote env)
                 (target_lab_of (form_lab_name env)) a))
         (sel_completed env)).
Proof.
  intros Hne. destruct (control_lab_nonempty op env Hne) as (more & _ & ->).
  unfold TraceM.trace. cbn [fst].
  change (PoolCreated (max_workers (cfg_accounts env))
          :: fst (mutate_selected op (clients env)
                    (per_account_ids
                       (collect_completed op (sel_remote env)
                          (target_lab_of (form_lab_name env))
                          (sel_completed env)))
                    (sel_errors
                       (collect_completed op (sel_remote env)
                          (target_lab_of (form_lab_name env))
                          (sel_completed env))))
          ++ [PoolCreated (max_workers (cfg_accounts env))])
    with ([PoolCreated (max_workers (cfg_accounts env))]
          ++ fst (mutate_selected op (clients env)
                    (per_account_ids
                       (collect_completed op (sel_remote env)
                          (target_lab_of (form_lab_name env))
                          (sel_completed env)))
                    (sel_errors
                       (collect_completed op (sel_remote env)
                          (target_lab_of (form_lab_name env))
                          (sel_completed env))))
          ++ [PoolCreated (max_workers (cfg_accounts env))]).
  rewrite !mutating_calls_app. cbn [mutating_calls flat_map app].
  rewrite app_nil_r, mutate_selected_eq, collect_completed_eq.
  cbn [fst per_account_ids]. now rewrite flat_map_flat_map.
Qed.

(** X13. When the label is not blank and every remote call succeeds, a
    control request sends every selected identifier, once: account after
    account in the order in which the selection round completed, the calls
    carry the chunks of the account's selected identifiers, and together
    the calls carry exactly the selected identifiers, in listing order. *)
Theorem control_sends_selection (op : Op) (env : ControlEnv) :
  target_lab_of (form_lab_name env) <> "" ->
  (forall acct sent chunk, clients env acct sent chunk = None) ->
  let target := target_lab_of (form_lab_name env) in
  let run := control_lab op env in
  mutating_calls (TraceM.trace run)
  = flat_map
      (fun a =>
         map (fun chunk => (op, a, chunk))
           (chunks (selected_ids op (sel_remote env) target a)))
      (sel_completed env)
  /\ List.concat (call_args (TraceM.trace run))
     = flat_map (selected_ids op (sel_remote env) target) (sel_completed env).
Proof.
  intros Hne Hok. cbv zeta.
  assert (Hcalls :
            mutating_calls (TraceM.trace (control_lab op env))
            = flat_map
                (fun a =>
                   map (fun chunk => (op, a, chunk))
                     (chunks
                        (selected_ids op (sel_remote env)
                           (target_lab_of (form_lab_name env)) a)))
                (sel_completed env)).
  { rewrite (control_calls op env Hne). unfold mutating_calls at 1.
    rewrite flat_map_flat_map. apply flat_map_ext. intros a.
    unfold selection_entry. cbv zeta.
    destruct (selected_ids op (sel_remote env)
                (target_lab_of (form_lab_name env)) a) as [|x ids] eqn:E.
    - now rewrite chunks_nil.
    - cbn [flat_map]. rewrite !app_nil_r.
      unfold mutate_one, mutate_instances_for_account. cbn [fst snd].
      rewrite (send_chunks_ok op (clients env a) a (Hok a)).
      unfold TraceM.trace. cbn [fst].
      apply (mutating_calls_map op a). }
  split; [exact Hcalls|].
  unfold call_args. rewrite Hcalls. clear Hcalls.
  induction (sel_completed env) as [|a l IH]; [reflexivity|].
  cbn [flat_map]. rewrite map_app, concat_app, IH. f_equal.
  rewrite map_map. cbn [snd]. rewrite map_id. apply concat_chunks.
Qed.

End TheSelectionLoop.

Lemma control_sends_selection_witness :
  List.concat (call_args (TraceM.trace (control_lab Stop stop_x_request)))
  = [Some "i-2"].
Proof.
  refine (eq_trans
            (proj2 (control_sends_selection Stop stop_x_request _ _)) _).
  - vm_compute. discriminate.
  - reflexivity.
  - reflexivity.
Defined.

(** ** The control routes *)

Section TheControlRoutes.
Context {U : Unicode}.

Lemma control_route_loaded (op : Op) (form_value : option string)
  (config_path : string) (file : ConfigFile)
  (remote1 : Remote) (schedule1 : list Account -> list Account)
  (cls : Account -> Client)
  (remote2 : Remote) (schedule2 : list Account -> list Account)
  (accounts : list Account) (cfg_errors : list string) :
  load_accounts_config config_path file = inr (accounts, cfg_errors) ->
  control_route op form_value config_path file remote1 schedule1 cls
    remote2 schedule2
  = control_lab op
      (mkControlEnv form_value accounts cfg_errors remote1
         (schedule1 accounts) cls remote2 (schedule2 accounts)).
Proof.
  intros H. unfold control_route, TraceM.bind, TraceM.lift. rewrite H.
  cbn [fst snd app].
  now destruct (control_lab op _).
Qed.

Lemma collect_errors_named (op : Op) (remote : Remote) (target : string)
  (a : Account) :
  acct_name a <> None ->
  snd (collect_task op remote target a) = listing_error remote a.
Proof.
  intros Hn. unfold collect_task, listing_error.
  destruct (fetch_instances_for_account remote a) as [e|l]; simpl;
    [reflexivity|].
  unfold get_name. destruct (acct_name a); [reflexivity|congruence].
Qed.

Lemma length_selection_messages (op : Op) (remote : Remote) (target : string)
  (l : list Account) :
  List.length (flat_map (selection_message op remote target) l)
  = List.length (flat_map (selection_entry op remote target) l).
Proof.
  induction l as [|a l IH]; simpl; [reflexivity|].
  rewrite !length_app, IH. unfold selection_message, selection_entry.
  cbv zeta. now destruct (selected_ids op remote target a).
Qed.

(** X14. A stop or start request with a label that is not blank, served
    with the accounts of the configuration.  The request fails only if the
    recompute round does: no failure of a listing call of the selection
    round or of a mutating call fails it.  Its errors are, in this order,
    one per account whose listing call raised in the selection round, one
    per account whose mutating step raised, the errors of the
    configuration, and one per account whose listing call raised in the
    recompute round; its messages are one per account with identifiers
    selected, in the order in which the selection round completed. *)
Theorem control_route_outcome (op : Op) (form_value : option string)
  (config_path : string) (file : ConfigFile)
  (remote1 : Remote) (schedule1 : list Account -> list Account)
  (cls : Account -> Client)
  (remote2 : Remote) (schedule2 : list Account -> list Account)
  (accounts : list Account) (cfg_errors : list string) :
  load_accounts_config config_path file = inr (accounts, cfg_errors) ->
  incl (schedule1 accounts) accounts ->
  incl (schedule2 accounts) accounts ->
  target_lab_of form_value <> "" ->
  let target := target_lab_of form_value in
  let run :=
    control_route op form_value config_path file remote1 schedule1 cls
      remote2 schedule2 in
  let selection :=
    flat_map (selection_entry op remote1 target) (schedule1 accounts) in
  ExcM.is_ok (TraceM.result run)
  = ExcM.is_ok
      (TraceM.result
         (fetch_all_accounts_grouped_by_lab remote2 accounts
            (schedule2 accounts)))
  /\ (forall response,
         TraceM.result run = inr response ->
         r_errors response
         = flat_map (listing_error remote1) (schedule1 accounts)
           ++ flat_map (mutate_error op cls) selection
           ++ cfg_errors
           ++ flat_map (listing_error remote2) (schedule2 accounts)
         /\ r_messages response
            = flat_map (selection_message op remote1 target)
                (schedule1 accounts)
         /\ List.length (r_messages response) = List.length selection).
Proof.
  intros Hload Hincl1 Hincl2 Hne. cbv zeta.
  rewrite (control_route_loaded _ _ _ _ _ _ _ _ _ _ _ Hload).
  set (env := mkControlEnv form_value accounts cfg_errors remote1
                (schedule1 accounts) cls remote2 (schedule2 accounts)).
  assert (Hnamed : forall a, In a accounts -> acct_name a <> None).
  { intros a Ha. apply complete_named.
    pose proof (loaded_accounts_complete _ _ _ _ Hload) as Hall.
    rewrite Forall_forall in Hall. now apply Hall. }
  destruct (control_lab_nonempty op env Hne) as (more & Hres & ->).
  rewrite mutate_selected_eq in Hres. unfold TraceM.result in Hres.
  cbn [snd] in Hres. injection Hres as Hres. apply app_inv_head in Hres.
  subst more. rewrite collect_completed_eq.
  cbn [per_account_ids sel_errors sel_messages rec_remote rec_completed
       sel_remote sel_completed form_lab_name clients config_errors env].
  rewrite fetch_all_eq. unfold TraceM.result. cbn [snd].
  destruct (aggregate remote2 (schedule2 accounts)) as [exc|[view errs]]
    eqn:Hagg.
  - split; [reflexivity|]. intros response. discriminate.
  - split; [reflexivity|]. intros response [= <-].
    unfold respond. cbn [r_errors r_messages snd].
    destruct (aggregate_view _ _ _ _ Hagg) as (_ & -> & _).
    rewrite (flat_map_ext_in
               (fun a => snd (collect_task op remote1
                                (target_lab_of form_value) a))
               (listing_error remote1) (schedule1 accounts)).
    2:{ intros a Ha. apply collect_errors_named, Hnamed, Hincl1, Ha. }
    rewrite (flat_map_ext_in (fun a => snd (task remote2 a))
               (listing_error remote2) (schedule2 accounts)).
    2:{ intros a Ha. apply task_errors_named, Hnamed, Hincl2, Ha. }
    rewrite ?collect_completed_eq. cbn [per_account_ids].
    split; [now rewrite <- !app_assoc|]. split; [reflexivity|].
    apply length_selection_messages.
Qed.

End TheControlRoutes.

Lemma control_route_outcome_witness :
  exists response,
    TraceM.result
      (control_route Stop (Some " x ") "accounts.json" sample_file
         partly_failing_remote (@rev Account) a_failing_clients
         sample_remote (fun l => l))
    = inr response
    /\ r_errors response
       = ["B: Error fetching EC2 instances in B (eu-west-1): AuthFailure";
          "A: stop failed: stop_instances failed in A (eu-west-1): RequestLimitExceeded";
          "Account entry #2 must be an object."]
    /\ r_messages response = ["A: stopping 1 instance(s) in lab 'x'"].
Proof.
  eexists. split; [vm_compute; reflexivity|].
  assert (Hload : load_accounts_config "accounts.json" sample_file
                  = inr ([sample_account "A"; sample_account "B"],
                         ["Account entry #2 must be an object."]))
    by reflexivity.
  destruct (proj2 (control_route_outcome Stop (Some " x ") "accounts.json"
                     sample_file partly_failing_remote (@rev Account)
                     a_failing_clients sample_remote (fun l => l)
                     _ _ Hload
                     (fun a Ha => proj2 (in_rev _ a) Ha)
                     (fun a Ha => Ha)
                     ltac:(vm_compute; discriminate))
             _ eq_refl) as (Herr & Hmsg & _).
  split; [exact Herr|exact Hmsg].
Defined.

Section TheControlRoutes2.
Context {U : Unicode}.

(** X15. When the configuration yields no account, the index route and the
    control routes answer with an empty view, no summary, counts of zero and
    no message; the errors are those of the configuration, after "Lab name
    is required." for a control request with a blank label; and no mutating
    call is sent. *)
Theorem routes_without_accounts (config_path : string) (file : ConfigFile)
  (cfg_errors : list string) :
  load_accounts_config config_path file = inr ([], cfg_errors) ->
  (forall remote schedule,
      schedule (@nil Account) = [] ->
      TraceM.result (index_route config_path file remote schedule)
      = inr (empty_response cfg_errors))
  /\ (forall op form_value remote1 schedule1 cls remote2 schedule2,
         schedule1 (@nil Account) = [] ->
         schedule2 (@nil Account) = [] ->
         let run :=
           control_route op form_value config_path file remote1 schedule1
             cls remote2 schedule2 in
         TraceM.result run
         = inr (empty_response (label_error form_value ++ cfg_errors))
         /\ mutating_calls (TraceM.trace run) = []).
Proof.
  intros Hload. split.
  - intros remote schedule Hs.
    rewrite (index_route_loaded _ _ _ _ _ _ Hload), Hs.
    rewrite <- (app_nil_r cfg_errors) at 2. reflexivity.
  - intros op form_value remote1 schedule1 cls remote2 schedule2 Hs1 Hs2.
    cbv zeta.
    rewrite (control_route_loaded _ _ _ _ _ _ _ _ _ _ _ Hload), Hs1, Hs2.
    rewrite <- (app_nil_r cfg_errors) at 2.
    unfold control_lab, label_error. cbn [form_lab_name].
    destruct (target_lab_of form_value =? ""); split; reflexivity.
Qed.

End TheControlRoutes2.

Lemma routes_without_accounts_witness :
  TraceM.result
    (index_route "accounts.json" (Loaded (JObj [])) sample_remote
       (@rev Account))
  = inr (empty_response ["Config must be a JSON array of accounts objects."]).
Proof.
  apply (proj1 (routes_without_accounts "accounts.json" (Loaded (JObj []))
                  ["Config must be a JSON array of accounts objects."]
                  eq_refl)).
  reflexivity.
Defined.

Section TheControlRoutes3.
Context {U : Unicode}.

Lemma selected_ids_nil (op : Op) (remote : Remote) (target : string)
  (a : Account) :
  (forall i, In i (listing remote a) -> lab_name i = target ->
             state i <> Some (precondition op)) ->
  selected_ids op remote target a = [].
Proof.
  intros H. unfold selected_ids.
  replace (filter (selected op target) (listing remote a)) with (@nil Instance);
    [reflexivity|].
  symmetry. apply filter_nil_iff. intros i Hi. unfold selected.
  destruct (String.eqb_spec (lab_name i) target) as [E|_]; [|reflexivity].
  simpl. destruct (state_is i (precondition op)) eqn:Hs; [|reflexivity].
  apply state_is_iff in Hs. now destruct (H i Hi E).
Qed.

Lemma flat_map_nil {A B} (f : A -> list B) (l : list A) :
  (forall x, In x l -> f x = []) -> flat_map f l = [].
Proof.
  induction l as [|x l IH]; intros H; simpl; [reflexivity|].
  rewrite (H x (or_introl eq_refl)), IH; [reflexivity|].
  intros y Hy. apply H. now right.
Qed.

(** X16. When no instance listed in the selection round lies under the
    target label in the precondition state, because the lab is already
    stopped (or started), does not exist, or its accounts could not be
    listed, a control request sends no mutating call and shows no
    message. *)
Theorem control_nothing_selected (op : Op) (env : ControlEnv) :
  (forall a i,
      In a (sel_completed env) ->
      In i (listing (sel_remote env) a) ->
      lab_name i = target_lab_of (form_lab_name env) ->
      state i <> Some (precondition op)) ->
  mutating_calls (TraceM.trace (control_lab op env)) = []
  /\ (forall response,
         TraceM.result (control_lab op env) = inr response ->
         r_messages response = []).
Proof.
  intros Hnone.
  destruct (String.eqb_spec (target_lab_of (form_lab_name env)) "")
    as [He|Hne].
  - rewrite (control_lab_empty op env He). split; [reflexivity|].
    intros response. unfold TraceM.result. cbn [snd].
    destruct (aggregate (rec_remote env) (rec_completed env));
      [discriminate|].
    now intros [= <-].
  - assert (Hids : forall a,
               In a (sel_completed env) ->
               selected_ids op (sel_remote env)
                 (target_lab_of (form_lab_name env)) a = []).
    { intros a Ha. apply selected_ids_nil. intros i. now apply Hnone. }
    split.
    + rewrite (control_calls op env Hne).
      rewrite flat_map_nil; [reflexivity|].
      intros a Ha. unfold selection_entry. cbv zeta.
      now rewrite (Hids a Ha).
    + destruct (control_lab_nonempty op env Hne) as (more & _ & ->).
      intros response. unfold TraceM.result. cbn [snd].
      destruct (aggregate (rec_remote env) (rec_completed env));
        [discriminate|].
      intros [= <-]. unfold respond. cbn [r_messages].
      rewrite collect_completed_eq. cbn [sel_messages].
      apply flat_map_nil. intros a Ha.
      unfold selection_message. cbv zeta. now rewrite (Hids a Ha).
Qed.

End TheControlRoutes3.

Lemma control_nothing_selected_witness :
  mutating_calls (TraceM.trace (control_lab Stop stop_y_request)) = [].
Proof.
  apply (control_nothing_selected Stop stop_y_request).
  intros a i [<-|[<-|[]]]; vm_compute.
  - intros [].
  - intros [<-|[<-|[]]]; discriminate.
Defined.

(** ** What a failing remote call raises *)

Section WhatAFailingRemoteCallRaises.
Context {U : Unicode}.

Lemma send_chunks_raises (op : Op) (client : Client) (acct : Account)
  (chunk : list (option string)) (rest : list (list (option string)))
  (exc : exn) :
  forall done sent,
    (forall i, i < List.length done ->
               client (sent ++ firstn i done) (nth i done []) = None) ->
    client (sent ++ done) chunk = Some exc ->
    TraceM.result (send_chunks op client acct sent (done ++ chunk :: rest))
    = inl (mutate_raises op acct exc).
Proof.
  induction done as [|d done IH]; intros sent Hdone Hfail.
  - rewrite app_nil_r in Hfail. cbn [app send_chunks]. rewrite Hfail.
    unfold TraceM.result, TraceM.bind, mutate_raises, get_name.
    destruct exc; cbn; try reflexivity.
    destruct (acct_name acct); reflexivity.
  - pose proof (Hdone 0 (Nat.lt_0_succ _)) as H0.
    cbn [firstn nth] in H0. rewrite app_nil_r in H0.
    cbn [app send_chunks]. rewrite H0.
    specialize (IH (sent ++ [d])).
    unfold TraceM.result, TraceM.bind in *. cbn [TraceM.emit fst snd].
    apply IH.
    + intros i Hi. rewrite <- app_assoc. cbn [app].
      apply (Hdone (S i)). cbn [List.length]. lia.
    + rewrite <- app_assoc. exact Hfail.
Qed.

(** X17. When a remote call of the mutating step raises, after the calls
    before it succeeded, the step raises: for one of the two botocore
    classes a [RuntimeError] whose text names the operation, the account
    and the region before the text of the cause, and the cause itself
    otherwise.  The error then shown for the account is its name, the verb
    and "failed:" before that text. *)
Theorem mutate_failure_message (op : Op) (client : Client) (acct : Account)
  (instance_ids : list (option string))
  (done : list (list (option string))) (chunk : list (option string))
  (rest : list (list (option string))) (exc : exn) :
  chunks instance_ids = done ++ chunk :: rest ->
  (forall i, i < List.length done ->
             client (firstn i done) (nth i done []) = None) ->
  client done chunk = Some exc ->
  TraceM.result (mutate_instances_for_account op client acct instance_ids)
  = inl (mutate_raises op acct exc)
  /\ mutate_error op (fun _ => client) (acct, instance_ids)
     = [(name_or_unknown acct ++ ": " ++ op_verb op ++ " failed: "
         ++ str_exn (mutate_raises op acct exc))%string]
  /\ (forall msg n,
         exc = BotoError msg -> acct_name acct = Some n ->
         str_exn (mutate_raises op acct exc)
         = (op_api op ++ " failed in " ++ n ++ " (" ++ region acct ++ "): "
            ++ msg)%string).
Proof.
  intros Hchunks Hdone Hfail.
  assert (Hres : TraceM.result
                   (mutate_instances_for_account op client acct instance_ids)
                 = inl (mutate_raises op acct exc)).
  { unfold mutate_instances_for_account.
    destruct instance_ids as [|x ids] eqn:E.
    - rewrite chunks_nil in Hchunks. now destruct done.
    - rewrite <- E in *. rewrite Hchunks.
      now apply (send_chunks_raises op client acct chunk rest exc done []). }
  split; [exact Hres|]. split.
  - unfold mutate_error, mutate_one. cbn [fst snd]. now rewrite Hres.
  - intros msg n -> Hn. unfold mutate_raises. now rewrite Hn.
Qed.

End WhatAFailingRemoteCallRaises.

Lemma mutate_failure_message_witness :
  TraceM.result
    (mutate_instances_for_account Stop third_call_fails (sample_account "A")
       ids_120)
  = inl (RuntimeError "stop_instances failed in A (eu-west-1): Throttled").
Proof.
  refine (proj1 (mutate_failure_message Stop third_call_fails
                   (sample_account "A") ids_120
                   (firstn 2 (chunks ids_120))
                   (nth 2 (chunks ids_120) []) []
                   (BotoError "Throttled") _ _ _)).
  - vm_compute. reflexivity.
  - intros i Hi. unfold third_call_fails.
    assert (Hlen : List.length (firstn i (firstn 2 (chunks ids_120))) <> 2).
    { rewrite length_firstn. cbn [List.length] in Hi.
      change (List.length (firstn 2 (chunks ids_120))) with 2 in *. lia. }
    apply Nat.eqb_neq in Hlen. now rewrite Hlen.
  - reflexivity.
Defined.
